(** * gnark: the PLONK prover (bn254) and the LZSS compressor

    A shallow embedding of [plonk.Prove] and its helpers
    ([commitToLRO], [commitToQuotient], [evaluateLROSmallDomain],
    [computeLinearizedPolynomial]) and of [lzss.Compressor.Compress],
    together with the properties the specification states about them.

    Conventions.
    - A Go slice is a list; indexing, storing and re-slicing out of range
      panic in Go and return [None] here (capacity is identified with length).
    - A Go [int] that counts elements of a slice is an unbounded [Z]; the
      [uint64] cardinality of a domain keeps its wrap-around.
    - [fr.Element] is an integer in [0, q), q the order of the bn254 scalar
      field; every operation reduces modulo q.
    - Collaborators that live outside the repository (the constraint solver,
      the iop and fft packages, kzg, the Fiat-Shamir transcript, the suffix
      array) are fields of a record of functions; every call that can fail is
      appended to a log, so that the order of calls can be stated. *)

From Stdlib Require Import ZArith Lia Znumtheory Zdiv Zpow_facts.
From stdpp Require Import base option list strings relations.

Local Open Scope Z_scope.
Set Warnings "-clear-no-such-hyp".

(** ** Go slices *)
Module Go.

Definition len {A} (l : list A) : Z := Z.of_nat (length l).

(** [l[i]] *)
Definition index {A} (l : list A) (i : Z) : option A :=
  if bool_decide (0 <= i) then l !! Z.to_nat i else None.

(** [l[i] = v] *)
Definition store {A} (l : list A) (i : Z) (v : A) : option (list A) :=
  if bool_decide (0 <= i < len l) then Some (<[Z.to_nat i := v]> l) else None.

(** [l[a:b]] *)
Definition slice {A} (l : list A) (a b : Z) : option (list A) :=
  if bool_decide (0 <= a <= b /\ b <= len l)
  then Some (take (Z.to_nat (b - a)) (drop (Z.to_nat a) l))
  else None.

(** [make([]T, n)], every cell holding the zero value [z] *)
Definition make {A} (z : A) (n : Z) : option (list A) :=
  if bool_decide (0 <= n) then Some (replicate (Z.to_nat n) z) else None.

(** [for i := from; <k more rounds>; i++ { body }] *)
Fixpoint for_range {S} (k : nat) (i : Z) (body : Z -> S -> option S) (st : S)
  : option S :=
  match k with
  | O => Some st
  | S k' => match body i st with
            | Some st' => for_range k' (i + 1) body st'
            | None => None
            end
  end.

(** [for i := 0; i < n; i++ { body }] *)
Definition for_upto {S} (n : Z) (body : Z -> S -> option S) (st : S) : option S :=
  for_range (Z.to_nat n) 0 body st.

(** [utils.Parallelize(n, work)] hands disjoint ranges of [0, n) to workers;
    the bodies used here read and write cell [i] only, so that the outcome is
    that of the plain loop. *)
Definition parallelize {S} (n : Z) (body : Z -> S -> option S) (st : S) : option S :=
  for_upto n body st.

(** [copy(dst, src)]: the first [min(len(dst), len(src))] cells *)
Definition copy {A} (dst src : list A) : list A :=
  take (length dst) src ++ drop (length src) dst.

(** [uint64] addition and the conversion [int(x)] of a [uint64] *)
Definition u64_add (a b : Z) : Z := (a + b) mod 2 ^ 64.
Definition u64_mul (a b : Z) : Z := (a * b) mod 2 ^ 64.
Definition int_of_u64 (a : Z) : Z := if bool_decide (a < 2 ^ 63) then a else a - 2 ^ 64.

End Go.

(** ** The scalar field of bn254 *)
Module Fr.

Definition q : Z :=
  21888242871839275222246405745257275088548364400416034343698204186575808495617.

Definition t := Z.

Definition zero : t := 0.
Definition one : t := 1.
Definition add (a b : t) : t := (a + b) mod q.
Definition sub (a b : t) : t := (a - b) mod q.
Definition mul (a b : t) : t := (a * b) mod q.
Definition neg (a : t) : t := (- a) mod q.
Definition double (a : t) : t := (a + a) mod q.
Definition square (a : t) : t := (a * a) mod q.
Definition set_uint64 (n : Z) : t := n mod q.

(** Square and multiply, on the binary digits of the exponent. *)
Fixpoint exp_pos (a : t) (e : positive) : t :=
  match e with
  | xH => a mod q
  | xO e' => square (exp_pos a e')
  | xI e' => mul a (square (exp_pos a e'))
  end.

(** [z.Exp(a, e)] for a non-negative big integer [e] *)
Definition exp (a : t) (e : Z) : t :=
  match e with
  | Zpos p => exp_pos a p
  | _ => 1 mod q
  end.

(** [z.Inverse(a)]; the inverse of 0 is 0 *)
Definition inverse (a : t) : t := exp a (q - 2).

(** [x == y] on reduced elements *)
Definition eqb (a b : t) : bool := bool_decide (a mod q = b mod q).

(** [z.BigInt(&b)]: the canonical representative *)
Definition big_int (a : t) : Z := a mod q.

(** [z.SetBytes(b)]: big-endian bytes, reduced *)
Definition set_bytes (b : list Byte.byte) : t :=
  fold_left (fun acc x => acc * 256 + Z.of_N (Byte.to_N x)) b 0 mod q.

End Fr.

Abbreviation fr := Fr.t.

(** ** Data model of the prover *)
Module Plonk.

Definition error := string.

(** [kzg.Digest] is a [bn254.G1Affine]: two base-field coordinates. *)
Record G1Affine := { X : Z; Y : Z }.
Abbreviation Digest := G1Affine.
Definition zeroDigest : Digest := {| X := 0; Y := 0 |}.

Record OpeningProof := { OpeningH : G1Affine; ClaimedValue : fr }.
Record BatchOpeningProof := { BatchH : G1Affine; ClaimedValues : list fr }.

(** A Go array [[3]T]. *)
Record arr3 (A : Type) := Arr3 { at0 : A; at1 : A; at2 : A }.
Arguments Arr3 {A}.
Arguments at0 {A}.
Arguments at1 {A}.
Arguments at2 {A}.

Record Proof := {
  LRO : arr3 Digest;
  PZ : Digest;
  H : arr3 Digest;
  BatchedProof : BatchOpeningProof;
  ZShiftedOpening : OpeningProof
}.

(** [&Proof{}] *)
Definition emptyProof : Proof :=
  {| LRO := Arr3 zeroDigest zeroDigest zeroDigest;
     PZ := zeroDigest;
     H := Arr3 zeroDigest zeroDigest zeroDigest;
     BatchedProof := {| BatchH := zeroDigest; ClaimedValues := [] |};
     ZShiftedOpening := {| OpeningH := zeroDigest; ClaimedValue := Fr.zero |} |}.

(** [fft.Domain], the fields the prover reads. [Cardinality] is a [uint64]. *)
Record Domain := {
  Cardinality : Z;
  CardinalityInv : fr;
  FrMultiplicativeGen : fr
}.

(** The G1 part of [kzg.SRS]. *)
Definition SRS := list G1Affine.

Record VerifyingKey := {
  Generator : fr;
  CosetShift : fr;
  VkS : arr3 Digest;
  KZGSRS : SRS
}.

Record ProvingKey := {
  Vk : VerifyingKey;
  Ql : list fr; Qr : list fr; Qm : list fr; Qo : list fr;
  CQk : list fr; LQk : list fr;
  Domain0 : Domain; Domain1 : Domain;
  Permutation : list Z;
  S1Canonical : list fr; S2Canonical : list fr; S3Canonical : list fr
}.

(** A term of a gate; the prover only asks for its wire. *)
Record Term := { WireID : Z }.
Record SparseR1C := { L : Term; R : Term; O : Term }.

Record SparseR1CS := {
  Public : list string;
  Secret : list string;
  Constraints : list SparseR1C
}.

Definition Witness := list fr.

Record ProverConfig := { Force : bool }.

(** *** evaluateLROSmallDomain *)

Definition lro := (list fr * list fr * list fr)%type.

Definition evaluateLROSmallDomain (spr : SparseR1CS) (pk : ProvingKey)
    (solution : list fr) : option lro :=
  let s := Go.int_of_u64 (Cardinality (Domain0 pk)) in
  l ← Go.make Fr.zero s;
  r ← Go.make Fr.zero s;
  o ← Go.make Fr.zero s;
  s0 ← Go.index solution 0;
  (* placeholders *)
  st ← Go.for_upto (Go.len (Public spr))
         (fun i '(l, r, o) =>
            v ← Go.index solution i;
            l ← Go.store l i v;
            r ← Go.store r i s0;
            o ← Go.store o i s0;
            Some (l, r, o))
         (l, r, o);
  let offset := Go.len (Public spr) in
  (* constraints *)
  st ← Go.for_upto (Go.len (Constraints spr))
         (fun i '(l, r, o) =>
            c ← Go.index (Constraints spr) i;
            vl ← Go.index solution (WireID (L c));
            l ← Go.store l (offset + i) vl;
            vr ← Go.index solution (WireID (R c));
            r ← Go.store r (offset + i) vr;
            vo ← Go.index solution (WireID (O c));
            o ← Go.store o (offset + i) vo;
            Some (l, r, o))
         st;
  let offset := offset + Go.len (Constraints spr) in
  (* offset to reach 2**n constraints *)
  Go.for_upto (s - offset)
    (fun i '(l, r, o) =>
       l ← Go.store l (offset + i) s0;
       r ← Go.store r (offset + i) s0;
       o ← Go.store o (offset + i) s0;
       Some (l, r, o))
    st.


(** *** Polynomials of the iop package *)

Inductive Basis := Canonical | Lagrange | LagrangeCoset.
Inductive Layout := Regular | BitReverse.
Record Form := { FBasis : Basis; FLayout : Layout }.

Record Polynomial := { Coefficients : list fr; PForm : Form }.

(** [WrappedPolynomial] holds a pointer [P] to a polynomial: two wrappers of
    one polynomial see each other's transforms. The model keeps the pointee in
    the record and copies it to the other wrapper where the source shares it. *)
Record WrappedPolynomial := { P : Polynomial; Shift : Z; Size : Z }.

Definition NewPolynomial (c : list fr) (f : Form) : Polynomial :=
  {| Coefficients := c; PForm := f |}.

Definition WrapMe (p : Polynomial) (shift : Z) : WrappedPolynomial :=
  {| P := p; Shift := shift; Size := Go.len (Coefficients p) |}.

(** A sum of monomials [coefficient * prod x_i^e_i] plus the constant [C]. *)
Record MultivariatePolynomial := { M : list (fr * list Z); C : fr }.

Definition zeroMultivariate : MultivariatePolynomial := {| M := []; C := Fr.zero |}.

Definition AddMonomial (m : MultivariatePolynomial) (c : fr) (e : list Z)
  : MultivariatePolynomial :=
  {| M := M m ++ [(c, e)]; C := C m |}.

Definition SetC (m : MultivariatePolynomial) (c : fr) : MultivariatePolynomial :=
  {| M := M m; C := c |}.

(** *** The log of collaborator calls *)

(** What the transcript absorbs. *)
Inductive absorbed :=
| AbsVk (vk : VerifyingKey)
| AbsPublic (w : list fr)
| AbsPoint (d : G1Affine).

Inductive event :=
| EvSolve (w : Witness)
| EvCommit (p : list fr)
| EvBind (challenge : string) (d : absorbed)
| EvChallenge (challenge : string)
| EvBuildRatio (ps : list Polynomial) (beta gamma : fr)
| EvEvaluatePolynomials (m : MultivariatePolynomial) (ps : list WrappedPolynomial)
| EvComputeQuotient (ps : list WrappedPolynomial) (m : MultivariatePolynomial)
| EvOpen (p : list fr) (point : fr)
| EvBatchOpen (ps : list (list fr)) (ds : list Digest) (point : fr).

Definition is_transcript (e : event) : bool :=
  match e with
  | EvBind _ _ | EvChallenge _ => true
  | _ => false
  end.

(** The state of the Fiat-Shamir transcript (and of the hash function it
    shares with the batch opening) is the history of what it was asked. *)
Definition transcript (log : list event) : list event := List.filter is_transcript log.

(** *** Collaborators *)

Record Collaborators := {
  (* constraint system *)
  Solve : SparseR1CS -> Witness -> ProverConfig -> list fr * option error;
  (* fr *)
  SetRandom : fr;
  (* iop *)
  ToCanonical : Polynomial -> Domain -> Polynomial;
  ToRegular : Polynomial -> Polynomial;
  ToLagrangeCoset : Polynomial -> Domain -> Polynomial;
  Evaluate : Polynomial -> fr -> fr;
  WToCanonical : WrappedPolynomial -> Domain -> WrappedPolynomial;
  WToRegular : WrappedPolynomial -> WrappedPolynomial;
  WToLagrangeCoset : WrappedPolynomial -> Domain -> WrappedPolynomial;
  WEvaluate : WrappedPolynomial -> fr -> fr;
  BuildRatioCopyConstraint :
    list Polynomial -> list Z -> fr -> fr -> Form -> Domain -> Polynomial * option error;
  EvaluatePolynomials :
    MultivariatePolynomial -> list WrappedPolynomial -> Polynomial * option error;
  ComputeQuotient :
    list WrappedPolynomial -> MultivariatePolynomial -> Domain -> Domain ->
    Polynomial * option error;
  (* fft *)
  FFTInverse : Domain -> list fr -> list fr;
  FFTBitReverse : list fr -> list fr;
  (* kzg *)
  Commit : list fr -> SRS -> Digest * option error;
  Open : list fr -> fr -> SRS -> OpeningProof * option error;
  BatchOpenSinglePoint :
    list (list fr) -> list Digest -> fr -> list event -> SRS ->
    BatchOpeningProof * option error;
  (* curve *)
  ScalarMultiplication : G1Affine -> Z -> G1Affine;
  G1Add : G1Affine -> G1Affine -> G1Affine;
  (* fiat-shamir *)
  Bind : list event -> string -> absorbed -> option error;
  ComputeChallenge : list event -> string -> list Byte.byte * option error
}.

(** *** The monad of the prover: a log, an early [return], a panic *)

Inductive res (A : Type) :=
| Val (a : A)
| Return (p : option Proof) (e : option error)
| Panic.
Arguments Val {A}.
Arguments Return {A}.
Arguments Panic {A}.

Definition Prover (A : Type) := list event -> list event * res A.

Definition ret {A} (a : A) : Prover A := fun log => (log, Val a).

Definition bind {A B} (m : Prover A) (k : A -> Prover B) : Prover B :=
  fun log =>
    match m log with
    | (log', Val a) => k a log'
    | (log', Return p e) => (log', Return p e)
    | (log', Panic) => (log', Panic)
    end.

Declare Scope prover_scope.
Delimit Scope prover_scope with prover.
Notation "x <- c1 ;; c2" := (bind c1 (fun x => c2))
  (at level 100, c1 at next level, right associativity) : prover_scope.

(** [return p, e] *)
Definition go_return {A} (p : option Proof) (e : option error) : Prover A :=
  fun log => (log, Return p e).

(** an operation that panics when it yields [None] *)
Definition try {A} (o : option A) : Prover A :=
  fun log => match o with Some a => (log, Val a) | None => (log, Panic) end.

(** a logged call of a collaborator whose answer may depend on the history *)
Definition call {A} (ev : event) (f : list event -> A) : Prover A :=
  fun log => (log ++ [ev], Val (f log)).

(** [if err != nil { return p, err }] *)
Definition check {A} (p : option Proof) (r : A * option error) : Prover A :=
  match r with
  | (_, Some e) => go_return p (Some e)
  | (a, None) => ret a
  end.

(** *** Writing the fields of the proof *)

Definition set0 {A} (a : arr3 A) (v : A) : arr3 A := Arr3 v (at1 a) (at2 a).
Definition set1 {A} (a : arr3 A) (v : A) : arr3 A := Arr3 (at0 a) v (at2 a).
Definition set2 {A} (a : arr3 A) (v : A) : arr3 A := Arr3 (at0 a) (at1 a) v.

Definition withLRO (p : Proof) (v : arr3 Digest) : Proof :=
  {| LRO := v; PZ := PZ p; H := H p;
     BatchedProof := BatchedProof p; ZShiftedOpening := ZShiftedOpening p |}.
Definition withZ (p : Proof) (v : Digest) : Proof :=
  {| LRO := LRO p; PZ := v; H := H p;
     BatchedProof := BatchedProof p; ZShiftedOpening := ZShiftedOpening p |}.
Definition withH (p : Proof) (v : arr3 Digest) : Proof :=
  {| LRO := LRO p; PZ := PZ p; H := v;
     BatchedProof := BatchedProof p; ZShiftedOpening := ZShiftedOpening p |}.
Definition withBatchedProof (p : Proof) (v : BatchOpeningProof) : Proof :=
  {| LRO := LRO p; PZ := PZ p; H := H p;
     BatchedProof := v; ZShiftedOpening := ZShiftedOpening p |}.
Definition withZShiftedOpening (p : Proof) (v : OpeningProof) : Proof :=
  {| LRO := LRO p; PZ := PZ p; H := H p;
     BatchedProof := BatchedProof p; ZShiftedOpening := v |}.

(** What [Prove] hands back: the pointer (nil is [None]) and the error, or a
    panic. *)
Inductive outcome :=
| Returned (p : option Proof) (e : option error)
| Panicked.

Section Prover.

Context (env : Collaborators).

Local Open Scope prover_scope.

(** [fs.Bind(challenge, data)] *)
Definition fsBind (challenge : string) (d : absorbed) : Prover (option error) :=
  call (EvBind challenge d) (fun log => Bind env (transcript log) challenge d).

(** [fs.ComputeChallenge(challenge)] *)
Definition fsComputeChallenge (challenge : string)
  : Prover (list Byte.byte * option error) :=
  call (EvChallenge challenge) (fun log => ComputeChallenge env (transcript log) challenge).

(** Modelled from the spec: [bindPublicData] is declared next to the verifier,
    outside the sources at hand. The transcript absorbs the verification key's
    fixed data, then the public-input vector, under the given challenge; the
    first failure is returned. *)
Definition bindPublicData (challenge : string) (vk : VerifyingKey)
    (publicInputs : list fr) : Prover (option error) :=
  e <- fsBind challenge (AbsVk vk) ;;
  match e with
  | Some err => ret (Some err)
  | None => fsBind challenge (AbsPublic publicInputs)
  end.

(** Modelled from the spec: [deriveRandomness] is declared next to the
    verifier, outside the sources at hand. The transcript absorbs the given
    commitments in order and the challenge is computed from it and read as a
    field element; the first failure is returned. *)
Fixpoint deriveRandomness (challenge : string) (points : list G1Affine)
  : Prover (fr * option error) :=
  match points with
  | p :: points' =>
      e <- fsBind challenge (AbsPoint p) ;;
      match e with
      | Some err => ret (Fr.zero, Some err)
      | None => deriveRandomness challenge points'
      end
  | [] =>
      r <- fsComputeChallenge challenge ;;
      match r with
      | (_, Some err) => ret (Fr.zero, Some err)
      | (b, None) => ret (Fr.set_bytes b, None)
      end
  end.

(** [kzg.Commit(p, srs, n)] *)
Definition kzgCommit (p : list fr) (srs : SRS) : Prover (Digest * option error) :=
  call (EvCommit p) (fun _ => Commit env p srs).

(** *** commitToLRO, commitToQuotient

    The two forked commitments and the one on the calling path are run here in
    one order: the calling path first, which returns at once when it fails,
    then the two forked ones. The interleavings are the subject of
    [Fork.step] below. *)
Definition commitToLRO (bcl bcr bco : list fr) (proof : Proof) (srs : SRS)
  : Prover (Proof * option error) :=
  r2 <- kzgCommit bco srs ;;
  let proof := withLRO proof (set2 (LRO proof) (fst r2)) in
  match snd r2 with
  | Some err2 => ret (proof, Some err2)
  | None =>
      r0 <- kzgCommit bcl srs ;;
      let proof := withLRO proof (set0 (LRO proof) (fst r0)) in
      r1 <- kzgCommit bcr srs ;;
      let proof := withLRO proof (set1 (LRO proof) (fst r1)) in
      match snd r0 with
      | Some err0 => ret (proof, Some err0)
      | None => ret (proof, snd r1)
      end
  end.

Definition commitToQuotient (h1 h2 h3 : list fr) (proof : Proof) (srs : SRS)
  : Prover (Proof * option error) :=
  r2 <- kzgCommit h3 srs ;;
  let proof := withH proof (set2 (H proof) (fst r2)) in
  match snd r2 with
  | Some err2 => ret (proof, Some err2)
  | None =>
      r0 <- kzgCommit h1 srs ;;
      let proof := withH proof (set0 (H proof) (fst r0)) in
      r1 <- kzgCommit h2 srs ;;
      let proof := withH proof (set1 (H proof) (fst r1)) in
      match snd r0 with
      | Some err0 => ret (proof, Some err0)
      | None => ret (proof, snd r1)
      end
  end.

(** *** computeLinearizedPolynomial *)
Definition computeLinearizedPolynomial
    (lZeta rZeta oZeta alpha beta gamma zeta zu : fr)
    (blindedZCanonical : list fr) (pk : ProvingKey) : option (list fr) :=
  (* first part: individual constraints *)
  let rl := Fr.mul rZeta lZeta in
  (* second part *)
  let ps1 := NewPolynomial (S1Canonical pk) {| FBasis := Canonical; FLayout := Regular |} in
  let s1 := Evaluate env ps1 zeta in
  let s1 := Fr.add (Fr.add (Fr.mul s1 beta) lZeta) gamma in
  let ps2 := NewPolynomial (S2Canonical pk) {| FBasis := Canonical; FLayout := Regular |} in
  let tmp := Evaluate env ps2 zeta in
  let tmp := Fr.add (Fr.add (Fr.mul tmp beta) rZeta) gamma in
  let s1 := Fr.mul (Fr.mul (Fr.mul s1 tmp) zu) beta in
  let uzeta := Fr.mul zeta (CosetShift (Vk pk)) in
  let uuzeta := Fr.mul uzeta (CosetShift (Vk pk)) in
  let s2 := Fr.add (Fr.add (Fr.mul beta zeta) lZeta) gamma in
  let tmp := Fr.add (Fr.add (Fr.mul beta uzeta) rZeta) gamma in
  let s2 := Fr.mul s2 tmp in
  let tmp := Fr.add (Fr.add (Fr.mul beta uuzeta) oZeta) gamma in
  let s2 := Fr.mul s2 tmp in
  let s2 := Fr.neg s2 in
  (* third part L₁(ζ)*α²*Z *)
  let one := Fr.one in
  let nbElmt := Go.int_of_u64 (Cardinality (Domain0 pk)) in
  let lagrangeZeta := Fr.sub (Fr.exp zeta nbElmt) one in
  let den := Fr.inverse (Fr.sub zeta one) in
  let lagrangeZeta :=
    Fr.mul (Fr.mul (Fr.mul (Fr.mul lagrangeZeta den) alpha) alpha)
           (CardinalityInv (Domain0 pk)) in
  let linPol := Go.copy (replicate (length blindedZCanonical) Fr.zero) blindedZCanonical in
  Go.parallelize (Go.len linPol)
    (fun i linPol =>
       x ← Go.index linPol i;
       let x := Fr.mul x s2 in
       x ← (if bool_decide (i < Go.len (S3Canonical pk)) then
              s3 ← Go.index (S3Canonical pk) i;
              let t0 := Fr.mul s3 s1 in
              Some (Fr.add x t0)
            else Some x);
       let x := Fr.mul x alpha in
       x ← (if bool_decide (i < Go.len (Qm pk)) then
              qm ← Go.index (Qm pk) i;
              let t1 := Fr.mul qm rl in
              ql ← Go.index (Ql pk) i;
              let t0 := Fr.mul ql lZeta in
              let t0 := Fr.add t0 t1 in
              let x := Fr.add x t0 in
              qr ← Go.index (Qr pk) i;
              let t0 := Fr.mul qr rZeta in
              let x := Fr.add x t0 in
              qo ← Go.index (Qo pk) i;
              cqk ← Go.index (CQk pk) i;
              let t0 := Fr.add (Fr.mul qo oZeta) cqk in
              Some (Fr.add x t0)
            else Some x);
       z ← Go.index blindedZCanonical i;
       let t0 := Fr.mul z lagrangeZeta in
       Go.store linPol i (Fr.add x t0))
    linPol.

(** The placeholder tail of the forced mode:
    [for i := len(spr.Public) + len(spr.Secret); i < len(solution); i++] *)
Definition fillSolution (spr : SparseR1CS) (solution : list fr) (r : fr)
  : option (list fr * fr) :=
  let start := Go.len (Public spr) + Go.len (Secret spr) in
  Go.for_range (Z.to_nat (Go.len solution - start)) start
    (fun i '(solution, r) =>
       solution ← Go.store solution i r;
       Some (solution, Fr.double r))
    (solution, r).

(** The folding pass over the last chunk of the quotient. *)
Definition foldH (h1 h2 foldedH : list fr) (zetaPowerm : fr) : option (list fr) :=
  Go.parallelize (Go.len foldedH)
    (fun i foldedH =>
       x ← Go.index foldedH i;
       let x := Fr.mul x zetaPowerm in
       y ← Go.index h2 i;
       let x := Fr.add x y in
       let x := Fr.mul x zetaPowerm in
       y ← Go.index h1 i;
       let x := Fr.add x y in
       Go.store foldedH i x)
    foldedH.

(** *** Prove

    [proveWithSolution] is the body of [Prove] from the query of l, r, o on,
    once the solution vector is settled; [ProveBody] is the whole body. *)
Definition proveWithSolution (spr : SparseR1CS) (pk : ProvingKey)
    (fullWitness : Witness) (solution : list fr) : Prover unit :=
  let srs := KZGSRS (Vk pk) in
  let n := Cardinality (Domain0 pk) in
  (* result *)
  let proof := emptyProof in
  (* query l, r, o in Lagrange basis, not blinded *)
  ev <- try (evaluateLROSmallDomain spr pk solution) ;;
  let evaluationLDomainSmall := fst (fst ev) in
  let evaluationRDomainSmall := snd (fst ev) in
  let evaluationODomainSmall := snd ev in
  let lagReg := {| FBasis := Lagrange; FLayout := Regular |} in
  let liop := NewPolynomial evaluationLDomainSmall lagReg in
  let riop := NewPolynomial evaluationRDomainSmall lagReg in
  let oiop := NewPolynomial evaluationODomainSmall lagReg in
  let wliop := WrapMe liop 0 in
  let wriop := WrapMe riop 0 in
  let woiop := WrapMe oiop 0 in
  let wliop := WToRegular env (WToCanonical env wliop (Domain0 pk)) in
  let wriop := WToRegular env (WToCanonical env wriop (Domain0 pk)) in
  let woiop := WToRegular env (WToCanonical env woiop (Domain0 pk)) in
  (* Commit to l, r, o *)
  c <- commitToLRO (Coefficients (P wliop)) (Coefficients (P wriop))
         (Coefficients (P woiop)) proof srs ;;
  proof <- check None c ;;
  (* derive gamma *)
  pub <- try (Go.slice fullWitness 0 (Go.len (Public spr))) ;;
  e <- bindPublicData "gamma" (Vk pk) pub ;;
  _ <- check None (tt, e) ;;
  g <- deriveRandomness "gamma" [at0 (LRO proof); at1 (LRO proof); at2 (LRO proof)] ;;
  gamma <- check None g ;;
  (* Fiat Shamir this *)
  b <- fsComputeChallenge "beta" ;;
  bbeta <- check None b ;;
  let beta := Fr.set_bytes bbeta in
  (* compute the copy constraint's ratio; wliop, wriop, woiop point to liop,
     riop, oiop, which are copied as they now stand *)
  let canReg := {| FBasis := Canonical; FLayout := Regular |} in
  let copies := [P wliop; P wriop; P woiop] in
  z <- call (EvBuildRatio copies beta gamma)
         (fun _ => BuildRatioCopyConstraint env copies (Permutation pk) beta gamma
                     canReg (Domain0 pk)) ;;
  ziop <- check (Some proof) z ;;
  (* commit to z *)
  cz <- kzgCommit (Coefficients ziop) srs ;;
  let proof := withZ proof (fst cz) in
  _ <- check (Some proof) cz ;;
  (* derive alpha *)
  a <- deriveRandomness "alpha" [PZ proof] ;;
  alpha <- check (Some proof) a ;;
  (* compute qk in canonical basis, completed with the public inputs *)
  qkCompletedCanonical <- try (Go.make Fr.zero n) ;;
  pub <- try (Go.slice fullWitness 0 (Go.len (Public spr))) ;;
  let qkCompletedCanonical := Go.copy qkCompletedCanonical pub in
  qkTail <- try (Go.slice qkCompletedCanonical (Go.len (Public spr))
                   (Go.len qkCompletedCanonical)) ;;
  lqkTail <- try (Go.slice (LQk pk) (Go.len (Public spr)) (Go.len (LQk pk))) ;;
  let qkCompletedCanonical :=
    take (Z.to_nat (Go.len (Public spr))) qkCompletedCanonical
      ++ Go.copy qkTail lqkTail in
  let qkCompletedCanonical := FFTInverse env (Domain0 pk) qkCompletedCanonical in
  let qkCompletedCanonical := FFTBitReverse env qkCompletedCanonical in
  (* evaluate qlL+qrR+qmLR+qoO+qK *)
  let one := Fr.one in
  let constraintsCapture := zeroMultivariate in
  let constraintsCapture := AddMonomial constraintsCapture one [1; 0; 0; 0; 0; 1; 0; 0] in
  let constraintsCapture := AddMonomial constraintsCapture one [0; 1; 0; 0; 0; 0; 1; 0] in
  let constraintsCapture := AddMonomial constraintsCapture one [0; 0; 1; 0; 0; 1; 1; 0] in
  let constraintsCapture := AddMonomial constraintsCapture one [0; 0; 0; 1; 0; 0; 0; 1] in
  let constraintsCapture := AddMonomial constraintsCapture one [0; 0; 0; 0; 1; 0; 0; 0] in
  let wliop := WToLagrangeCoset env wliop (Domain1 pk) in
  let wriop := WToLagrangeCoset env wriop (Domain1 pk) in
  let woiop := WToLagrangeCoset env woiop (Domain1 pk) in
  let wqliop := WrapMe (NewPolynomial (Ql pk) canReg) 0 in
  let wqriop := WrapMe (NewPolynomial (Qr pk) canReg) 0 in
  let wqmiop := WrapMe (NewPolynomial (Qm pk) canReg) 0 in
  let wqoiop := WrapMe (NewPolynomial (Qo pk) canReg) 0 in
  let wqkiop := WrapMe (NewPolynomial qkCompletedCanonical canReg) 0 in
  let wqliop := WToLagrangeCoset env wqliop (Domain1 pk) in
  let wqriop := WToLagrangeCoset env wqriop (Domain1 pk) in
  let wqmiop := WToLagrangeCoset env wqmiop (Domain1 pk) in
  let wqoiop := WToLagrangeCoset env wqoiop (Domain1 pk) in
  let wqkiop := WToLagrangeCoset env wqkiop (Domain1 pk) in
  let operands := [wqliop; wqriop; wqmiop; wqoiop; wqkiop; wliop; wriop; woiop] in
  x <- call (EvEvaluatePolynomials constraintsCapture operands)
         (fun _ => EvaluatePolynomials env constraintsCapture operands) ;;
  constraints <- check (Some proof) x ;;
  (* constraints ordering *)
  let ubeta := Fr.mul beta (FrMultiplicativeGen (Domain0 pk)) in
  let uubeta := Fr.mul ubeta (FrMultiplicativeGen (Domain0 pk)) in
  let sub0 := SetC (AddMonomial (AddMonomial zeroMultivariate one [1; 0]) beta [0; 1]) gamma in
  let sub1 := SetC (AddMonomial (AddMonomial zeroMultivariate one [1; 0]) ubeta [0; 1]) gamma in
  let sub2 := SetC (AddMonomial (AddMonomial zeroMultivariate one [1; 0]) uubeta [0; 1]) gamma in
  (* ql+β*x+γ *)
  id <- try (Go.make Fr.zero (Cardinality (Domain1 pk))) ;;
  id <- try (Go.store id 1 Fr.one) ;;
  let widiop := WrapMe (NewPolynomial id canReg) 0 in
  let widiop := WToLagrangeCoset env widiop (Domain1 pk) in
  x <- call (EvEvaluatePolynomials sub0 [wliop; widiop])
         (fun _ => EvaluatePolynomials env sub0 [wliop; widiop]) ;;
  a <- check (Some proof) x ;;
  let wa := WrapMe a 0 in
  (* qr+β*ν*x+γ *)
  x <- call (EvEvaluatePolynomials sub1 [wriop; widiop])
         (fun _ => EvaluatePolynomials env sub1 [wriop; widiop]) ;;
  b <- check (Some proof) x ;;
  let wb := WrapMe b 0 in
  (* qo+β*ν²*x+γ *)
  x <- call (EvEvaluatePolynomials sub2 [woiop; widiop])
         (fun _ => EvaluatePolynomials env sub2 [woiop; widiop]) ;;
  c <- check (Some proof) x ;;
  let wc := WrapMe c 0 in
  (* ql+β*σ₁+γ *)
  let ws1 := WrapMe (NewPolynomial (S1Canonical pk) canReg) 0 in
  let ws1 := WToLagrangeCoset env (WToRegular env (WToCanonical env ws1 (Domain0 pk)))
               (Domain1 pk) in
  x <- call (EvEvaluatePolynomials sub0 [wliop; ws1])
         (fun _ => EvaluatePolynomials env sub0 [wliop; ws1]) ;;
  u <- check (Some proof) x ;;
  let wu := WrapMe u 0 in
  (* qr+β*σ₂+γ *)
  let ws2 := WrapMe (NewPolynomial (S2Canonical pk) canReg) 0 in
  let ws2 := WToLagrangeCoset env (WToRegular env (WToCanonical env ws2 (Domain0 pk)))
               (Domain1 pk) in
  x <- call (EvEvaluatePolynomials sub0 [wriop; ws2])
         (fun _ => EvaluatePolynomials env sub0 [wriop; ws2]) ;;
  v <- check (Some proof) x ;;
  let wv := WrapMe v 0 in
  (* qo+β*σ₃+γ *)
  let ws3 := WrapMe (NewPolynomial (S3Canonical pk) canReg) 0 in
  let ws3 := WToLagrangeCoset env (WToRegular env (WToCanonical env ws3 (Domain0 pk)))
               (Domain1 pk) in
  x <- call (EvEvaluatePolynomials sub0 [woiop; ws3])
         (fun _ => EvaluatePolynomials env sub0 [woiop; ws3]) ;;
  w <- check (Some proof) x ;;
  let ww := WrapMe w 0 in
  (* Z(ωX)(..)(..)(..) - Z(..)(..)(..) *)
  let wziop := WrapMe ziop 0 in
  let wsziop := WrapMe ziop 1 in
  let wsziop := WToLagrangeCoset env (WToRegular env (WToCanonical env wsziop (Domain0 pk)))
                  (Domain1 pk) in
  (* wziop points to the same ziop *)
  let wziop := {| P := P wsziop; Shift := Shift wziop; Size := Size wziop |} in
  let minusOne := Fr.neg one in
  let orderingCapture := AddMonomial zeroMultivariate one [1; 1; 1; 1; 0; 0; 0; 0] in
  let orderingCapture := AddMonomial orderingCapture minusOne [0; 0; 0; 0; 1; 1; 1; 1] in
  let operands := [wsziop; wu; wv; ww; wziop; wa; wb; wc] in
  x <- call (EvEvaluatePolynomials orderingCapture operands)
         (fun _ => EvaluatePolynomials env orderingCapture operands) ;;
  ordering <- check (Some proof) x ;;
  (* L₀(z-1) *)
  lone <- try (Go.make Fr.zero n) ;;
  lone <- try (Go.store lone 0 Fr.one) ;;
  let loneiop := NewPolynomial lone lagReg in
  let loneiop := ToLagrangeCoset env (ToRegular env (ToCanonical env loneiop (Domain0 pk)))
                   (Domain1 pk) in
  let wloneiop := WrapMe loneiop 0 in
  let startsAtOneCapture := AddMonomial zeroMultivariate one [1; 1] in
  let startsAtOneCapture := AddMonomial startsAtOneCapture minusOne [0; 1] in
  x <- call (EvEvaluatePolynomials startsAtOneCapture [wziop; wloneiop])
         (fun _ => EvaluatePolynomials env startsAtOneCapture [wziop; wloneiop]) ;;
  startsAtOne <- check (Some proof) x ;;
  (* bundle everything up using α *)
  let alphaSquared := Fr.square alpha in
  let plonkCapture := AddMonomial zeroMultivariate one [1; 0; 0] in
  let plonkCapture := AddMonomial plonkCapture alpha [0; 1; 0] in
  let plonkCapture := AddMonomial plonkCapture alphaSquared [0; 0; 1] in
  let wconstraints := WrapMe constraints 0 in
  let wordering := WrapMe ordering 0 in
  let wstartsAtOne := WrapMe startsAtOne 0 in
  let operands := [wconstraints; wordering; wstartsAtOne] in
  x <- call (EvComputeQuotient operands plonkCapture)
         (fun _ => ComputeQuotient env operands plonkCapture (Domain0 pk) (Domain1 pk)) ;;
  h <- check (Some proof) x ;;
  (* compute kzg commitments of h1, h2 and h3 *)
  let m := Go.u64_add n 2 in
  h1 <- try (Go.slice (Coefficients h) 0 m) ;;
  h2 <- try (Go.slice (Coefficients h) m (Go.u64_mul 2 m)) ;;
  h3 <- try (Go.slice (Coefficients h) (Go.u64_mul 2 m) (Go.u64_mul 3 m)) ;;
  c <- commitToQuotient h1 h2 h3 proof srs ;;
  proof <- check None c ;;
  (* derive zeta *)
  zt <- deriveRandomness "zeta" [at0 (H proof); at1 (H proof); at2 (H proof)] ;;
  zeta <- check None zt ;;
  (* compute evaluations of l, r, o, z at zeta *)
  let wliop := WToRegular env (WToCanonical env wliop (Domain1 pk)) in
  let wriop := WToRegular env (WToCanonical env wriop (Domain1 pk)) in
  let woiop := WToRegular env (WToCanonical env woiop (Domain1 pk)) in
  let blzeta := WEvaluate env wliop zeta in
  let brzeta := WEvaluate env wriop zeta in
  let bozeta := WEvaluate env woiop zeta in
  (* open Z at zeta*z *)
  let wziop := WToRegular env (WToCanonical env wziop (Domain1 pk)) in
  let zetaShifted := Fr.mul zeta (Generator (Vk pk)) in
  zc <- try (Go.slice (Coefficients (P wziop)) 0 n) ;;
  op <- call (EvOpen zc zetaShifted) (fun _ => Open env zc zetaShifted srs) ;;
  let proof := withZShiftedOpening proof (fst op) in
  _ <- check None op ;;
  (* z evaluated at u*zeta *)
  let bzuzeta := ClaimedValue (ZShiftedOpening proof) in
  (* compute the linearization polynomial r at zeta *)
  blindedZ <- try (Go.slice (Coefficients (P wziop)) 0 m) ;;
  linearizedPolynomialCanonical <-
    try (computeLinearizedPolynomial blzeta brzeta bozeta alpha beta gamma zeta
           bzuzeta blindedZ pk) ;;
  cl <- kzgCommit linearizedPolynomialCanonical srs ;;
  let linearizedPolynomialDigest := fst cl in
  let errLPoly := snd cl in
  (* foldedHDigest = Comm(h1) + ζᵐ⁺²*Comm(h2) + ζ²⁽ᵐ⁺²⁾*Comm(h3) *)
  let bSize := m in
  let zetaPowerm := Fr.exp zeta bSize in
  let bZetaPowerm := Fr.big_int zetaPowerm in
  let foldedHDigest := at2 (H proof) in
  let foldedHDigest := ScalarMultiplication env foldedHDigest bZetaPowerm in
  let foldedHDigest := G1Add env foldedHDigest (at1 (H proof)) in
  let foldedHDigest := ScalarMultiplication env foldedHDigest bZetaPowerm in
  let foldedHDigest := G1Add env foldedHDigest (at0 (H proof)) in
  (* foldedH = h1 + ζ*h2 + ζ²*h3 *)
  foldedH <- try (Go.slice (Coefficients h) (Go.u64_mul 2 m) (Go.u64_mul 3 m)) ;;
  h2 <- try (Go.slice (Coefficients h) m (Go.u64_mul 2 m)) ;;
  h1 <- try (Go.slice (Coefficients h) 0 m) ;;
  foldedH <- try (foldH h1 h2 foldedH zetaPowerm) ;;
  _ <- check None (tt, errLPoly) ;;
  (* Batch open the first list of polynomials *)
  pl <- try (Go.slice (Coefficients (P wliop)) 0 (Size wliop)) ;;
  pr <- try (Go.slice (Coefficients (P wriop)) 0 (Size wriop)) ;;
  po <- try (Go.slice (Coefficients (P woiop)) 0 (Size woiop)) ;;
  let polys := [foldedH; linearizedPolynomialCanonical; pl; pr; po;
                S1Canonical pk; S2Canonical pk] in
  let digests := [foldedHDigest; linearizedPolynomialDigest;
                  at0 (LRO proof); at1 (LRO proof); at2 (LRO proof);
                  at0 (VkS (Vk pk)); at1 (VkS (Vk pk))] in
  bp <- call (EvBatchOpen polys digests zeta)
          (fun log => BatchOpenSinglePoint env polys digests zeta (transcript log) srs) ;;
  let proof := withBatchedProof proof (fst bp) in
  _ <- check None bp ;;
  go_return (Some proof) None.

Definition ProveBody (spr : SparseR1CS) (pk : ProvingKey) (fullWitness : Witness)
    (opt : ProverConfig) : Prover unit :=
  (* compute the constraint system solution *)
  r <- call (EvSolve fullWitness) (fun _ => Solve env spr fullWitness opt) ;;
  solution <-
    match r with
    | (solution, Some err) =>
        if negb (Force opt) then go_return None (Some err)
        else (* we need to fill solution with random values *)
          st <- try (fillSolution spr solution (SetRandom env)) ;;
          ret (fst st)
    | (solution, None) => ret solution
    end ;;
  proveWithSolution spr pk fullWitness solution.

Definition to_outcome (r : list event * res unit) : list event * outcome :=
  match r with
  | (log, Return p e) => (log, Returned p e)
  | (log, _) => (log, Panicked)
  end.

Definition Prove (spr : SparseR1CS) (pk : ProvingKey) (fullWitness : Witness)
    (opt : ProverConfig) : list event * outcome :=
  to_outcome (ProveBody spr pk fullWitness opt []).

End Prover.

End Plonk.

(** ** Statements about the prover *)
Module PlonkSpec.
Import Plonk.

(** Row [k] of the three columns holds [vl], [vr], [vo]. *)
Definition row (l r o : list fr) (k : Z) (vl vr vo : fr) : Prop :=
  Go.index l k = Some vl /\ Go.index r k = Some vr /\ Go.index o k = Some vo.

(** What [evaluateLROSmallDomain] returns, row by row. *)
Definition lro_rows (spr : SparseR1CS) (pk : ProvingKey) (solution : list fr)
    (l r o : list fr) : Prop :=
  let s := Go.int_of_u64 (Cardinality (Domain0 pk)) in
  let p := Go.len (Public spr) in
  let g := Go.len (Constraints spr) in
  Go.len l = s /\ Go.len r = s /\ Go.len o = s /\
  exists s0, Go.index solution 0 = Some s0 /\
    (forall i, 0 <= i < p ->
       exists v, Go.index solution i = Some v /\ row l r o i v s0 s0) /\
    (forall j c, Go.index (Constraints spr) j = Some c ->
       exists vl vr vo,
         Go.index solution (WireID (L c)) = Some vl /\
         Go.index solution (WireID (R c)) = Some vr /\
         Go.index solution (WireID (O c)) = Some vo /\
         row l r o (p + j) vl vr vo) /\
    (forall k, p + g <= k < s -> row l r o k s0 s0 s0).

(** The inputs on which [evaluateLROSmallDomain] does not panic: the rows fit
    in the domain and every index into the solution is in range. *)
Definition lro_inputs (spr : SparseR1CS) (pk : ProvingKey) (solution : list fr) : Prop :=
  0 <= Cardinality (Domain0 pk) < 2 ^ 63 /\
  Go.len (Public spr) + Go.len (Constraints spr) <= Cardinality (Domain0 pk) /\
  0 < Go.len solution /\
  Go.len (Public spr) <= Go.len solution /\
  Forall (fun c => 0 <= WireID (L c) < Go.len solution /\
                   0 <= WireID (R c) < Go.len solution /\
                   0 <= WireID (O c) < Go.len solution) (Constraints spr).

(** What the forced mode leaves in the solution [sol'], [sol] being what the
    solver left and [seed] the random element: the inputs are untouched, and
    the position [k] of the tail holds the seed doubled [k] times. *)
Definition placeholder_tail (spr : SparseR1CS) (sol : list fr) (seed : fr)
    (sol' : list fr) : Prop :=
  let start := Go.len (Public spr) + Go.len (Secret spr) in
  Go.len sol' = Go.len sol /\
  (forall i, 0 <= i < start -> Go.index sol' i = Go.index sol i) /\
  (forall k, 0 <= k -> start + k < Go.len sol ->
     exists v, Go.index sol' (start + k) = Some v /\
               v mod Fr.q = (seed * 2 ^ k) mod Fr.q).

(** The placeholders differ from one position of the tail to the other. *)
Definition distinct_tail (spr : SparseR1CS) (sol' : list fr) : Prop :=
  let start := Go.len (Public spr) + Go.len (Secret spr) in
  forall j k, 0 <= j < k -> start + k < Go.len sol' ->
    Go.index sol' (start + j) <> Go.index sol' (start + k).

(** [a] has an inverse in the field. *)
Definition invertible (a : fr) : Prop := exists b, (a * b) mod Fr.q = 1.

(** The three columns keep the length they were made with. *)
Definition lens (s : Z) (st : lro) : Prop :=
  Go.len st.1.1 = s /\ Go.len st.1.2 = s /\ Go.len st.2 = s.

(** Cell [i] of a slice, 0 beyond its end. *)
Definition cell (l : list fr) (i : Z) : Z := default 0 (Go.index l i).

(** The selectors are long enough for the gate part of the linearized
    polynomial: wherever [Qm] and Z both have a coefficient, so have [Ql],
    [Qr], [Qo] and [CQk]. *)
Definition gate_sizes (pk : ProvingKey) (blindedZ : list fr) : Prop :=
  let k := Z.min (Go.len blindedZ) (Go.len (Qm pk)) in
  k <= Go.len (Ql pk) /\ k <= Go.len (Qr pk) /\ k <= Go.len (Qo pk) /\
  k <= Go.len (CQk pk).

(** Coefficient [i] of the linearized polynomial, over the integers: [z] is
    coefficient [i] of Z. *)
Definition linearized_coefficient (env : Collaborators)
    (l r o alpha beta gamma zeta zu : fr) (pk : ProvingKey) (i : Z) (z : fr) : Z :=
  let canReg := {| FBasis := Canonical; FLayout := Regular |} in
  let u := CosetShift (Vk pk) in
  let s1 := (Evaluate env (NewPolynomial (S1Canonical pk) canReg) zeta * beta + l + gamma)
            * (Evaluate env (NewPolynomial (S2Canonical pk) canReg) zeta * beta + r + gamma)
            * zu * beta in
  let s2 := (beta * zeta + l + gamma) * (beta * (zeta * u) + r + gamma)
            * (beta * (zeta * u * u) + o + gamma) in
  let lagrange :=
    (Fr.exp zeta (Cardinality (Domain0 pk)) - 1) * Fr.inverse (Fr.sub zeta Fr.one)
    * alpha * alpha * CardinalityInv (Domain0 pk) in
  let gate :=
    if bool_decide (i < Go.len (Qm pk))
    then cell (Qm pk) i * (r * l) + cell (Ql pk) i * l + cell (Qr pk) i * r
         + cell (Qo pk) i * o + cell (CQk pk) i
    else 0 in
  alpha * (cell (S3Canonical pk) i * s1 - z * s2) + gate + z * lagrange.

(** The identity of the gates, [qL L + qR R + qM L R + qO O + qK], over the
    operands qL, qR, qM, qO, qK, L, R, O. *)
Definition gate_identity : MultivariatePolynomial :=
  {| M := [(Fr.one, [1; 0; 0; 0; 0; 1; 0; 0]); (Fr.one, [0; 1; 0; 0; 0; 0; 1; 0]);
           (Fr.one, [0; 0; 1; 0; 0; 1; 1; 0]); (Fr.one, [0; 0; 0; 1; 0; 0; 0; 1]);
           (Fr.one, [0; 0; 0; 0; 1; 0; 0; 0])];
     C := Fr.zero |}.

(** [x + c y + gamma] over the operands x, y. *)
Definition shifted_identity (c gamma : fr) : MultivariatePolynomial :=
  {| M := [(Fr.one, [1; 0]); (c, [0; 1])]; C := gamma |}.

(** [z' u v w - z a b c] over the operands z', u, v, w, z, a, b, c. *)
Definition ordering_identity : MultivariatePolynomial :=
  {| M := [(Fr.one, [1; 1; 1; 1; 0; 0; 0; 0]);
           (Fr.neg Fr.one, [0; 0; 0; 0; 1; 1; 1; 1])];
     C := Fr.zero |}.

(** [z l - l] over the operands z, l. *)
Definition starts_at_one_identity : MultivariatePolynomial :=
  {| M := [(Fr.one, [1; 1]); (Fr.neg Fr.one, [0; 1])]; C := Fr.zero |}.

(** [x + alpha y + alpha^2 z] over the operands x, y, z. *)
Definition bundle_identity (alpha : fr) : MultivariatePolynomial :=
  {| M := [(Fr.one, [1; 0; 0]); (alpha, [0; 1; 0]); (Fr.square alpha, [0; 0; 1])];
     C := Fr.zero |}.

(** The values of qK on the small domain, completed with the public inputs:
    the witness on the rows of the public inputs, [LQk] on the others, 0
    where [LQk] ends. *)
Definition completed_qk (spr : SparseR1CS) (pk : ProvingKey) (w : Witness)
    (qk : list fr) : Prop :=
  Go.len qk = Cardinality (Domain0 pk) /\
  (forall i, 0 <= i < Go.len (Public spr) -> Go.index qk i = Go.index w i) /\
  (forall i, Go.len (Public spr) <= i < Cardinality (Domain0 pk) ->
     Go.index qk i = Some (cell (LQk pk) i)).

(** [v] has [n] entries, 1 at [i] and 0 elsewhere. *)
Definition unit_vector (n i : Z) (v : list fr) : Prop :=
  Go.len v = n /\
  forall j, 0 <= j < n ->
    Go.index v j = Some (if bool_decide (j = i) then Fr.one else Fr.zero).

End PlonkSpec.

(** ** Statements about a run of the prover *)
Module RunSpec.
Import Plonk.

(** The kind of a logged call. *)
Inductive tag :=
| TSolve | TCommit | TBind | TChallenge | TBuildRatio | TEvaluatePolynomials
| TComputeQuotient | TOpen | TBatchOpen.

Definition tag_of (e : event) : tag :=
  match e with
  | EvSolve _ => TSolve
  | EvCommit _ => TCommit
  | EvBind _ _ => TBind
  | EvChallenge _ => TChallenge
  | EvBuildRatio _ _ _ => TBuildRatio
  | EvEvaluatePolynomials _ _ => TEvaluatePolynomials
  | EvComputeQuotient _ _ => TComputeQuotient
  | EvOpen _ _ => TOpen
  | EvBatchOpen _ _ _ => TBatchOpen
  end.

(** The calls of a complete run, in order. *)
Definition schedule : list tag :=
  [TSolve; TCommit; TCommit; TCommit;
   TBind; TBind; TBind; TBind; TBind; TChallenge; TChallenge;
   TBuildRatio; TCommit; TBind; TChallenge;
   TEvaluatePolynomials; TEvaluatePolynomials; TEvaluatePolynomials;
   TEvaluatePolynomials; TEvaluatePolynomials; TEvaluatePolynomials;
   TEvaluatePolynomials; TEvaluatePolynomials; TEvaluatePolynomials;
   TComputeQuotient; TCommit; TCommit; TCommit;
   TBind; TBind; TBind; TChallenge;
   TOpen; TCommit; TBatchOpen].

(** What the transcript is asked in a complete run that ends with [proof],
    [pub] being the public part of the witness. *)
Definition challenge_schedule (pk : ProvingKey) (pub : list fr) (proof : Proof)
  : list event :=
  [EvBind "gamma" (AbsVk (Vk pk));
   EvBind "gamma" (AbsPublic pub);
   EvBind "gamma" (AbsPoint (at0 (LRO proof)));
   EvBind "gamma" (AbsPoint (at1 (LRO proof)));
   EvBind "gamma" (AbsPoint (at2 (LRO proof)));
   EvChallenge "gamma";
   EvChallenge "beta";
   EvBind "alpha" (AbsPoint (PZ proof));
   EvChallenge "alpha";
   EvBind "zeta" (AbsPoint (at0 (H proof)));
   EvBind "zeta" (AbsPoint (at1 (H proof)));
   EvBind "zeta" (AbsPoint (at2 (H proof)));
   EvChallenge "zeta"].

Section Run.

Context (env : Collaborators).

(** The field element a challenge of the log was read as: the answer of the
    transcript to the first [EvChallenge label], given what it was asked
    before. [pre] is the part of the log already passed. *)
Fixpoint derived_from (pre log : list event) (label : string) : option fr :=
  match log with
  | [] => None
  | ev :: rest =>
      match ev with
      | EvChallenge l =>
          if String.eqb l label
          then Some (Fr.set_bytes (fst (ComputeChallenge env (transcript pre) label)))
          else derived_from (pre ++ [ev]) rest label
      | _ => derived_from (pre ++ [ev]) rest label
      end
  end.

Definition derived (log : list event) (label : string) : option fr :=
  derived_from [] log label.

(** [ev] was logged after a commitment (by [kzg.Commit]) to some polynomial
    whose digest is [d]. *)
Definition committed_before (srs : SRS) (log : list event) (d : Digest) (ev : event)
  : Prop :=
  exists pre post p,
    log = pre ++ ev :: post /\ In (EvCommit p) pre /\ fst (Commit env p srs) = d.

(** Every point the transcript absorbs is the digest of a polynomial that
    [kzg.Commit] was called on earlier in the run; [seen] are the digests of
    the part of the log already passed. *)
Fixpoint absorbed_committed (srs : SRS) (seen : list Digest) (log : list event) : Prop :=
  match log with
  | [] => True
  | EvCommit p :: rest => absorbed_committed srs (fst (Commit env p srs) :: seen) rest
  | EvBind _ (AbsPoint d) :: rest => In d seen /\ absorbed_committed srs seen rest
  | _ :: rest => absorbed_committed srs seen rest
  end.

(** The polynomials committed to, in the order of the log. *)
Definition commits (log : list event) : list (list fr) :=
  omap (fun ev => match ev with EvCommit p => Some p | _ => None end) log.

Definition is_open (e : event) : bool :=
  match e with EvOpen _ _ => true | _ => false end.

Definition is_batch_open (e : event) : bool :=
  match e with EvBatchOpen _ _ _ => true | _ => false end.

(** The digest folded as the source does it, by Horner's rule, [zp] being
    the power of zeta. *)
Definition horner_digest (h : arr3 Digest) (zp : fr) : Digest :=
  G1Add env
    (ScalarMultiplication env
       (G1Add env (ScalarMultiplication env (at2 h) (Fr.big_int zp)) (at1 h))
       (Fr.big_int zp))
    (at0 h).

(** The digest folded as the specification writes it:
    [h1 + zeta^m * h2 + zeta^(2m) * h3]. *)
Definition folded_digest (h : arr3 Digest) (zeta : fr) (m : Z) : Digest :=
  G1Add env (at0 h)
    (G1Add env
       (ScalarMultiplication env (at1 h) (Fr.big_int (Fr.exp zeta m)))
       (ScalarMultiplication env (at2 h) (Fr.big_int (Fr.exp zeta (2 * m))))).

(** The coefficients folded as the specification writes it. *)
Definition folded_coefficients (h1 h2 h3 : list fr) (zeta : fr) (m : Z)
    (folded : list fr) : Prop :=
  Go.len folded = m /\
  forall i, 0 <= i < m ->
    exists a b c,
      Go.index h1 i = Some a /\ Go.index h2 i = Some b /\ Go.index h3 i = Some c /\
      Go.index folded i
      = Some (Fr.add a (Fr.add (Fr.mul (Fr.exp zeta m) b)
                               (Fr.mul (Fr.exp zeta (2 * m)) c))).

(** The laws of G1 that the folding of digests relies on: the points form a
    commutative group on which the integers act through their class
    modulo q. *)
Record G1Module : Prop := {
  g1_add_comm : forall a b, G1Add env a b = G1Add env b a;
  g1_smul_add : forall a b k,
    ScalarMultiplication env (G1Add env a b) k
    = G1Add env (ScalarMultiplication env a k) (ScalarMultiplication env b k);
  g1_smul_smul : forall a j k,
    ScalarMultiplication env (ScalarMultiplication env a j) k
    = ScalarMultiplication env a ((j * k) mod Fr.q)
}.

(** The coefficients of Z as the prover holds them when it opens Z: [ziop]
    is wrapped twice, taken to the coset of the large domain through the
    shifted wrapper, and brought back to canonical form on the large
    domain. *)
Definition held_Z (pk : ProvingKey) (ziop : Polynomial) : list fr :=
  let wsziop := WToLagrangeCoset env
                  (WToRegular env (WToCanonical env (WrapMe ziop 1) (Domain0 pk)))
                  (Domain1 pk) in
  let wziop := {| P := P wsziop; Shift := 0; Size := Go.len (Coefficients ziop) |} in
  Coefficients (P (WToRegular env (WToCanonical env wziop (Domain1 pk)))).

(** A wire polynomial as the prover holds it when it evaluates and opens it:
    taken to the coset of the large domain for the quotient and brought back
    to canonical form on the large domain. *)
Definition held_wire (pk : ProvingKey) (w : WrappedPolynomial) : WrappedPolynomial :=
  WToRegular env (WToCanonical env (WToLagrangeCoset env w (Domain1 pk)) (Domain1 pk)).

(** The error a logged call came back with, [pre] being the log before it. *)
Definition event_error (spr : SparseR1CS) (pk : ProvingKey) (opt : ProverConfig)
    (pre : list event) (ev : event) : option error :=
  match ev with
  | EvSolve w => snd (Solve env spr w opt)
  | EvCommit p => snd (Commit env p (KZGSRS (Vk pk)))
  | EvBind c d => Bind env (transcript pre) c d
  | EvChallenge c => snd (ComputeChallenge env (transcript pre) c)
  | EvBuildRatio ps beta gamma =>
      snd (BuildRatioCopyConstraint env ps (Permutation pk) beta gamma
             {| FBasis := Canonical; FLayout := Regular |} (Domain0 pk))
  | EvEvaluatePolynomials m ps => snd (EvaluatePolynomials env m ps)
  | EvComputeQuotient ps m => snd (ComputeQuotient env ps m (Domain0 pk) (Domain1 pk))
  | EvOpen p z => snd (Open env p z (KZGSRS (Vk pk)))
  | EvBatchOpen ps ds z =>
      snd (BatchOpenSinglePoint env ps ds z (transcript pre) (KZGSRS (Vk pk)))
  end.

(** The one call after whose error [Prove] goes on: the solver, when the
    prover is forced ([if !opt.Force { return nil, err } else { ... }]). *)
Definition overridden (opt : ProverConfig) (ev : event) : bool :=
  match ev with
  | EvSolve _ => Force opt
  | _ => false
  end.

(** The error with which a logged call stops the run: the error it came back
    with, unless the call is overridden. *)
Definition stopping_error (spr : SparseR1CS) (pk : ProvingKey) (opt : ProverConfig)
    (pre : list event) (ev : event) : option error :=
  if overridden opt ev then None else event_error spr pk opt pre ev.

(** The error of the first call of the log that stops the run. *)
Fixpoint first_error (spr : SparseR1CS) (pk : ProvingKey) (opt : ProverConfig)
    (pre log : list event) : option error :=
  match log with
  | [] => None
  | ev :: rest =>
      match stopping_error spr pk opt pre ev with
      | Some e => Some e
      | None => first_error spr pk opt (pre ++ [ev]) rest
      end
  end.

(** No call of [log], made after the calls [pre], came back with an error,
    an overridden call apart. *)
Definition no_failure (spr : SparseR1CS) (pk : ProvingKey) (opt : ProverConfig)
    (pre log : list event) : Prop :=
  forall l1 ev l2, log = l1 ++ ev :: l2 ->
    event_error spr pk opt (pre ++ l1) ev = None \/ overridden opt ev = true.


End Run.

(** The calls after which a failure hands back the proof object instead of
    nil: from the copy-constraint ratio to the quotient. *)
Definition keeps_pointer (log : list event) : bool :=
  match rev log with
  | EvBuildRatio _ _ _ :: _ => true
  | EvCommit _ :: EvBuildRatio _ _ _ :: _ => true
  | EvBind c _ :: _ => String.eqb c "alpha"
  | EvChallenge c :: _ => String.eqb c "alpha"
  | EvEvaluatePolynomials _ _ :: _ => true
  | EvComputeQuotient _ _ :: _ => true
  | _ => false
  end.

(** A proof object that holds at most the wire commitments and Z. *)
Definition partial (p : Proof) : Prop :=
  H p = H emptyProof /\ BatchedProof p = BatchedProof emptyProof /\
  ZShiftedOpening p = ZShiftedOpening emptyProof.

(** What a run leaves behind, whatever its outcome, [pre] being the calls
    made before [rest]: the calls follow the schedule, each made once; an
    error returned is the error of the first call that stopped the run, and
    comes with nil or with a partial proof according to the last call; a run
    without error made every call of the schedule and none stopped it. *)
Definition run_ok (env : Collaborators) (spr : SparseR1CS) (pk : ProvingKey)
    (opt : ProverConfig) (pre rest : list event) (out : outcome) : Prop :=
  map tag_of (pre ++ rest) `prefix_of` schedule /\
  match out with
  | Returned p (Some e) =>
      first_error env spr pk opt pre rest = Some e /\
      if keeps_pointer (pre ++ rest) then exists pr, p = Some pr /\ partial pr
      else p = None
  | Returned p None =>
      first_error env spr pk opt pre rest = None /\
      p <> None /\ map tag_of (pre ++ rest) = schedule
  | Panicked => True
  end.

End RunSpec.

(** ** The LZSS compressor *)
Module Lzss.

Abbreviation byte := Byte.byte.

Inductive error :=
| ErrInputSize (max : Z)     (* "input size must be <= %d" *)
| ErrNoBackref (i : Z)       (* "could not find a backref at index %d" *)
| ErrWriter (msg : string).  (* an error of the bit writer *)

Inductive panic :=
| CannotEncodeSymbol         (* panic("cannot encode symbol") *)
| OutOfRange                 (* an index or a slice out of range *)
| NilDereference             (* a method called through a nil pointer *)
| DivideByZero.

(** The outcome of a call: a value, a returned error, a panic, or a loop that
    needs more rounds than the model was given. *)
Inductive result (A : Type) :=
| Val (a : A)
| Fail (e : error)
| Panic (p : panic)
| OutOfFuel.
Arguments Val {A}.
Arguments Fail {A}.
Arguments Panic {A}.
Arguments OutOfFuel {A}.

Definition rbind {A B} (r : result A) (k : A -> result B) : result B :=
  match r with
  | Val a => k a
  | Fail e => Fail e
  | Panic p => Panic p
  | OutOfFuel => OutOfFuel
  end.

Declare Scope lzss_scope.
Delimit Scope lzss_scope with lzss.
Notation "x <~ c1 ;; c2" := (rbind c1 (fun x => c2))
  (at level 100, c1 at next level, right associativity) : lzss_scope.

(** an index or slice operation, which panics out of range *)
Definition inrange {A} (o : option A) : result A :=
  match o with Some a => Val a | None => Panic OutOfRange end.

Record backrefType := {
  delimiter : byte;
  nbBitsAddress : Z;
  nbBitsLength : Z;
  nbBitsBackRef : Z;
  nbBytesBackRef : Z;
  maxAddress : Z;
  maxLength : Z;
  dictOnly : bool
}.

Record backref := { address : Z; length : Z; bType : backrefType }.

(** What is written to the bit writer, in order. *)
Inductive wop :=
| WByte (b : byte)                 (* bw.TryWriteByte(b) *)
| WBackref (b : backref) (i : Z).  (* b.writeTo(bw, i) *)

(** Declarations of the package that are outside the sources at hand, and the
    packages it imports: the constants, the back-reference helpers, the suffix
    array (an index is identified with the data it indexes) and the bit
    writer with its buffer (identified with what was written to it). *)
Record Externals := {
  maxInputSize : Z;
  maxDictSize : Z;
  symbolDict : byte;
  symbolShort : byte;
  symbolLong : byte;
  newBackRefType : byte -> Z -> Z -> bool -> backrefType;
  savings : backref -> Z;
  LookupLongest : list byte -> list byte -> Z -> Z -> Z -> Z -> Z * Z;
  TryError : list wop -> option string;
  Close : list wop -> option string;
  Bytes : list wop -> list byte
}.

Record Compressor := {
  buf : list wop;
  inputIndex : option (list byte);
  dictData : list byte;
  dictIndex : list byte;
  compressionMode : Z
}.

Section Compressor.

Context (ext : Externals).

Local Open Scope lzss_scope.

(** canEncodeSymbol returns true if the symbol can be encoded directly *)
Definition canEncodeSymbol (b : byte) : bool :=
  negb (Byte.eqb b (symbolDict ext)) && negb (Byte.eqb b (symbolShort ext))
  && negb (Byte.eqb b (symbolLong ext)).

Definition writeByte (out : list wop) (b : byte) : result (list wop) :=
  if negb (canEncodeSymbol b) then Panic CannotEncodeSymbol
  else Val (out ++ [WByte b]).

Definition writeTo (b : backref) (out : list wop) (i : Z) : list wop :=
  out ++ [WBackref b i].

Definition max (a b : Z) : Z := if bool_decide (a > b) then a else b.

Definition uint8 (a : Z) : Z := a mod 256.

(** [bits.Len(x)] *)
Definition bitsLen (x : Z) : Z := Z.of_N (N.size (Z.to_N x)).

Definition wordAlign (compressionMode : Z) (a : Z) : result Z :=
  let m := uint8 compressionMode in
  if bool_decide (m = 0) then Panic DivideByZero
  else Val (uint8 (uint8 (uint8 (uint8 a + m) - 1) / m * m)).

Definition initBackRefTypes (dictLen : Z) (compressionMode : Z)
  : result (backrefType * backrefType * backrefType) :=
  a <~ wordAlign compressionMode 14 ;;
  let short := newBackRefType ext (symbolShort ext) a 8 false in
  a <~ wordAlign compressionMode 19 ;;
  let long := newBackRefType ext (symbolLong ext) a 8 false in
  a <~ wordAlign compressionMode (bitsLen dictLen) ;;
  let dict := newBackRefType ext (symbolDict ext) a 8 true in
  Val (short, long, dict).

(** findBackRef attempts to find a backref in the window
    [i-brAddressRange, i+brLengthRange]; if no backref is found, it returns
    -1, -1, else the address and length of the backref *)
Definition findBackRef (c : Compressor) (data : list byte)
    (i : Z) (bType : backrefType) (minLength : Z) : result (Z * Z) :=
  let minLength := if bool_decide (minLength = -1) then nbBytesBackRef bType else minLength in
  if bool_decide (i + minLength > Go.len data) then Val (-1, -1)
  else
    let windowStart := max 0 (i - maxAddress bType) in
    let maxRefLen := maxLength bType in
    let maxRefLen :=
      if bool_decide (i + maxRefLen > Go.len data) then Go.len data - i else maxRefLen in
    if bool_decide (minLength > maxRefLen) then Val (-1, -1)
    else
      pattern <~ inrange (Go.slice data i (i + maxRefLen)) ;;
      if dictOnly bType then
        Val (LookupLongest ext (dictIndex c) pattern minLength maxRefLen 0
               (Go.len (dictData c)))
      else
        match inputIndex c with
        | Some input =>
            Val (LookupLongest ext input pattern minLength maxRefLen windowStart i)
        | None => Panic NilDereference
        end.

(** The three candidates [bDict], [bShort], [bLong] that the closures of
    [Compress] share. *)
Record candidates := { bDict : backref; bShort : backref; bLong : backref }.

Definition fillBackrefs (c : Compressor) (d : list byte)
    (bs : candidates) (i : Z) (minLen : Z) : result (bool * candidates) :=
  rd <~ findBackRef c d i (bType (bDict bs)) minLen ;;
  rs <~ findBackRef c d i (bType (bShort bs)) minLen ;;
  rl <~ findBackRef c d i (bType (bLong bs)) minLen ;;
  let bs := {| bDict := {| address := fst rd; length := snd rd; bType := bType (bDict bs) |};
               bShort := {| address := fst rs; length := snd rs; bType := bType (bShort bs) |};
               bLong := {| address := fst rl; length := snd rl; bType := bType (bLong bs) |} |} in
  Val (negb (bool_decide (length (bDict bs) = -1)
             && bool_decide (length (bShort bs) = -1)
             && bool_decide (length (bLong bs) = -1)), bs).

Definition bestBackref (bs : candidates) : backref * Z :=
  if bool_decide (length (bDict bs) <> -1)
     && bool_decide (savings ext (bDict bs) > savings ext (bShort bs))
     && bool_decide (savings ext (bDict bs) > savings ext (bLong bs))
  then (bDict bs, savings ext (bDict bs))
  else if bool_decide (length (bShort bs) <> -1)
          && bool_decide (savings ext (bShort bs) > savings ext (bLong bs))
  then (bShort bs, savings ext (bShort bs))
  else (bLong bs, savings ext (bLong bs)).

(** The state of the loop of [Compress]: what was written, the shared
    candidates, the position. *)
Record loop_state := { out : list wop; cands : candidates; pos : Z }.

(** One round of [for i := 0; i < len(d); { ... }], entered with [i < len(d)]. *)
Definition round (c : Compressor) (d : list byte) (st : loop_state)
  : result loop_state :=
  let i := pos st in
  let out := out st in
  let bs := cands st in
  b <~ inrange (Go.index d i) ;;
  if negb (canEncodeSymbol b) then
    (* we must find a backref. *)
    f <~ fillBackrefs c d bs i 1 ;;
    let bs := snd f in
    if negb (fst f) then
      (* we didn't find a backref but can't write the symbol directly *)
      Fail (ErrNoBackref i)
    else
      let best := fst (bestBackref bs) in
      let out := writeTo best out i in
      Val {| out := out; cands := bs; pos := i + length best |}
  else
    f <~ fillBackrefs c d bs i (-1) ;;
    let bs := snd f in
    if negb (fst f) then
      (* we didn't find a backref, let's write the symbol directly *)
      out <~ writeByte out b ;;
      Val {| out := out; cands := bs; pos := i + 1 |}
    else
      let bestAtI := fst (bestBackref bs) in
      let bestSavings := snd (bestBackref bs) in
      st <~
        (if bool_decide (i + 1 < Go.len d) then
           f <~ fillBackrefs c d bs (i + 1) (length bestAtI + 1) ;;
           let bs := snd f in
           if fst f then
             let newBest := fst (bestBackref bs) in
             let newSavings := snd (bestBackref bs) in
             if bool_decide (newSavings > bestSavings) then
               (* we found an even better backref *)
               b <~ inrange (Go.index d i) ;;
               out <~ writeByte out b ;;
               let i := i + 1 in
               (* then emit the backref at i+1 *)
               let bestSavings := newSavings in
               let bestAtI := newBest in
               (* can we find an even better backref? *)
               b <~ inrange (Go.index d i) ;;
               if canEncodeSymbol b && bool_decide (i + 1 < Go.len d) then
                 f <~ fillBackrefs c d bs (i + 1) (length bestAtI + 1) ;;
                 let bs := snd f in
                 if fst f then
                   (* we found an even better backref *)
                   let newBest := fst (bestBackref bs) in
                   let newSavings := snd (bestBackref bs) in
                   if bool_decide (newSavings > bestSavings) then
                     b <~ inrange (Go.index d i) ;;
                     out <~ writeByte out b ;;
                     let i := i + 1 in
                     let bestAtI := newBest in
                     Val (out, bs, i, bestAtI)
                   else Val (out, bs, i, bestAtI)
                 else Val (out, bs, i, bestAtI)
               else Val (out, bs, i, bestAtI)
             else Val (out, bs, i, bestAtI)
           else
             inext <~ (if bool_decide (i + 2 < Go.len d) then
                         b1 <~ inrange (Go.index d (i + 1)) ;; Val (canEncodeSymbol b1)
                       else Val false) ;;
             if (inext : bool) then
               (* maybe at i+2 ? (we already tried i+1) *)
               f <~ fillBackrefs c d bs (i + 2) (length bestAtI + 2) ;;
               let bs := snd f in
               if fst f then
                 let newBest := fst (bestBackref bs) in
                 let newSavings := snd (bestBackref bs) in
                 if bool_decide (newSavings > bestSavings) then
                   (* we found a better backref; write the symbol at i *)
                   b <~ inrange (Go.index d i) ;;
                   out <~ writeByte out b ;;
                   let i := i + 1 in
                   b <~ inrange (Go.index d i) ;;
                   out <~ writeByte out b ;;
                   let i := i + 1 in
                   (* then emit the backref at i+2 *)
                   let bestAtI := newBest in
                   Val (out, bs, i, bestAtI)
                 else Val (out, bs, i, bestAtI)
               else Val (out, bs, i, bestAtI)
             else Val (out, bs, i, bestAtI)
         else Val (out, bs, i, bestAtI)) ;;
      let '(out, bs, i, bestAtI) := st in
      let out := writeTo bestAtI out i in
      Val {| out := out; cands := bs; pos := i + length bestAtI |}.

(** [for i := 0; i < len(d); { ... }], for at most [fuel] rounds; what was
    written before a round that fails stays written *)
Fixpoint loop (fuel : nat) (c : Compressor) (d : list byte) (st : loop_state)
  : list wop * result loop_state :=
  if bool_decide (pos st < Go.len d) then
    match fuel with
    | O => (out st, OutOfFuel)
    | S fuel' =>
        match round c d st with
        | Val st' => loop fuel' c d st'
        | Fail e => (out st, Fail e)
        | Panic p => (out st, Panic p)
        | OutOfFuel => (out st, OutOfFuel)
        end
    end
  else (out st, Val st).

Definition withBuf (c : Compressor) (b : list wop) : Compressor :=
  {| buf := b; inputIndex := inputIndex c; dictData := dictData c;
     dictIndex := dictIndex c; compressionMode := compressionMode c |}.

Definition withInputIndex (c : Compressor) (d : list byte) : Compressor :=
  {| buf := buf c; inputIndex := Some d; dictData := dictData c;
     dictIndex := dictIndex c; compressionMode := compressionMode c |}.

(** Compress compresses the given data. The compressor comes back as the
    call leaves it. *)
Definition Compress (fuel : nat) (compressor : Compressor) (d : list byte)
  : Compressor * result (list byte) :=
  (* check input size *)
  if bool_decide (Go.len d > maxInputSize ext) then
    (compressor, Fail (ErrInputSize (maxInputSize ext)))
  else
    (* reset output buffer *)
    let compressor := withBuf compressor [] in
    (* build the index *)
    let compressor := withInputIndex compressor d in
    match initBackRefTypes (Go.len (dictData compressor)) (compressionMode compressor) with
    | Val (shortBackRefType, longBackRefType, dictBackRefType) =>
        let bDict := {| bType := dictBackRefType; length := -1; address := -1 |} in
        let bShort := {| bType := shortBackRefType; length := -1; address := -1 |} in
        let bLong := {| bType := longBackRefType; length := -1; address := -1 |} in
        let bs := {| bDict := bDict; bShort := bShort; bLong := bLong |} in
        match loop fuel compressor d {| out := []; cands := bs; pos := 0 |} with
        | (out, Val _) =>
            let compressor := withBuf compressor out in
            match TryError ext out with
            | Some e => (compressor, Fail (ErrWriter e))
            | None =>
                match Close ext out with
                | Some e => (compressor, Fail (ErrWriter e))
                | None => (compressor, Val (Bytes ext out))
                end
            end
        | (out, Fail e) => (withBuf compressor out, Fail e)
        | (out, Panic p) => (withBuf compressor out, Panic p)
        | (out, OutOfFuel) => (withBuf compressor out, OutOfFuel)
        end
    | Fail e => (compressor, Fail e)
    | Panic p => (compressor, Panic p)
    | OutOfFuel => (compressor, OutOfFuel)
    end.

End Compressor.

Section Construction.

Context (ext : Externals).

(** What [NewCompressor] hands back: the compressor, or the size error
    "dict size must be <= %d". *)
Inductive made :=
| Made (c : Compressor)
| DictTooLarge (max : Z).

Definition augmentDict (dict : list byte) : list byte :=
  dict ++ [symbolDict ext; symbolShort ext; symbolLong ext].

(** NewCompressor returns a new compressor with the given dictionary. The
    index of the dictionary is identified with the data it indexes; the size
    of the suffix-array space and the size the buffer grows to are array
    sizes, hence not negative. *)
Definition NewCompressor (dict : list byte) (compressionMode : Z) : made :=
  let dict := augmentDict dict in
  if bool_decide (Go.len dict > maxDictSize ext) then DictTooLarge (maxDictSize ext)
  else Made {| buf := []; inputIndex := None; dictData := dict; dictIndex := dict;
               compressionMode := compressionMode |}.

End Construction.

End Lzss.

(** ** The fork and join of commitToLRO and commitToQuotient

    Both functions start two goroutines, each of which commits to one
    polynomial, writes the digest to its slot of the proof and its error to
    its variable, and closes its channel; the calling path commits to the
    third polynomial, returns at once if that failed, and otherwise receives
    from both channels and returns the first error of the two goroutines.
    The three threads are interleaved by a step relation. *)
Module Fork.

Import Plonk.

(** A goroutine: before the commitment, after it, after [close]. *)
Inductive gpc := GStart | GCommitted | GClosed.

(** The calling path: before its commitment, before each of the two receives,
    after [return]. *)
Inductive mpc := MCommit | MRecv0 | MRecv1 | MReturned (e : option error).

Record state := {
  g0 : gpc; g1 : gpc; main : mpc;
  slot0 : Digest; slot1 : Digest; slot2 : Digest;
  err0 : option error; err1 : option error; err2 : option error
}.

(** After the two [go] statements. *)
Definition init (slots : arr3 Digest) : state :=
  {| g0 := GStart; g1 := GStart; main := MCommit;
     slot0 := at0 slots; slot1 := at1 slots; slot2 := at2 slots;
     err0 := None; err1 := None; err2 := None |}.

Section Machine.

(** What [kzg.Commit] answers on the three polynomials. *)
Context (c0 c1 c2 : Digest * option error).

Inductive step : state -> state -> Prop :=
| go0_commit s :
    g0 s = GStart ->
    step s {| g0 := GCommitted; g1 := g1 s; main := main s;
              slot0 := fst c0; slot1 := slot1 s; slot2 := slot2 s;
              err0 := snd c0; err1 := err1 s; err2 := err2 s |}
| go0_close s :
    g0 s = GCommitted ->
    step s {| g0 := GClosed; g1 := g1 s; main := main s;
              slot0 := slot0 s; slot1 := slot1 s; slot2 := slot2 s;
              err0 := err0 s; err1 := err1 s; err2 := err2 s |}
| go1_commit s :
    g1 s = GStart ->
    step s {| g0 := g0 s; g1 := GCommitted; main := main s;
              slot0 := slot0 s; slot1 := fst c1; slot2 := slot2 s;
              err0 := err0 s; err1 := snd c1; err2 := err2 s |}
| go1_close s :
    g1 s = GCommitted ->
    step s {| g0 := g0 s; g1 := GClosed; main := main s;
              slot0 := slot0 s; slot1 := slot1 s; slot2 := slot2 s;
              err0 := err0 s; err1 := err1 s; err2 := err2 s |}
| main_commit s :
    main s = MCommit ->
    step s {| g0 := g0 s; g1 := g1 s;
              main := match snd c2 with
                      | Some e => MReturned (Some e)
                      | None => MRecv0
                      end;
              slot0 := slot0 s; slot1 := slot1 s; slot2 := fst c2;
              err0 := err0 s; err1 := err1 s; err2 := snd c2 |}
| main_recv0 s :
    main s = MRecv0 -> g0 s = GClosed ->
    step s {| g0 := g0 s; g1 := g1 s; main := MRecv1;
              slot0 := slot0 s; slot1 := slot1 s; slot2 := slot2 s;
              err0 := err0 s; err1 := err1 s; err2 := err2 s |}
| main_recv1 s :
    main s = MRecv1 -> g1 s = GClosed ->
    step s {| g0 := g0 s; g1 := g1 s;
              main := MReturned (match err0 s with
                                 | Some e => Some e
                                 | None => err1 s
                                 end);
              slot0 := slot0 s; slot1 := slot1 s; slot2 := slot2 s;
              err0 := err0 s; err1 := err1 s; err2 := err2 s |}.

(** The states a run can be in. *)
Definition reachable (slots : arr3 Digest) (s : state) : Prop := rtc step (init slots) s.

(** The error the function returns in the order of [Plonk.commitToLRO]. *)
Definition returned_error : option error :=
  match snd c2 with
  | Some e => Some e
  | None => match snd c0 with
            | Some e => Some e
            | None => snd c1
            end
  end.

(** Both forked commitments are complete. *)
Definition joined (s : state) : Prop := g0 s = GClosed /\ g1 s = GClosed.

(** What holds in every state of every interleaving. *)
Definition fork_inv (s : state) : Prop :=
  (g0 s = GStart -> err0 s = None) /\
  (g0 s <> GStart -> slot0 s = fst c0 /\ err0 s = snd c0) /\
  (g1 s = GStart -> err1 s = None) /\
  (g1 s <> GStart -> slot1 s = fst c1 /\ err1 s = snd c1) /\
  (main s <> MCommit -> slot2 s = fst c2 /\ err2 s = snd c2) /\
  (main s = MRecv0 -> snd c2 = None) /\
  (main s = MRecv1 -> snd c2 = None /\ g0 s = GClosed) /\
  (forall e, main s = MReturned e ->
     (exists e2, snd c2 = Some e2 /\ e = Some e2) \/
     (snd c2 = None /\ joined s /\
      e = match snd c0 with Some e0 => Some e0 | None => snd c1 end)).

End Machine.

End Fork.

(** ** Statements about the compressor *)
Module LzssSpec.
Import Lzss.

(** Every byte written directly can be encoded directly. *)
Definition clean (ext : Externals) (out : list wop) : Prop :=
  forall b, In (WByte b) out -> canEncodeSymbol ext b = true.

(** A search for back-references returns, or panics for an index out of
    range or a missing index. *)
Definition search_ok {A} (r : result A) : Prop :=
  match r with
  | Val _ => True
  | Panic p => p <> CannotEncodeSymbol
  | Fail _ | OutOfFuel => False
  end.

(** The outcome of a round that keeps to the rules of [writeByte]. *)
Definition round_ok (ext : Externals) (st : loop_state) (r : result loop_state) : Prop :=
  match r with
  | Val st' => clean ext (out st')
  | Fail e => e = ErrNoBackref (pos st)
  | Panic p => p <> CannotEncodeSymbol
  | OutOfFuel => False
  end.

(** The contract of [suffixarray.Index.LookupLongest]: no match is (-1, -1),
    and the length of a match lies between the two bounds it was given. *)
Definition lookup_ok (ext : Externals) : Prop :=
  forall idx pat minL maxL s e,
    LookupLongest ext idx pat minL maxL s e = (-1, -1) \/
    minL <= snd (LookupLongest ext idx pat minL maxL s e) <= maxL.

(** The contract of [backref.savings]: a back-reference that was not found
    saves less than any that was. *)
Definition savings_ok (ext : Externals) : Prop :=
  forall b b', length b = -1 -> 1 <= length b' -> savings ext b < savings ext b'.

(** The contract of [newBackRefType]: a back-reference takes at least one
    byte. *)
Definition types_ok (ext : Externals) : Prop :=
  forall sym a l d, 1 <= nbBytesBackRef (newBackRefType ext sym a l d).

(** The three candidates are of types that take at least one byte. *)
Definition typed (bs : candidates) : Prop :=
  1 <= nbBytesBackRef (bType (bDict bs)) /\
  1 <= nbBytesBackRef (bType (bShort bs)) /\
  1 <= nbBytesBackRef (bType (bLong bs)).

(** Where the input stands after the operation [o] written at position [i]:
    a byte written directly is the byte of the input at [i]; a back-reference
    is written for the position [i], stands for at least one byte and does
    not run over the end of the input. *)
Definition advance (d : list byte) (i : Z) (o : wop) : option Z :=
  match o with
  | WByte b =>
      match Go.index d i with
      | Some b' => if Byte.eqb b' b then Some (i + 1) else None
      | None => None
      end
  | WBackref br j =>
      if bool_decide (j = i /\ 1 <= length br /\ i + length br <= Go.len d)
      then Some (i + length br) else None
  end.

(** Where the input stands after the operations [out], from position [i]. *)
Definition covers (d : list byte) (i : Z) (out : list wop) : option Z :=
  foldl (fun acc o => acc ≫= fun j => advance d j o) (Some i) out.

(** What holds of the state of the loop between two rounds. *)
Definition loop_inv (d : list byte) (st : loop_state) : Prop :=
  0 <= pos st <= Go.len d /\ covers d 0 (out st) = Some (pos st) /\ typed (cands st).

(** What a round leaves behind. *)
Definition round_outcome (ext : Externals) (d : list byte) (st : loop_state)
    (r : result loop_state) : Prop :=
  match r with
  | Val st' => loop_inv d st' /\ pos st < pos st'
  | Fail e =>
      e = ErrNoBackref (pos st) /\
      exists b, Go.index d (pos st) = Some b /\ canEncodeSymbol ext b = false
  | Panic _ | OutOfFuel => False
  end.

End LzssSpec.

(** ** A complete run of the prover *)
Module Complete.
Import Plonk RunSpec.

(** The values a complete run goes through, named as in the source. *)
Record run := {
  pub : list fr;                      (* fullWitness[:len(spr.Public)] *)
  (* l, r, o in canonical form on the small domain, as they are committed *)
  wliop : WrappedPolynomial; wriop : WrappedPolynomial; woiop : WrappedPolynomial;
  gamma : fr; beta : fr; alpha : fr; zeta : fr;
  copies : list Polynomial;           (* liop.Copy(), riop.Copy(), oiop.Copy() *)
  ziop : Polynomial;
  (* the nine calls of EvaluatePolynomials: the identity and its operands *)
  constraintsCapture : MultivariatePolynomial; ps_constraints : list WrappedPolynomial;
  capture_a : MultivariatePolynomial; ps_a : list WrappedPolynomial;
  capture_b : MultivariatePolynomial; ps_b : list WrappedPolynomial;
  capture_c : MultivariatePolynomial; ps_c : list WrappedPolynomial;
  capture_u : MultivariatePolynomial; ps_u : list WrappedPolynomial;
  capture_v : MultivariatePolynomial; ps_v : list WrappedPolynomial;
  capture_w : MultivariatePolynomial; ps_w : list WrappedPolynomial;
  orderingCapture : MultivariatePolynomial; ps_ordering : list WrappedPolynomial;
  startsAtOneCapture : MultivariatePolynomial; ps_startsAtOne : list WrappedPolynomial;
  operands : list WrappedPolynomial;  (* wconstraints, wordering, wstartsAtOne *)
  plonkCapture : MultivariatePolynomial;
  h : Polynomial;
  h1 : list fr; h2 : list fr; h3 : list fr;
  zc : list fr;                       (* wziop.P.Coefficients[:n] *)
  blindedZ : list fr;                 (* wziop.P.Coefficients[:n+2] *)
  blzeta : fr; brzeta : fr; bozeta : fr;
  linearizedPolynomialCanonical : list fr;
  linearizedPolynomialDigest : Digest;
  foldedH : list fr;
  pl : list fr; pr : list fr; po : list fr  (* wliop.P.Coefficients[:wliop.Size], ... *)
}.

Section Log.

Context (env : Collaborators).

(** The polynomials and the digests of the batched opening. *)
Definition batch_polys (pk : ProvingKey) (r : run) : list (list fr) :=
  [foldedH r; linearizedPolynomialCanonical r; pl r; pr r; po r;
   S1Canonical pk; S2Canonical pk].

Definition batch_digests (pk : ProvingKey) (proof : Proof) (r : run) : list Digest :=
  [horner_digest env (H proof) (Fr.exp (zeta r) (Go.u64_add (Cardinality (Domain0 pk)) 2));
   linearizedPolynomialDigest r;
   at0 (LRO proof); at1 (LRO proof); at2 (LRO proof);
   at0 (VkS (Vk pk)); at1 (VkS (Vk pk))].

(** The calls of a complete run, in order. *)
Definition log_of (pk : ProvingKey) (w : Witness) (proof : Proof) (r : run)
  : list event :=
  [EvSolve w;
   EvCommit (Coefficients (P (woiop r)));
   EvCommit (Coefficients (P (wliop r)));
   EvCommit (Coefficients (P (wriop r)));
   EvBind "gamma" (AbsVk (Vk pk));
   EvBind "gamma" (AbsPublic (pub r));
   EvBind "gamma" (AbsPoint (at0 (LRO proof)));
   EvBind "gamma" (AbsPoint (at1 (LRO proof)));
   EvBind "gamma" (AbsPoint (at2 (LRO proof)));
   EvChallenge "gamma";
   EvChallenge "beta";
   EvBuildRatio (copies r) (beta r) (gamma r);
   EvCommit (Coefficients (ziop r));
   EvBind "alpha" (AbsPoint (PZ proof));
   EvChallenge "alpha";
   EvEvaluatePolynomials (constraintsCapture r) (ps_constraints r);
   EvEvaluatePolynomials (capture_a r) (ps_a r);
   EvEvaluatePolynomials (capture_b r) (ps_b r);
   EvEvaluatePolynomials (capture_c r) (ps_c r);
   EvEvaluatePolynomials (capture_u r) (ps_u r);
   EvEvaluatePolynomials (capture_v r) (ps_v r);
   EvEvaluatePolynomials (capture_w r) (ps_w r);
   EvEvaluatePolynomials (orderingCapture r) (ps_ordering r);
   EvEvaluatePolynomials (startsAtOneCapture r) (ps_startsAtOne r);
   EvComputeQuotient (operands r) (plonkCapture r);
   EvCommit (h3 r); EvCommit (h1 r); EvCommit (h2 r);
   EvBind "zeta" (AbsPoint (at0 (H proof)));
   EvBind "zeta" (AbsPoint (at1 (H proof)));
   EvBind "zeta" (AbsPoint (at2 (H proof)));
   EvChallenge "zeta";
   EvOpen (zc r) (Fr.mul (zeta r) (Generator (Vk pk)));
   EvCommit (linearizedPolynomialCanonical r);
   EvBatchOpen (batch_polys pk r) (batch_digests pk proof r) (zeta r)].

(** What relates the values of a complete run to each other, to the inputs
    and to the proof that is returned. *)
Record complete (spr : SparseR1CS) (pk : ProvingKey) (w : Witness)
    (proof : Proof) (r : run) : Prop := {
  run_lro : exists solution ev, evaluateLROSmallDomain spr pk solution = Some ev;
  run_pub : Go.slice w 0 (Go.len (Public spr)) = Some (pub r);
  run_commit_l :
    Commit env (Coefficients (P (wliop r))) (KZGSRS (Vk pk)) = (at0 (LRO proof), None);
  run_commit_r :
    Commit env (Coefficients (P (wriop r))) (KZGSRS (Vk pk)) = (at1 (LRO proof), None);
  run_commit_o :
    Commit env (Coefficients (P (woiop r))) (KZGSRS (Vk pk)) = (at2 (LRO proof), None);
  run_gamma : derived env (log_of pk w proof r) "gamma" = Some (gamma r);
  run_beta : derived env (log_of pk w proof r) "beta" = Some (beta r);
  run_alpha : derived env (log_of pk w proof r) "alpha" = Some (alpha r);
  run_zeta : derived env (log_of pk w proof r) "zeta" = Some (zeta r);
  run_ratio :
    BuildRatioCopyConstraint env (copies r) (Permutation pk) (beta r) (gamma r)
      {| FBasis := Canonical; FLayout := Regular |} (Domain0 pk) = (ziop r, None);
  run_commit_z :
    Commit env (Coefficients (ziop r)) (KZGSRS (Vk pk)) = (PZ proof, None);
  run_quotient :
    ComputeQuotient env (operands r) (plonkCapture r) (Domain0 pk) (Domain1 pk)
    = (h r, None);
  run_h1 :
    Go.slice (Coefficients (h r)) 0 (Go.u64_add (Cardinality (Domain0 pk)) 2)
    = Some (h1 r);
  run_h2 :
    Go.slice (Coefficients (h r)) (Go.u64_add (Cardinality (Domain0 pk)) 2)
      (Go.u64_mul 2 (Go.u64_add (Cardinality (Domain0 pk)) 2)) = Some (h2 r);
  run_h3 :
    Go.slice (Coefficients (h r))
      (Go.u64_mul 2 (Go.u64_add (Cardinality (Domain0 pk)) 2))
      (Go.u64_mul 3 (Go.u64_add (Cardinality (Domain0 pk)) 2)) = Some (h3 r);
  run_commit_h1 : Commit env (h1 r) (KZGSRS (Vk pk)) = (at0 (H proof), None);
  run_commit_h2 : Commit env (h2 r) (KZGSRS (Vk pk)) = (at1 (H proof), None);
  run_commit_h3 : Commit env (h3 r) (KZGSRS (Vk pk)) = (at2 (H proof), None);
  run_zc :
    Go.slice (held_Z env pk (ziop r)) 0 (Cardinality (Domain0 pk)) = Some (zc r);
  run_open :
    Open env (zc r) (Fr.mul (zeta r) (Generator (Vk pk))) (KZGSRS (Vk pk))
    = (ZShiftedOpening proof, None);
  run_blindedZ :
    Go.slice (held_Z env pk (ziop r)) 0 (Go.u64_add (Cardinality (Domain0 pk)) 2)
    = Some (blindedZ r);
  run_linearized :
    computeLinearizedPolynomial env (blzeta r) (brzeta r) (bozeta r)
      (alpha r) (beta r) (gamma r) (zeta r)
      (ClaimedValue (ZShiftedOpening proof)) (blindedZ r) pk
    = Some (linearizedPolynomialCanonical r);
  run_commit_lin :
    Commit env (linearizedPolynomialCanonical r) (KZGSRS (Vk pk))
    = (linearizedPolynomialDigest r, None);
  run_blzeta : blzeta r = WEvaluate env (held_wire env pk (wliop r)) (zeta r);
  run_brzeta : brzeta r = WEvaluate env (held_wire env pk (wriop r)) (zeta r);
  run_bozeta : bozeta r = WEvaluate env (held_wire env pk (woiop r)) (zeta r);
  run_pl :
    Go.slice (Coefficients (P (held_wire env pk (wliop r)))) 0
      (Size (held_wire env pk (wliop r))) = Some (pl r);
  run_pr :
    Go.slice (Coefficients (P (held_wire env pk (wriop r)))) 0
      (Size (held_wire env pk (wriop r))) = Some (pr r);
  run_po :
    Go.slice (Coefficients (P (held_wire env pk (woiop r)))) 0
      (Size (held_wire env pk (woiop r))) = Some (po r);
  run_fold :
    foldH (h1 r) (h2 r) (h3 r)
      (Fr.exp (zeta r) (Go.u64_add (Cardinality (Domain0 pk)) 2))
    = Some (foldedH r);
  run_batch :
    BatchOpenSinglePoint env (batch_polys pk r) (batch_digests pk proof r) (zeta r)
      (challenge_schedule pk (pub r) proof) (KZGSRS (Vk pk))
    = (BatchedProof proof, None)
}.

(** The solution [Prove] goes on with: the one of the solver or, when the
    solver failed and the prover is forced, the one of the solver with its
    tail overwritten. *)
Definition settled (spr : SparseR1CS) (w : Witness) (opt : ProverConfig)
  : option (list fr) :=
  match Solve env spr w opt with
  | (solution, None) => Some solution
  | (solution, Some _) =>
      if Force opt then fst <$> fillSolution spr solution (SetRandom env) else None
  end.

(** A wire as it is committed to: its values on the small domain, wrapped,
    in canonical form and regular layout. *)
Definition wire (pk : ProvingKey) (evaluation : list fr) : WrappedPolynomial :=
  WToRegular env
    (WToCanonical env
       (WrapMe (NewPolynomial evaluation {| FBasis := Lagrange; FLayout := Regular |}) 0)
       (Domain0 pk)).

(** The wires of a run are the three columns of [evaluateLROSmallDomain] on
    the solution, and the ratio of the copy constraints is built from them. *)
Definition wires (spr : SparseR1CS) (pk : ProvingKey) (solution : list fr)
    (r : run) : Prop :=
  exists l r0 o,
    evaluateLROSmallDomain spr pk solution = Some (l, r0, o) /\
    wliop r = wire pk l /\ wriop r = wire pk r0 /\ woiop r = wire pk o /\
    copies r = [P (wliop r); P (wriop r); P (woiop r)].

End Log.

Section QuotientInputs.

Import PlonkSpec.

Context (env : Collaborators).

(** What the quotient is computed from, in a run that returns a proof. *)
Definition quotient_inputs (spr : SparseR1CS) (pk : ProvingKey) (w : Witness)
    (log : list event) (r : run) : Prop :=
  let canReg := {| FBasis := Canonical; FLayout := Regular |} in
  let lagReg := {| FBasis := Lagrange; FLayout := Regular |} in
  exists constraints a b c u v w' ordering startsAtOne wl wr wo
         id idc s1 s2 s3 wsz wz lone lonec qk,
    derived env log "gamma" = Some (gamma r) /\
    derived env log "beta" = Some (beta r) /\
    derived env log "alpha" = Some (alpha r) /\
    (* the gates *)
    constraintsCapture r = gate_identity /\
    ps_constraints r
    = [WToLagrangeCoset env (WrapMe (NewPolynomial (Ql pk)
                                       {| FBasis := Canonical; FLayout := Regular |}) 0)
         (Domain1 pk);
       WToLagrangeCoset env (WrapMe (NewPolynomial (Qr pk)
                                       {| FBasis := Canonical; FLayout := Regular |}) 0)
         (Domain1 pk);
       WToLagrangeCoset env (WrapMe (NewPolynomial (Qm pk)
                                       {| FBasis := Canonical; FLayout := Regular |}) 0)
         (Domain1 pk);
       WToLagrangeCoset env (WrapMe (NewPolynomial (Qo pk)
                                       {| FBasis := Canonical; FLayout := Regular |}) 0)
         (Domain1 pk);
       WToLagrangeCoset env
         (WrapMe (NewPolynomial (FFTBitReverse env (FFTInverse env (Domain0 pk) qk))
                    {| FBasis := Canonical; FLayout := Regular |}) 0)
         (Domain1 pk);
       wl; wr; wo] /\
    completed_qk spr pk w qk /\
    wl = WToLagrangeCoset env (wliop r) (Domain1 pk) /\
    wr = WToLagrangeCoset env (wriop r) (Domain1 pk) /\
    wo = WToLagrangeCoset env (woiop r) (Domain1 pk) /\
    EvaluatePolynomials env (constraintsCapture r) (ps_constraints r) = (constraints, None) /\
    (* the permutation: the identity X on the large domain, S1, S2, S3 *)
    unit_vector (Cardinality (Domain1 pk)) 1 idc /\
    id = WToLagrangeCoset env (WrapMe (NewPolynomial idc canReg) 0) (Domain1 pk) /\
    s1 = WToLagrangeCoset env
           (WToRegular env
              (WToCanonical env (WrapMe (NewPolynomial (S1Canonical pk) canReg) 0)
                 (Domain0 pk)))
           (Domain1 pk) /\
    s2 = WToLagrangeCoset env
           (WToRegular env
              (WToCanonical env (WrapMe (NewPolynomial (S2Canonical pk) canReg) 0)
                 (Domain0 pk)))
           (Domain1 pk) /\
    s3 = WToLagrangeCoset env
           (WToRegular env
              (WToCanonical env (WrapMe (NewPolynomial (S3Canonical pk) canReg) 0)
                 (Domain0 pk)))
           (Domain1 pk) /\
    capture_a r = shifted_identity (beta r) (gamma r) /\ ps_a r = [wl; id] /\
    EvaluatePolynomials env (capture_a r) (ps_a r) = (a, None) /\
    capture_b r
    = shifted_identity (Fr.mul (beta r) (FrMultiplicativeGen (Domain0 pk))) (gamma r) /\
    ps_b r = [wr; id] /\
    EvaluatePolynomials env (capture_b r) (ps_b r) = (b, None) /\
    capture_c r
    = shifted_identity (Fr.mul (Fr.mul (beta r) (FrMultiplicativeGen (Domain0 pk)))
                          (FrMultiplicativeGen (Domain0 pk))) (gamma r) /\
    ps_c r = [wo; id] /\
    EvaluatePolynomials env (capture_c r) (ps_c r) = (c, None) /\
    capture_u r = shifted_identity (beta r) (gamma r) /\ ps_u r = [wl; s1] /\
    EvaluatePolynomials env (capture_u r) (ps_u r) = (u, None) /\
    capture_v r = shifted_identity (beta r) (gamma r) /\ ps_v r = [wr; s2] /\
    EvaluatePolynomials env (capture_v r) (ps_v r) = (v, None) /\
    capture_w r = shifted_identity (beta r) (gamma r) /\ ps_w r = [wo; s3] /\
    EvaluatePolynomials env (capture_w r) (ps_w r) = (w', None) /\
    orderingCapture r = ordering_identity /\
    ps_ordering r
    = [wsz; WrapMe u 0; WrapMe v 0; WrapMe w' 0; wz; WrapMe a 0; WrapMe b 0; WrapMe c 0] /\
    wsz = WToLagrangeCoset env
            (WToRegular env (WToCanonical env (WrapMe (ziop r) 1) (Domain0 pk)))
            (Domain1 pk) /\
    wz = {| P := P wsz; Shift := 0; Size := Go.len (Coefficients (ziop r)) |} /\
    EvaluatePolynomials env (orderingCapture r) (ps_ordering r) = (ordering, None) /\
    (* Z starts at one: the first Lagrange polynomial of the small domain *)
    unit_vector (Cardinality (Domain0 pk)) 0 lonec /\
    lone = WrapMe
             (ToLagrangeCoset env
                (ToRegular env (ToCanonical env (NewPolynomial lonec lagReg) (Domain0 pk)))
                (Domain1 pk)) 0 /\
    startsAtOneCapture r = starts_at_one_identity /\
    ps_startsAtOne r = [wz; lone] /\
    EvaluatePolynomials env (startsAtOneCapture r) (ps_startsAtOne r) = (startsAtOne, None) /\
    (* the three together *)
    plonkCapture r = bundle_identity (alpha r) /\
    operands r = [WrapMe constraints 0; WrapMe ordering 0; WrapMe startsAtOne 0] /\
    ComputeQuotient env (operands r) (plonkCapture r) (Domain0 pk) (Domain1 pk)
    = (h r, None).

End QuotientInputs.

End Complete.

(** ** A small instance

    A toy set of collaborators on which the prover runs from end to end: G1 is
    replaced by pairs of scalars with coordinatewise addition, a commitment is
    the inner product of the coefficients with the SRS, the basis changes are
    the identity, and the switches make the solver or the copy-constraint
    ratio fail. *)
Module Demo.

Import Plonk.

Definition g1_add (a b : G1Affine) : G1Affine :=
  {| X := (X a + X b) mod Fr.q; Y := (Y a + Y b) mod Fr.q |}.

Definition g1_smul (a : G1Affine) (k : Z) : G1Affine :=
  {| X := (X a * k) mod Fr.q; Y := (Y a * k) mod Fr.q |}.

Fixpoint commit (p : list fr) (srs : SRS) : G1Affine :=
  match p, srs with
  | c :: p', g :: srs' => g1_add (g1_smul g c) (commit p' srs')
  | _, _ => zeroDigest
  end.

Definition horner (p : list fr) (z : fr) : fr :=
  fold_right (fun c acc => Fr.add c (Fr.mul z acc)) Fr.zero p.

Definition challenge_bytes (tr : list event) : list Byte.byte :=
  match Byte.of_nat (S (length tr)) with
  | Some b => [b; Byte.x07]
  | None => [Byte.x01]
  end.

Definition toy (seed : fr) (solve_fails ratio_fails : bool) : Collaborators :=
  {| Solve := fun spr w _ =>
       (w ++ replicate (length (Constraints spr)) (Fr.set_uint64 9),
        if solve_fails then Some "unsolved" else None);
     SetRandom := seed;
     ToCanonical := fun p _ => p;
     ToRegular := fun p => p;
     ToLagrangeCoset := fun p _ => p;
     Evaluate := fun p z => horner (Coefficients p) z;
     WToCanonical := fun p _ => p;
     WToRegular := fun p => p;
     WToLagrangeCoset := fun p _ => p;
     WEvaluate := fun p z => horner (Coefficients (P p)) z;
     BuildRatioCopyConstraint := fun ps _ beta gamma form d =>
       ({| Coefficients := replicate (Z.to_nat (Cardinality d + 3)) (Fr.add beta gamma);
           PForm := form |},
        if ratio_fails then Some "ratio" else None);
     EvaluatePolynomials := fun m ps =>
       ({| Coefficients := replicate 16 (Fr.add (C m) (Z.of_nat (length ps)));
           PForm := {| FBasis := LagrangeCoset; FLayout := Regular |} |}, None);
     ComputeQuotient := fun ps m d0 _ =>
       ({| Coefficients :=
             map (fun i => Fr.set_uint64 (Z.of_nat i))
               (seq 1 (Z.to_nat (3 * (Cardinality d0 + 2))));
           PForm := {| FBasis := Canonical; FLayout := Regular |} |}, None);
     FFTInverse := fun _ p => p;
     FFTBitReverse := fun p => p;
     Commit := fun p srs => (commit p srs, None);
     Open := fun p z srs =>
       ({| OpeningH := commit p srs; ClaimedValue := horner p z |}, None);
     BatchOpenSinglePoint := fun ps ds z tr srs =>
       ({| BatchH := foldr g1_add zeroDigest ds;
           ClaimedValues := map (fun p => horner p z) ps |}, None);
     ScalarMultiplication := g1_smul;
     G1Add := g1_add;
     Bind := fun _ _ _ => None;
     ComputeChallenge := fun tr _ => (challenge_bytes tr, None) |}.

(** One public and one secret input, two gates, a domain of four rows. *)
Definition spr : SparseR1CS :=
  {| Public := ["x"]; Secret := ["y"];
     Constraints :=
       [ {| L := {| WireID := 0 |}; R := {| WireID := 1 |}; O := {| WireID := 2 |} |};
         {| L := {| WireID := 1 |}; R := {| WireID := 2 |}; O := {| WireID := 3 |} |} ] |}.

Definition srs : SRS :=
  map (fun i => {| X := Z.of_nat i; Y := Z.of_nat (2 * i + 1) |}) (seq 1 20).

(** The inverses of the two cardinalities. *)
Definition inv4 : fr := Eval vm_compute in Fr.inverse 4.
Definition inv16 : fr := Eval vm_compute in Fr.inverse 16.

Definition pk : ProvingKey :=
  {| Vk := {| Generator := 5; CosetShift := 7;
              VkS := Arr3 {| X := 1; Y := 2 |} {| X := 3; Y := 4 |} {| X := 5; Y := 6 |};
              KZGSRS := srs |};
     Ql := [1; 0; 1; 0]; Qr := [0; 1; 0; 1]; Qm := [1; 1; 0; 0]; Qo := [2; 2; 2; 2];
     CQk := [0; 0; 3; 0]; LQk := [0; 4; 0; 0];
     Domain0 := {| Cardinality := 4; CardinalityInv := inv4;
                   FrMultiplicativeGen := 5 |};
     Domain1 := {| Cardinality := 16; CardinalityInv := inv16;
                   FrMultiplicativeGen := 5 |};
     Permutation := [4; 5; 6; 7; 8; 9; 10; 11; 0; 1; 2; 3];
     S1Canonical := [1; 2; 3; 4]; S2Canonical := [5; 6; 7; 8];
     S3Canonical := [9; 10; 11; 12] |}.

Definition w : Witness := [3; 5].

Definition env : Collaborators := toy 1 false false.

Definition unsolved : Collaborators := toy 1 true false.

Definition opt : ProverConfig := {| Force := false |}.

(** The run of the prover on the instance. *)
Definition log : list event := fst (Prove env spr pk w opt).

Definition proof : Proof :=
  match snd (Prove env spr pk w opt) with
  | Returned (Some p) _ => p
  | _ => emptyProof
  end.



End Demo.

(** ** Trial division *)

(** None of [d], [d + 1], ..., [d + k - 1] divides [n]. *)
Fixpoint no_divisor (n : Z) (k : nat) (d : Z) : bool :=
  match k with
  | O => true
  | S k' => negb (n mod d =? 0) && no_divisor n k' (d + 1)
  end.

Definition is_prime (n : Z) : bool :=
  (1 <? n) && no_divisor n (Z.to_nat (Z.sqrt n - 1)) 2.

(** Four prime factors of [q - 1] that divide the order of 2; their product
    exceeds 2^64. *)
Definition order_factors : list Z := [983; 11003; 237073; 405928799].

(** ** A small compressor

    Externals for which the suffix array never finds a match: every symbol
    that can be written directly is, and a reserved symbol stops the run. *)
Module DemoLz.

Import Lzss.

Definition ext : Externals :=
  {| maxInputSize := 4;
     maxDictSize := 8;
     symbolDict := Byte.xff;
     symbolShort := Byte.xfe;
     symbolLong := Byte.xfd;
     newBackRefType := fun sym a l d =>
       {| delimiter := sym; nbBitsAddress := a; nbBitsLength := l;
          nbBitsBackRef := 8 + a + l; nbBytesBackRef := (8 + a + l + 7) / 8;
          maxAddress := 2 ^ a; maxLength := 2 ^ l; dictOnly := d |};
     savings := fun b => if bool_decide (length b = -1) then -1
                         else length b - nbBytesBackRef (bType b);
     LookupLongest := fun _ _ _ _ _ _ => (-1, -1);
     TryError := fun _ => None;
     Close := fun _ => None;
     Bytes := fun out => flat_map (fun o => match o with
                                            | WByte b => [b]
                                            | WBackref _ _ => []
                                            end) out |}.

Definition c : Compressor :=
  {| buf := []; inputIndex := None; dictData := []; dictIndex := [];
     compressionMode := 8 |}.

Definition small : list byte := [Byte.x01; Byte.x02].
Definition large : list byte := [Byte.x01; Byte.x02; Byte.x03; Byte.x04; Byte.x05].

(** The candidates with which [Compress] enters its loop. *)
Definition start : loop_state :=
  match initBackRefTypes ext 0 8 with
  | Val (s, l, d) =>
      {| out := [];
         cands := {| bDict := {| address := -1; length := -1; bType := d |};
                     bShort := {| address := -1; length := -1; bType := s |};
                     bLong := {| address := -1; length := -1; bType := l |} |};
         pos := 0 |}
  | _ => {| out := [];
            cands := let t := newBackRefType ext Byte.x00 0 0 false in
                     let b := {| address := -1; length := -1; bType := t |} in
                     {| bDict := b; bShort := b; bLong := b |};
            pos := 0 |}
  end.

(** The length of the common prefix of two slices. *)
Fixpoint match_len (a b : list byte) : nat :=
  match a, b with
  | x :: a', y :: b' => if Byte.eqb x y then S (match_len a' b') else O
  | _, _ => O
  end.

(** A search by brute force: the first longest match of a prefix of [pat], at
    most [maxL] long, at a position of [s, e) of the indexed data; no match
    when it is shorter than [minL] or empty. *)
Definition lookup (idx pat : list byte) (minL maxL s e : Z) : Z * Z :=
  let cand :=
    map (fun p => (Z.of_nat p, Z.min maxL (Z.of_nat (match_len (drop p idx) pat))))
      (seq (Z.to_nat s) (Z.to_nat (e - s))) in
  let best := fold_left (fun acc c => if snd c >? snd acc then c else acc) cand (-1, -1) in
  if (snd best <? minL) || (snd best <? 1) then (-1, -1) else best.

Definition naive : Externals :=
  {| maxInputSize := 64;
     maxDictSize := 16;
     symbolDict := Byte.xff;
     symbolShort := Byte.xfe;
     symbolLong := Byte.xfd;
     newBackRefType := fun sym a l d =>
       {| delimiter := sym; nbBitsAddress := Z.max 0 a; nbBitsLength := Z.max 0 l;
          nbBitsBackRef := 8 + Z.max 0 a + Z.max 0 l;
          nbBytesBackRef := (8 + Z.max 0 a + Z.max 0 l + 7) / 8;
          maxAddress := 2 ^ Z.max 0 a; maxLength := 2 ^ Z.max 0 l; dictOnly := d |};
     savings := fun b => if bool_decide (length b = -1) then -1 else length b;
     LookupLongest := lookup;
     TryError := fun _ => None;
     Close := fun _ => None;
     Bytes := fun out => flat_map (fun o => match o with
                                            | WByte b => [b]
                                            | WBackref b _ => [delimiter (bType b)]
                                            end) out |}.

(** A compressor whose dictionary ends with the reserved symbols. *)
Definition with_dict : Compressor :=
  {| buf := []; inputIndex := None;
     dictData := [Byte.x61; Byte.x62; Byte.xff; Byte.xfe; Byte.xfd];
     dictIndex := [Byte.x61; Byte.x62; Byte.xff; Byte.xfe; Byte.xfd];
     compressionMode := 8 |}.

(** "abcdabcdabcdabcd" *)
Definition text : list byte :=
  [Byte.x61; Byte.x62; Byte.x63; Byte.x64; Byte.x61; Byte.x62; Byte.x63; Byte.x64;
   Byte.x61; Byte.x62; Byte.x63; Byte.x64; Byte.x61; Byte.x62; Byte.x63; Byte.x64].

End DemoLz.

(** [holds Q r]: the run [r] satisfies [Q]. The wrapper keeps the run in one
    place while it is executed step by step. *)
Definition holds {A} (Q : A -> Prop) (x : A) : Prop := Q x.

(* ================================================================== *)
(** * Properties *)
(* ================================================================== *)

(** ** Slices and loops *)
Section GoFacts.

Context {A : Type}.
Implicit Types (l : list A) (i j : Z) (v : A).

Lemma len_nonneg l : 0 <= Go.len l.
Proof. unfold Go.len. lia. Qed.

Lemma index_Some l i v :
  Go.index l i = Some v <-> 0 <= i /\ l !! Z.to_nat i = Some v.
Proof.
  unfold Go.index. case_bool_decide; split; intros; try tauto; try discriminate.
Qed.

Lemma index_lt l i v : Go.index l i = Some v -> 0 <= i < Go.len l.
Proof.
  intros [H0 H1]%index_Some. apply lookup_lt_Some in H1. unfold Go.len. lia.
Qed.

Lemma index_is_Some l i : 0 <= i < Go.len l -> is_Some (Go.index l i).
Proof.
  intros Hi. unfold Go.index. rewrite bool_decide_true by lia.
  apply lookup_lt_is_Some. unfold Go.len in Hi. lia.
Qed.

Lemma store_is_Some l i v : 0 <= i < Go.len l -> is_Some (Go.store l i v).
Proof. intros Hi. unfold Go.store. rewrite bool_decide_true by done. eauto. Qed.

Lemma store_inv l l' i v :
  Go.store l i v = Some l' -> 0 <= i < Go.len l /\ l' = <[Z.to_nat i := v]> l.
Proof. unfold Go.store. case_bool_decide; [|done]. intros [= <-]. done. Qed.

Lemma len_store l l' i v : Go.store l i v = Some l' -> Go.len l' = Go.len l.
Proof.
  intros [_ ->]%store_inv. unfold Go.len. by rewrite length_insert.
Qed.

Lemma index_store_eq l l' i v : Go.store l i v = Some l' -> Go.index l' i = Some v.
Proof.
  intros [Hi ->]%store_inv. apply index_Some. split; [lia|].
  apply list_lookup_insert_eq. unfold Go.len in Hi. lia.
Qed.

Lemma index_store_ne l l' i j v :
  Go.store l i v = Some l' -> j <> i -> Go.index l' j = Go.index l j.
Proof.
  intros [Hi ->]%store_inv Hne. unfold Go.index. case_bool_decide; [|done].
  apply list_lookup_insert_ne. lia.
Qed.

Lemma len_make (z : A) n l : Go.make z n = Some l -> Go.len l = n.
Proof.
  unfold Go.make. case_bool_decide; [|done]. intros [= <-].
  unfold Go.len. rewrite length_replicate. lia.
Qed.

Lemma make_is_Some (z : A) n : 0 <= n -> is_Some (Go.make z n).
Proof. intros Hn. unfold Go.make. rewrite bool_decide_true by done. eauto. Qed.

Lemma slice_inv l l' a b :
  Go.slice l a b = Some l' ->
  0 <= a <= b /\ b <= Go.len l /\ l' = take (Z.to_nat (b - a)) (drop (Z.to_nat a) l).
Proof. unfold Go.slice. case_bool_decide; [|done]. intros [= <-]. tauto. Qed.

Lemma len_slice l l' a b : Go.slice l a b = Some l' -> Go.len l' = b - a.
Proof.
  intros (Ha & Hb & ->)%slice_inv. unfold Go.len in *.
  rewrite length_take, length_drop. lia.
Qed.

Lemma index_slice l l' a b i :
  Go.slice l a b = Some l' -> 0 <= i < b - a -> Go.index l' i = Go.index l (a + i).
Proof.
  intros (Ha & Hb & ->)%slice_inv Hi. unfold Go.index.
  rewrite !bool_decide_true by lia.
  rewrite lookup_take_lt by lia. rewrite lookup_drop. f_equal. lia.
Qed.

End GoFacts.

Section LoopFacts.

Context {S : Type}.

(** An invariant carried through a loop that does not panic. *)
Lemma for_range_inv (Inv : Z -> S -> Prop) (body : Z -> S -> option S) k :
  forall i st st',
    Inv i st ->
    (forall j s s', i <= j < i + Z.of_nat k -> Inv j s -> body j s = Some s' -> Inv (j + 1) s') ->
    Go.for_range k i body st = Some st' ->
    Inv (i + Z.of_nat k) st'.
Proof.
  induction k as [|k IH]; intros i st st' Hi Hstep Hrun; simpl in Hrun.
  - injection Hrun as <-. by replace (i + Z.of_nat 0) with i by lia.
  - destruct (body i st) as [s1|] eqn:Hb; [|done].
    replace (i + Z.of_nat (Datatypes.S k)) with ((i + 1) + Z.of_nat k) by lia.
    apply (IH (i + 1) s1); [|intros; eapply Hstep; [lia|done..]|done].
    eapply Hstep; [lia|done..].
Qed.

(** A loop whose body cannot panic under the invariant runs to its end. *)
Lemma for_range_total (Inv : Z -> S -> Prop) (body : Z -> S -> option S) k :
  forall i st,
    Inv i st ->
    (forall j s, i <= j < i + Z.of_nat k -> Inv j s ->
                 exists s', body j s = Some s' /\ Inv (j + 1) s') ->
    exists st', Go.for_range k i body st = Some st' /\ Inv (i + Z.of_nat k) st'.
Proof.
  induction k as [|k IH]; intros i st Hi Hstep; simpl.
  - exists st. split; [done|]. by replace (i + Z.of_nat 0) with i by lia.
  - destruct (Hstep i st) as (s1 & Hb & Hi1); [lia|done|]. rewrite Hb.
    replace (i + Z.of_nat (Datatypes.S k)) with ((i + 1) + Z.of_nat k) by lia.
    apply IH; [done|]. intros. apply Hstep; [lia|done].
Qed.

End LoopFacts.

(** ** evaluateLROSmallDomain *)
Section EvaluateLRO.

Import Plonk PlonkSpec.

Implicit Types (l r o : list fr) (spr : SparseR1CS) (pk : ProvingKey).

Lemma row_store_eq l r o l' r' o' i vl vr vo :
  Go.store l i vl = Some l' -> Go.store r i vr = Some r' -> Go.store o i vo = Some o' ->
  row l' r' o' i vl vr vo.
Proof. intros Hl Hr Ho. repeat split; by eapply index_store_eq. Qed.

Lemma row_store_ne l r o l' r' o' i k vl vr vo a b c :
  Go.store l i vl = Some l' -> Go.store r i vr = Some r' -> Go.store o i vo = Some o' ->
  k <> i -> row l r o k a b c -> row l' r' o' k a b c.
Proof.
  intros Hl Hr Ho Hne (H1 & H2 & H3). unfold row.
  by rewrite (index_store_ne _ _ _ _ _ Hl Hne), (index_store_ne _ _ _ _ _ Hr Hne),
    (index_store_ne _ _ _ _ _ Ho Hne).
Qed.

Lemma lens_store s l r o l' r' o' i vl vr vo :
  Go.store l i vl = Some l' -> Go.store r i vr = Some r' -> Go.store o i vo = Some o' ->
  lens s (l, r, o) -> lens s (l', r', o').
Proof.
  intros Hl Hr Ho (H1 & H2 & H3). unfold lens; simpl in *.
  by rewrite (len_store _ _ _ _ Hl), (len_store _ _ _ _ Hr), (len_store _ _ _ _ Ho).
Qed.

Ltac bind_inv H :=
  repeat match type of H with
  | (match ?x with _ => _ end) = Some _ => destruct x eqn:?; simpl in H; [|discriminate H]
  | mbind _ ?x = Some _ => destruct x eqn:?; simpl in H; [|discriminate H]
  | (if ?b then _ else _) = Some _ => destruct b eqn:?; simpl in H
  end.

(** Whenever [evaluateLROSmallDomain] returns, its result is made of the
    public-input rows, the gate rows and the padding rows. *)
Lemma evaluateLROSmallDomain_inv spr pk solution l r o :
  evaluateLROSmallDomain spr pk solution = Some (l, r, o) ->
  lro_rows spr pk solution l r o.
Proof.
  unfold evaluateLROSmallDomain, lro_rows.
  set (s := Go.int_of_u64 _). set (p := Go.len (Public spr)).
  set (g := Go.len (Constraints spr)).
  intros Hrun.
  destruct (Go.make Fr.zero s) as [l0|] eqn:Hmake; simpl in Hrun; [|done].
  destruct (Go.index solution 0) as [s0|] eqn:Hs0; simpl in Hrun; [|done].
  pose proof (len_make _ _ _ Hmake) as Hl0.
  (* placeholders *)
  match type of Hrun with
  | mbind _ (Go.for_upto _ ?body ?st) = _ =>
      destruct (Go.for_upto p body st) as [[[l1 r1] o1]|] eqn:Hloop1; simpl in Hrun; [|done]
  end.
  pose (Inv1 := fun (i : Z) (st : lro) =>
    lens s st /\
    forall k, 0 <= k < i ->
      exists v, Go.index solution k = Some v /\ row st.1.1 st.1.2 st.2 k v s0 s0).
  apply (for_range_inv Inv1) in Hloop1 as [Hlen1 Hrows1]; cycle 1.
  { split; [done|]. intros k ?. lia. }
  { intros j [[la ra] oa] [[lb rb] ob] Hj [Hlen Hrows] Hbody. simpl in Hbody.
    bind_inv Hbody. injection Hbody as <- <- <-.
    split; [by eapply lens_store|].
    intros k Hk. destruct (decide (k = j)) as [->|Hne].
    - eexists. split; [done|]. by eapply row_store_eq.
    - destruct (Hrows k) as (v & Hv & Hrow); [lia|].
      exists v. split; [done|]. by eapply row_store_ne. }
  simpl in Hrows1.
  (* constraints *)
  match type of Hrun with
  | mbind _ (Go.for_upto _ ?body ?st) = _ =>
      destruct (Go.for_upto g body st) as [[[l2 r2] o2]|] eqn:Hloop2; simpl in Hrun; [|done]
  end.
  pose (Inv2 := fun (i : Z) (st : lro) =>
    lens s st /\
    (forall k, 0 <= k < p ->
      exists v, Go.index solution k = Some v /\ row st.1.1 st.1.2 st.2 k v s0 s0) /\
    forall j c, 0 <= j < i -> Go.index (Constraints spr) j = Some c ->
      exists vl vr vo,
        Go.index solution (WireID (L c)) = Some vl /\
        Go.index solution (WireID (R c)) = Some vr /\
        Go.index solution (WireID (O c)) = Some vo /\
        row st.1.1 st.1.2 st.2 (p + j) vl vr vo).
  apply (for_range_inv Inv2) in Hloop2 as (Hlen2 & Hrows2 & Hgates2); cycle 1.
  { split; [done|]. split; [|intros; lia].
    intros k Hk. apply Hrows1. unfold p, Go.len in *. lia. }
  { intros j [[la ra] oa] [[lb rb] ob] Hj (Hlen & Hrows & Hgates) Hbody. simpl in Hbody.
    bind_inv Hbody. injection Hbody as <- <- <-.
    split; [by eapply lens_store|]. split.
    - intros k Hk. destruct (Hrows k) as (v & Hv & Hrow); [done|].
      exists v. split; [done|]. eapply row_store_ne; [done..|lia|done].
    - intros j' c' Hj' Hc'. destruct (decide (j' = j)) as [->|Hne].
      + assert (c' = s1) as -> by congruence.
        do 3 eexists. repeat (split; [done|]). by eapply row_store_eq.
      + destruct (Hgates j' c') as (vl & vr & vo & ? & ? & ? & Hrow); [lia|done|].
        exists vl, vr, vo. repeat (split; [done|]).
        eapply row_store_ne; [done..|lia|done]. }
  simpl in Hrows2, Hgates2.
  (* padding *)
  pose (Inv3 := fun (i : Z) (st : lro) =>
    lens s st /\
    (forall k, 0 <= k < p ->
      exists v, Go.index solution k = Some v /\ row st.1.1 st.1.2 st.2 k v s0 s0) /\
    (forall j c, Go.index (Constraints spr) j = Some c ->
      exists vl vr vo,
        Go.index solution (WireID (L c)) = Some vl /\
        Go.index solution (WireID (R c)) = Some vr /\
        Go.index solution (WireID (O c)) = Some vo /\
        row st.1.1 st.1.2 st.2 (p + j) vl vr vo) /\
    forall k, p + g <= k < p + g + i -> row st.1.1 st.1.2 st.2 k s0 s0 s0).
  assert (0 <= p /\ 0 <= g) as [Hp Hg] by (unfold p, g, Go.len; lia).
  apply (for_range_inv Inv3) in Hrun as ((Hlen_l & Hlen_r & Hlen_o) & Hrows3 & Hgates3 & Hpad3);
    cycle 1.
  { split; [done|]. split; [done|]. split; [|intros; lia].
    intros j c Hc. apply Hgates2; [|done].
    apply index_lt in Hc. unfold g, Go.len in *. lia. }
  { intros j [[la ra] oa] [[lb rb] ob] Hj (Hlen & Hrows & Hgates & Hpad) Hbody.
    simpl in Hbody. bind_inv Hbody. injection Hbody as <- <- <-.
    split; [by eapply lens_store|]. split; [|split].
    - intros k Hk. destruct (Hrows k) as (v & Hv & Hrow); [done|].
      exists v. split; [done|]. eapply row_store_ne; [done..|lia|done].
    - intros j' c' Hc'.
      destruct (Hgates j' c') as (vl & vr & vo & ? & ? & ? & Hrow); [done|].
      exists vl, vr, vo. repeat (split; [done|]).
      apply index_lt in Hc'. fold g in Hc'.
      eapply row_store_ne; [done..|lia|done].
    - intros k Hk. destruct (decide (k = p + g + j)) as [->|Hne].
      + by eapply row_store_eq.
      + eapply row_store_ne; [done..|]. apply Hpad. lia. }
  simpl in *. repeat (split; [done|]).
  exists s0. repeat (split; [done|]).
  intros k Hk. apply Hpad3. lia.
Qed.

End EvaluateLRO.

Section EvaluateLROTotal.

Import Plonk PlonkSpec.

Lemma store3_total s (l r o : list fr) i (vl vr vo : fr) :
  lens s (l, r, o) -> 0 <= i < s ->
  exists l' r' o',
    Go.store l i vl = Some l' /\ Go.store r i vr = Some r' /\
    Go.store o i vo = Some o' /\ lens s (l', r', o').
Proof.
  intros Hlen Hi. pose proof Hlen as (Hl & Hr & Ho). simpl in *.
  destruct (store_is_Some l i vl) as [l' Hl']; [lia|].
  destruct (store_is_Some r i vr) as [r' Hr']; [lia|].
  destruct (store_is_Some o i vo) as [o' Ho']; [lia|].
  exists l', r', o'. repeat (split; [done|]). by eapply lens_store.
Qed.

(** On well-formed inputs [evaluateLROSmallDomain] does not panic. *)
Lemma evaluateLROSmallDomain_total spr pk solution :
  lro_inputs spr pk solution ->
  is_Some (evaluateLROSmallDomain spr pk solution).
Proof.
  intros (Hcard & Hfit & Hsol & Hpub & Hwires).
  unfold evaluateLROSmallDomain, Go.for_upto.
  assert (Go.int_of_u64 (Cardinality (Domain0 pk)) = Cardinality (Domain0 pk)) as ->.
  { unfold Go.int_of_u64. by rewrite bool_decide_true by lia. }
  set (s := Cardinality (Domain0 pk)) in *.
  set (p := Go.len (Public spr)) in *. set (g := Go.len (Constraints spr)) in *.
  assert (0 <= p /\ 0 <= g) as [Hp Hg] by (unfold p, g, Go.len; lia).
  destruct (make_is_Some Fr.zero s) as [l0 Hmake]; [lia|]. rewrite Hmake. simpl.
  pose proof (len_make _ _ _ Hmake) as Hl0.
  destruct (index_is_Some solution 0) as [s0 Hs0]; [lia|]. rewrite Hs0. simpl.
  (* placeholders *)
  match goal with
  | |- is_Some (mbind _ ?t) =>
      assert (exists st', t = Some st' /\ lens s st') as (st1 & Hloop1 & Hlen1)
  end.
  { apply (for_range_total (fun _ x => lens s x)); [done|].
    intros j [[l r] o] Hj Hlen. simpl.
    destruct (index_is_Some solution j) as [v ->]; [lia|]. simpl.
    destruct (store3_total s l r o j v s0 s0) as (l' & r' & o' & -> & -> & -> & ?);
      [done|lia|]. simpl. eauto. }
  rewrite Hloop1. simpl.
  (* constraints *)
  match goal with
  | |- is_Some (mbind _ ?t) =>
      assert (exists st', t = Some st' /\ lens s st') as (st2 & Hloop2 & Hlen2)
  end.
  { apply (for_range_total (fun _ x => lens s x)); [done|].
    intros j [[l r] o] Hj Hlen. simpl.
    destruct (index_is_Some (Constraints spr) j) as [c Hc]; [unfold g in *; lia|].
    rewrite Hc. simpl.
    apply index_Some in Hc as [_ Hc].
    apply (proj1 (Forall_lookup _ _) Hwires) in Hc as (HL & HR & HO).
    destruct (index_is_Some solution (WireID (L c))) as [vl ->]; [done|].
    destruct (index_is_Some solution (WireID (R c))) as [vr ->]; [done|].
    destruct (index_is_Some solution (WireID (O c))) as [vo ->]; [done|]. simpl.
    destruct (store3_total s l r o (p + j) vl vr vo)
      as (l' & r' & o' & -> & -> & -> & ?); [done|lia|]. simpl. eauto. }
  rewrite Hloop2. simpl.
  (* padding *)
  match goal with
  | |- is_Some ?t =>
      assert (exists st', t = Some st' /\ lens s st') as (st3 & Hloop3 & Hlen3)
  end.
  { apply (for_range_total (fun _ x => lens s x)); [done|].
    intros j [[l r] o] Hj Hlen. simpl.
    destruct (store3_total s l r o (p + g + j) s0 s0 s0)
      as (l' & r' & o' & -> & -> & -> & ?); [done|lia|]. simpl. eauto. }
  rewrite Hloop3. eauto.
Qed.

(** C3. On every input on which it does not panic (the rows fit in the small
    domain and the wires index the solution), [evaluateLROSmallDomain] returns
    three columns of the cardinality of the small domain: row [i] of a public
    input holds [solution[i]] in L and [solution[0]] in R and O; row
    [publicCount + j] holds the solution values at the wires of gate [j]; every
    later row holds [solution[0]] in the three columns. *)
Theorem evaluateLROSmallDomain_rows spr pk solution :
  lro_inputs spr pk solution ->
  exists l r o,
    evaluateLROSmallDomain spr pk solution = Some (l, r, o) /\
    lro_rows spr pk solution l r o.
Proof.
  intros Hin. destruct (evaluateLROSmallDomain_total _ _ _ Hin) as [[[l r] o] Hrun].
  exists l, r, o. split; [done|]. by apply evaluateLROSmallDomain_inv.
Qed.

End EvaluateLROTotal.

(** ** Running the prover symbolically *)

Section Stepping.

Import Plonk.

Lemma bind_bind {A B C} (m : Prover A) (f : A -> Prover B) (g : B -> Prover C) log :
  bind (bind m f) g log = bind m (fun x => bind (f x) g) log.
Proof. unfold bind. destruct (m log) as [log' [a| |]]; reflexivity. Qed.

End Stepping.

Ltac cleanup := cbn beta iota delta [fst snd].

(** One step of the run at the head of the goal [holds Q (m log)]: a [let] is
    named, a call is logged and its answer named, a test is split. *)
Ltac step :=
  lazymatch goal with
  | |- holds ?Q ((let x := ?v in @?b x) ?log) =>
      let y := fresh x in
      let Hy := fresh "D" y in
      change (holds Q ((fun x => b x log) v));
      remember v as y eqn:Hy; cbv beta
  | |- holds ?Q (Plonk.bind (let x := ?v in @?b x) ?k ?log) =>
      let y := fresh x in
      let Hy := fresh "D" y in
      change (holds Q ((fun x => Plonk.bind (b x) k log) v));
      remember v as y eqn:Hy; cbv beta
  | |- holds ?Q (Plonk.bind (Plonk.bind ?m ?f) ?g ?log) => rewrite (bind_bind m f g log)
  | |- holds ?Q (Plonk.bind (Plonk.ret ?a) ?k ?log) => change (holds Q (k a log)); cleanup
  | |- holds ?Q (Plonk.bind (Plonk.go_return ?p ?e) ?k ?log) =>
      change (holds Q (log, Plonk.Return p e))
  | |- holds ?Q (Plonk.go_return ?p ?e ?log) =>
      change (holds Q (log, Plonk.Return p e))
  | |- holds ?Q (Plonk.bind (Plonk.call ?ev ?f) ?k ?log) =>
      let t := eval cbv beta in (f log) in
      change (holds Q (k t (log ++ [ev])));
      cbv beta;
      lazymatch type of t with
      | prod _ _ => destruct t as [? ?] eqn:?
      | _ => let e := fresh "e" in remember t as e
      end;
      cleanup
  | |- holds ?Q (Plonk.bind (Plonk.try (Some ?a)) ?k ?log) =>
      change (holds Q (k a log)); cleanup
  | |- holds ?Q (Plonk.bind (Plonk.try None) ?k ?log) =>
      change (holds Q (log, Plonk.Panic))
  | |- holds ?Q (Plonk.bind (Plonk.try ?o) ?k ?log) => destruct o eqn:?
  | |- holds ?Q (Plonk.bind (Plonk.check ?p (?a, Some ?e)) ?k ?log) =>
      change (holds Q (log, Plonk.Return p (Some e)))
  | |- holds ?Q (Plonk.bind (Plonk.check ?p (?a, None)) ?k ?log) =>
      change (holds Q (k a log)); cleanup
  | |- holds ?Q (Plonk.bind (Plonk.check ?p (?a, ?oe)) ?k ?log) => destruct oe
  | |- holds ?Q (Plonk.bind (match ?o with Some c => _ | None => _ end) ?k ?log) =>
      destruct o; cleanup
  | |- holds ?Q (Plonk.bind (if ?b then _ else _) ?k ?log) =>
      destruct b eqn:?; cleanup
  | |- holds ?Q (Plonk.bind (Plonk.kzgCommit _ _ _) _ _) =>
      cbv beta delta [Plonk.kzgCommit]
  | |- holds ?Q (Plonk.bind (Plonk.fsBind _ _ _) _ _) =>
      cbv beta delta [Plonk.fsBind]
  | |- holds ?Q (Plonk.bind (Plonk.fsComputeChallenge _ _) _ _) =>
      cbv beta delta [Plonk.fsComputeChallenge]
  | |- holds ?Q (Plonk.bind (Plonk.bindPublicData _ _ _ _) _ _) =>
      cbv beta delta [Plonk.bindPublicData]
  | |- holds ?Q (Plonk.bind (Plonk.commitToLRO _ _ _ _ _ _) _ _) =>
      cbv beta delta [Plonk.commitToLRO]
  | |- holds ?Q (Plonk.bind (Plonk.commitToQuotient _ _ _ _ _ _) _ _) =>
      cbv beta delta [Plonk.commitToQuotient]
  | |- holds ?Q (Plonk.bind (Plonk.deriveRandomness _ _ _) _ _) =>
      cbn beta iota delta [Plonk.deriveRandomness]
  end.

(** A run of [proveWithSolution], taken to its leaves. *)
Ltac run_prover :=
  cbv beta delta [Plonk.proveWithSolution]; repeat step.

(** A leaf that does not return a proof without error. *)
Ltac not_a_success :=
  lazymatch goal with
  | |- holds _ (_, Plonk.Panic) => unfold holds; intros [=]
  | |- holds _ (_, Plonk.Return None _) => unfold holds; intros [=]
  | |- holds _ (_, Plonk.Return _ (Some _)) => unfold holds; intros [=]
  end.



(** ** Field arithmetic *)
Section FrFacts.

#[local] Instance eqm_q_equiv : Equivalence (eqm Fr.q) := eqm_setoid Fr.q.
#[local] Instance add_eqm_q : Proper (eqm Fr.q ==> eqm Fr.q ==> eqm Fr.q) Z.add :=
  Zplus_eqm Fr.q.
#[local] Instance mul_eqm_q : Proper (eqm Fr.q ==> eqm Fr.q ==> eqm Fr.q) Z.mul :=
  Zmult_eqm Fr.q.

Lemma q_pos : 0 < Fr.q.
Proof. reflexivity. Qed.

Lemma exp_pos_spec a e : Fr.exp_pos a e = a ^ Zpos e mod Fr.q.
Proof.
  induction e as [e IH|e IH|]; simpl Fr.exp_pos.
  - unfold Fr.mul, Fr.square. rewrite IH.
    replace (Zpos e~1) with (1 + (Zpos e + Zpos e)) by lia.
    rewrite Z.pow_add_r, Z.pow_1_r, Z.pow_add_r by lia.
    rewrite <- Z.mul_mod by (unfold Fr.q; lia).
    rewrite Z.mul_mod_idemp_r by (unfold Fr.q; lia). reflexivity.
  - unfold Fr.square. rewrite IH.
    replace (Zpos e~0) with (Zpos e + Zpos e) by lia.
    rewrite Z.pow_add_r by lia.
    rewrite <- Z.mul_mod by (unfold Fr.q; lia). reflexivity.
  - by rewrite Z.pow_1_r.
Qed.

Lemma exp_spec a e : 0 <= e -> Fr.exp a e = a ^ e mod Fr.q.
Proof.
  intros He. destruct e as [|e|e]; [reflexivity| |lia]. apply exp_pos_spec.
Qed.

Lemma exp_double a m : 0 <= m -> Fr.exp a (2 * m) = Fr.mul (Fr.exp a m) (Fr.exp a m).
Proof.
  intros Hm. rewrite !exp_spec by lia. unfold Fr.mul.
  replace (2 * m) with (m + m) by lia. rewrite Z.pow_add_r by lia.
  apply Z.mul_mod. unfold Fr.q; lia.
Qed.

(** The folding of the source, written as the combination of the
    specification. *)
Lemma fold_horner h1 h2 h3 zp :
  Fr.add (Fr.mul (Fr.add (Fr.mul h3 zp) h2) zp) h1
  = Fr.add h1 (Fr.add (Fr.mul zp h2) (Fr.mul (Fr.mul zp zp) h3)).
Proof.
  unfold Fr.add, Fr.mul.
  match goal with |- ?x mod _ = ?y mod _ => change (eqm Fr.q x y) end.
  rewrite !(Zmod_eqm Fr.q). unfold eqm. f_equal. ring.
Qed.

End FrFacts.

(** ** The folding pass *)
Section FoldH.

Import Plonk.

Lemma foldH_spec h1 h2 h3 zp folded :
  foldH h1 h2 h3 zp = Some folded ->
  Go.len folded = Go.len h3 /\
  forall i, 0 <= i < Go.len h3 ->
    exists a b c,
      Go.index h1 i = Some a /\ Go.index h2 i = Some b /\ Go.index h3 i = Some c /\
      Go.index folded i = Some (Fr.add (Fr.mul (Fr.add (Fr.mul c zp) b) zp) a).
Proof.
  unfold foldH, Go.parallelize, Go.for_upto. intros Hrun.
  pose (Inv := fun (i : Z) (cur : list fr) =>
    Go.len cur = Go.len h3 /\
    forall j,
      (0 <= j < i ->
       exists a b c,
         Go.index h1 j = Some a /\ Go.index h2 j = Some b /\ Go.index h3 j = Some c /\
         Go.index cur j = Some (Fr.add (Fr.mul (Fr.add (Fr.mul c zp) b) zp) a)) /\
      (i <= j -> Go.index cur j = Go.index h3 j)).
  apply (for_range_inv Inv) in Hrun as [Hlen Hcells].
  - split; [done|]. intros i Hi. apply Hcells. unfold Go.len in *. lia.
  - split; [done|]. intros j. split; [lia|done].
  - intros j cur cur' Hj [Hlen Hcells] Hbody.
    destruct (Go.index cur j) as [c|] eqn:Hc; simpl in Hbody; [|done].
    destruct (Go.index h2 j) as [b|] eqn:Hb; simpl in Hbody; [|done].
    destruct (Go.index h1 j) as [a|] eqn:Ha; simpl in Hbody; [|done].
    split; [by rewrite (len_store _ _ _ _ Hbody)|].
    intros k. split.
    + intros Hk. destruct (decide (k = j)) as [->|Hne].
      * exists a, b, c. rewrite <- (proj2 (Hcells j)) by lia.
        repeat (split; [done|]). by eapply index_store_eq.
      * rewrite (index_store_ne _ _ _ _ _ Hbody) by done. apply Hcells. lia.
    + intros Hk. rewrite (index_store_ne _ _ _ _ _ Hbody) by lia. apply Hcells. lia.
Qed.

End FoldH.

(** ** The fork and join of the commitments *)
Section ForkFacts.

Import Plonk Fork.

Context (c0 c1 c2 : Digest * option error) (slots : arr3 Digest).

Lemma fork_inv_init : fork_inv c0 c1 c2 (init slots).
Proof. unfold fork_inv, init; simpl. repeat split; intros; congruence. Qed.

Lemma fork_inv_step s s' :
  fork_inv c0 c1 c2 s -> step c0 c1 c2 s s' -> fork_inv c0 c1 c2 s'.
Proof.
  intros Hinv Hstep. unfold fork_inv, joined in *.
  destruct Hstep as [s H0|s H0|s H1|s H1|s Hm|s Hm H0|s Hm H1]; simpl.
  1-4, 6: split_and!; naive_solver congruence.
  - destruct (snd c2) as [e2|] eqn:Hc2; split_and!; naive_solver congruence.
  - destruct Hinv as (_ & Hb & _ & Hd & He & _ & Hg & _).
    destruct (Hg Hm) as [Hc2 Hg0].
    destruct (Hb ltac:(congruence)) as [Hs0 He0].
    destruct (Hd ltac:(congruence)) as [Hs1 He1].
    split_and!; try (intros; congruence); try tauto.
    + intros _. apply He. congruence.
    + intros e [= <-]. right. rewrite He0, He1. done.
Qed.

Lemma fork_inv_reachable s : reachable c0 c1 c2 slots s -> fork_inv c0 c1 c2 s.
Proof.
  unfold reachable. revert s. apply rtc_ind_r; [apply fork_inv_init|].
  intros s1 s2 _ Hstep IH. by eapply fork_inv_step.
Qed.

(** X18. No interleaving of [commitToLRO] or [commitToQuotient] blocks: from
    every state that the three paths can reach, the calling path can still
    run to its [return]. *)
Lemma fork_returns s :
  reachable c0 c1 c2 slots s ->
  exists s' e, rtc (step c0 c1 c2) s s' /\ main s' = MReturned e.
Proof.
  intros Hr. pose proof (fork_inv_reachable s Hr) as Hinv.
  assert (forall s, main s = MRecv1 ->
            exists s' e, rtc (step c0 c1 c2) s s' /\ main s' = MReturned e) as Hrecv1.
  { clear. intros s Hm.
    destruct (g1 s) eqn:H1; do 2 eexists.
    - split; [eapply rtc_l; [by apply go1_commit|]; eapply rtc_l; [by apply go1_close|];
             eapply rtc_once; by apply main_recv1|reflexivity].
    - split; [eapply rtc_l; [by apply go1_close|]; eapply rtc_once; by apply main_recv1
            |reflexivity].
    - split; [eapply rtc_once; by apply main_recv1|reflexivity]. }
  assert (forall s, main s = MRecv0 ->
            exists s' e, rtc (step c0 c1 c2) s s' /\ main s' = MReturned e) as Hrecv0.
  { clear -Hrecv1. intros s Hm.
    destruct (g0 s) eqn:H0.
    - edestruct Hrecv1 as (s' & e & Hs' & He); cycle 1.
      + exists s', e. split; [|done].
        eapply rtc_l; [by apply go0_commit|].
        eapply rtc_l; [by apply go0_close|].
        eapply rtc_l; [by apply main_recv0|]. exact Hs'.
      + reflexivity.
    - edestruct Hrecv1 as (s' & e & Hs' & He); cycle 1.
      + exists s', e. split; [|done].
        eapply rtc_l; [by apply go0_close|].
        eapply rtc_l; [by apply main_recv0|]. exact Hs'.
      + reflexivity.
    - edestruct Hrecv1 as (s' & e & Hs' & He); cycle 1.
      + exists s', e. split; [|done].
        eapply rtc_l; [by apply main_recv0|]. exact Hs'.
      + reflexivity. }
  destruct (main s) as [| | |e] eqn:Hm.
  - destruct (snd c2) as [e2|] eqn:Hc2.
    + do 2 eexists. split; [eapply rtc_once; by apply main_commit|].
      simpl. rewrite Hc2. reflexivity.
    + edestruct Hrecv0 as (s' & e & Hs' & He); cycle 1.
      * exists s', e. split; [|done].
        eapply rtc_l; [by apply main_commit|]. exact Hs'.
      * simpl. by rewrite Hc2.
  - by apply Hrecv0.
  - by apply Hrecv1.
  - exists s, e. split; [reflexivity|done].
Qed.

End ForkFacts.

(** C8 (as amended). In every interleaving of [commitToLRO] and of
    [commitToQuotient], the function returns the error of the commitment on
    the calling path when there is one; otherwise it has received from both
    goroutines before it returns, the three digests are then in their slots,
    and it returns the error of the first goroutine if there is one, else the
    error of the second. It returns no error exactly when none of the three
    commitments failed. *)
Theorem fork_join_waits (c0 c1 c2 : Plonk.Digest * option Plonk.error)
    (slots : Plonk.arr3 Plonk.Digest) (s : Fork.state) (e : option Plonk.error) :
  Fork.reachable c0 c1 c2 slots s ->
  Fork.main s = Fork.MReturned e ->
  e = Fork.returned_error c0 c1 c2 /\
  (snd c2 = None ->
     Fork.joined s /\
     Fork.slot0 s = fst c0 /\ Fork.slot1 s = fst c1 /\ Fork.slot2 s = fst c2) /\
  (snd c2 <> None -> e = snd c2) /\
  (e = None <-> snd c0 = None /\ snd c1 = None /\ snd c2 = None).
Proof.
  intros Hr Hm. apply fork_inv_reachable in Hr.
  destruct Hr as (Ha & Hb & Hc & Hd & He & Hf & Hg & Hh).
  unfold Fork.returned_error.
  destruct (Hh e Hm) as [(e2 & Hc2 & ->)|(Hc2 & [H0 H1] & ->)]; rewrite Hc2.
  - repeat split; try done. intros (_ & _ & [=]).
  - destruct (Hb ltac:(congruence)) as [Hs0 _].
    destruct (Hd ltac:(congruence)) as [Hs1 _].
    destruct (He ltac:(congruence)) as [Hs2 _].
    repeat split; try done.
    + destruct (snd c0); [done|tauto].
    + destruct (snd c0); [done|]. tauto.
    + intros (-> & -> & _). done.
Qed.

(** ** The compressor *)
Section LzssFacts.

Import Lzss LzssSpec.

Context (ext : Externals).

Lemma clean_nil : clean ext [].
Proof. intros b []. Qed.

Lemma clean_writeTo b out i : clean ext out -> clean ext (writeTo b out i).
Proof.
  intros Hc x Hin. unfold writeTo in Hin. apply in_app_or in Hin as [Hin|Hin]; [by apply Hc|].
  destruct Hin as [[=]|[]].
Qed.

Lemma writeByte_inv out b r :
  writeByte ext out b = r ->
  (canEncodeSymbol ext b = true /\ r = Val (out ++ [WByte b])) \/
  (canEncodeSymbol ext b = false /\ r = Panic CannotEncodeSymbol).
Proof.
  unfold writeByte. intros <-. destruct (canEncodeSymbol ext b); simpl; auto.
Qed.

Lemma clean_writeByte out b :
  clean ext out -> canEncodeSymbol ext b = true -> clean ext (out ++ [WByte b]).
Proof.
  intros Hc Hb x Hin. apply in_app_or in Hin as [Hin|Hin]; [by apply Hc|].
  destruct Hin as [[= <-]|[]]. done.
Qed.

Lemma findBackRef_ok c d i t m : search_ok (findBackRef ext c d i t m).
Proof.
  unfold findBackRef, rbind, inrange.
  repeat (case_match; simplify_eq/=; try done).
Qed.

Lemma fillBackrefs_ok c d bs i m : search_ok (fillBackrefs ext c d bs i m).
Proof.
  unfold fillBackrefs, rbind.
  pose proof (findBackRef_ok c d i (bType (bDict bs)) m).
  pose proof (findBackRef_ok c d i (bType (bShort bs)) m).
  pose proof (findBackRef_ok c d i (bType (bLong bs)) m).
  repeat (case_match; simplify_eq/=; try done).
Qed.

(** A round writes a byte only after [canEncodeSymbol] held for it, so that
    [writeByte] does not panic; the only error of a round is the missing
    back-reference at its position. *)
Lemma round_safe c d st : clean ext (out st) -> round_ok ext st (round ext c d st).
Proof.
  intros Hclean. unfold round_ok, round, rbind, inrange, writeByte.
  repeat first
    [ progress simpl
    | match goal with
      | |- context [match ?x with _ => _ end] =>
          lazymatch x with
          | context [match _ with _ => _ end] => fail
          | _ => destruct x eqn:?
          end
      end
    | progress simplify_eq/=
    | done
    | apply clean_writeTo
    | apply clean_writeByte ];
  try (match goal with
       | H : fillBackrefs ?e ?c ?d ?bs ?i ?m = _ |- _ =>
           pose proof (fillBackrefs_ok c d bs i m) as Hok; rewrite H in Hok; by simpl in Hok
       end);
  try (repeat match goal with
       | H : _ && _ = true |- _ => apply andb_prop in H as [? ?]
       | H : negb _ = false |- _ => apply negb_false_iff in H
       | H : negb _ = true |- _ => apply negb_true_iff in H
       end; congruence).
Qed.

End LzssFacts.

Section LzssLoop.

Import Lzss LzssSpec.

Context (ext : Externals).

(** The loop keeps the output clean, fails only for a missing back-reference
    and never panics in [writeByte]. *)
Lemma loop_safe fuel c d : forall st,
  clean ext (out st) ->
  clean ext (fst (loop ext fuel c d st)) /\
  match snd (loop ext fuel c d st) with
  | Fail e => exists i, e = ErrNoBackref i
  | Panic p => p <> CannotEncodeSymbol
  | Val _ | OutOfFuel => True
  end.
Proof.
  induction fuel as [|fuel IH]; intros st Hclean; simpl.
  - case_bool_decide; simpl; done.
  - case_bool_decide; simpl; [|done].
    pose proof (round_safe ext c d st Hclean) as Hround.
    destruct (round ext c d st) as [st'|e|p|]; simpl in *; eauto.
Qed.

Lemma initBackRefTypes_ok dictLen mode :
  match initBackRefTypes ext dictLen mode with
  | Val _ => True
  | Panic p => p = DivideByZero
  | Fail _ | OutOfFuel => False
  end.
Proof.
  unfold initBackRefTypes, wordAlign, rbind.
  repeat (case_match; simplify_eq/=; try done).
Qed.

(** The length of the input index is that of the input once the size check
    is passed. *)
Lemma Compress_passes fuel c d :
  Go.len d <= maxInputSize ext ->
  inputIndex (fst (Compress ext fuel c d)) = Some d /\
  clean ext (buf (fst (Compress ext fuel c d))) /\
  match snd (Compress ext fuel c d) with
  | Fail e => (exists i, e = ErrNoBackref i) \/ (exists m, e = ErrWriter m)
  | Panic p => p <> CannotEncodeSymbol
  | Val _ | OutOfFuel => True
  end.
Proof.
  intros Hlen. unfold Compress. rewrite bool_decide_false by lia.
  cbv zeta.
  match goal with
  | |- context [initBackRefTypes ext ?n ?m] =>
      pose proof (initBackRefTypes_ok n m) as Hinit;
      destruct (initBackRefTypes ext n m) as [[[short long] dict]|e|p|]
  end; simpl in *; try done.
  - match goal with
    | |- context [loop ext fuel ?c' d ?st] =>
        destruct (loop_safe fuel c' d st (clean_nil ext)) as [Hclean Hres];
        destruct (loop ext fuel c' d st) as [out [st'|e|p|]]
    end; simpl in *.
    + destruct (TryError ext out); simpl; [eauto|].
      destruct (Close ext out); simpl; eauto.
    + eauto.
    + eauto.
    + eauto.
  - subst p. repeat split; [apply (clean_nil ext)|done].
Qed.

End LzssLoop.

(** C9. An input longer than [maxInputSize] makes [Compress] return no output
    and the size error, the compressor being left as it was: nothing is
    written and no index is built. On any other input the size check does not
    fail: the error, if there is one, is another one, and the index of the
    input is built. *)
Theorem Compress_input_size (ext : Lzss.Externals) (fuel : nat)
    (c : Lzss.Compressor) (d : list Lzss.byte) :
  (Go.len d > Lzss.maxInputSize ext ->
     Lzss.Compress ext fuel c d
     = (c, Lzss.Fail (Lzss.ErrInputSize (Lzss.maxInputSize ext)))) /\
  (Go.len d <= Lzss.maxInputSize ext ->
     (forall m, snd (Lzss.Compress ext fuel c d) <> Lzss.Fail (Lzss.ErrInputSize m)) /\
     Lzss.inputIndex (fst (Lzss.Compress ext fuel c d)) = Some d).
Proof.
  split.
  - intros Hlen. unfold Lzss.Compress. by rewrite bool_decide_true by lia.
  - intros Hlen. destruct (Compress_passes ext fuel c d Hlen) as (Hidx & _ & Hres).
    split; [|done]. intros m Heq. rewrite Heq in Hres.
    destruct Hres as [[i [=]]|[msg [=]]].
Qed.


(** ** Complete runs of the prover *)
Section Success.

Import Plonk RunSpec Complete.
Context (env : Collaborators).

(** A run of [Prove] that returns a proof is a run of [proveWithSolution]
    that does. *)
Lemma Prove_success_inv spr pk w opt log proof :
  Prove env spr pk w opt = (log, Returned (Some proof) None) ->
  exists solution,
    to_outcome (proveWithSolution env spr pk w solution ([] ++ [EvSolve w]))
    = (log, Returned (Some proof) None).
Proof.
  unfold Prove.
  match goal with
  | |- to_outcome ?run = _ -> ?G =>
      change (holds (fun x => to_outcome x = (log, Returned (Some proof) None) -> G) run)
  end.
  cbv beta delta [ProveBody]. repeat step; try not_a_success.
  all: unfold holds; eauto.
Qed.

Ltac start_success :=
  let Q := fresh "Q" in
  match goal with
  | |- to_outcome ?run = ?rhs -> ?G =>
      pose (Q := fun x => to_outcome x = rhs -> G); change (holds Q run)
  end;
  run_prover;
  try (lazymatch goal with
       | |- holds _ (_, Plonk.Panic) => idtac
       | |- holds _ (_, Plonk.Return None _) => idtac
       | |- holds _ (_, Plonk.Return _ (Some _)) => idtac
       end; unfold holds; subst Q; cbv beta; cbn [to_outcome]; intros [=]);
  unfold holds; subst Q; cbv beta; cbn [to_outcome]; intros [= <- <-].

Ltac run_fields :=
  cbn [pub wliop wriop woiop gamma beta alpha zeta copies ziop operands
       plonkCapture h h1 h2 h3 zc blindedZ blzeta brzeta bozeta
       linearizedPolynomialCanonical linearizedPolynomialDigest foldedH pl pr po
       constraintsCapture ps_constraints capture_a ps_a capture_b ps_b capture_c ps_c
       capture_u ps_u capture_v ps_v capture_w ps_w orderingCapture ps_ordering
       startsAtOneCapture ps_startsAtOne].

Ltac proof_fields :=
  cbn [at0 at1 at2 LRO PZ H withLRO withZ withH withBatchedProof
       withZShiftedOpening set0 set1 set2 emptyProof].

Lemma proveWithSolution_complete spr pk w solution log proof :
  to_outcome (proveWithSolution env spr pk w solution ([] ++ [EvSolve w]))
    = (log, Returned (Some proof) None) ->
  exists r,
    log = log_of env pk w proof r /\ complete env spr pk w proof r /\
    wires env spr pk solution r.
Proof.
  start_success.
  subst.
  match goal with
  | H : evaluateLROSmallDomain spr pk solution = Some ?ev |- _ =>
      destruct ev as [[? ?] ?]
  end.
  unshelve eexists; [econstructor; shelve|].
  cbn [app transcript List.filter is_transcript at0 at1 at2 LRO PZ H BatchedProof
       ZShiftedOpening withLRO withZ withH withBatchedProof withZShiftedOpening
       set0 set1 set2 emptyProof fst snd] in *.
  split; [reflexivity|].
  split;
    [|unfold wires; run_fields; do 3 eexists; split; [eassumption|];
      unfold wire; repeat split; reflexivity].
  constructor; run_fields.
  all: try eassumption.
  all: try (do 2 eexists; eassumption).
  all: try reflexivity.
  all: unfold derived;
    cbn [derived_from log_of app String.eqb Ascii.eqb Bool.eqb transcript List.filter
         is_transcript];
    run_fields; proof_fields.
  all: match goal with
       | H : ComputeChallenge _ ?t ?l = _ |- context [ComputeChallenge _ ?t ?l] =>
           rewrite H
       end; reflexivity.
Qed.

(** A run of [Prove] that returns a proof made the calls of [log_of], and the
    values it went through are related as [complete] says. *)
Lemma Prove_complete spr pk w opt log proof :
  Prove env spr pk w opt = (log, Returned (Some proof) None) ->
  exists r, log = log_of env pk w proof r /\ complete env spr pk w proof r.
Proof.
  intros [solution Hrun]%Prove_success_inv.
  apply proveWithSolution_complete in Hrun as (r & Hlog & C & _). eauto.
Qed.

(** The solution of a run that returns a proof is the settled one. *)
Lemma Prove_success_settled spr pk w opt log proof :
  Prove env spr pk w opt = (log, Returned (Some proof) None) ->
  exists solution,
    settled env spr w opt = Some solution /\
    to_outcome (proveWithSolution env spr pk w solution ([] ++ [EvSolve w]))
    = (log, Returned (Some proof) None).
Proof.
  unfold Prove, settled.
  match goal with
  | |- to_outcome ?run = _ -> ?G =>
      change (holds (fun x => to_outcome x = (log, Returned (Some proof) None) -> G) run)
  end.
  cbv beta delta [ProveBody]. repeat step; try not_a_success.
  all: unfold holds; intros Hrun; eexists; (split; [|exact Hrun]).
  all: repeat match goal with
       | H : _ = Solve _ _ _ _ |- _ => rewrite <- H
       | H : Solve _ _ _ _ = _ |- _ => rewrite H
       | H : negb (Force _) = _ |- _ => apply negb_false_iff in H; rewrite H
       | H : _ = negb (Force _) |- _ => symmetry in H
       | H : fillSolution _ _ _ = Some _ |- _ => rewrite H
       end; try reflexivity.
Qed.

(** A run of [Prove] that returns a proof, with the solution it went on
    with. *)
Lemma Prove_complete_wires spr pk w opt log proof :
  Prove env spr pk w opt = (log, Returned (Some proof) None) ->
  exists r,
    log = log_of env pk w proof r /\ complete env spr pk w proof r /\
    exists solution,
      settled env spr w opt = Some solution /\ wires env spr pk solution r.
Proof.
  intros (solution & Hs & Hrun)%Prove_success_settled.
  apply proveWithSolution_complete in Hrun as (r & Hlog & C & Hw). eauto 6.
Qed.

End Success.

(** ** The chunks of the quotient *)
Section Chunks.

(** [evaluateLROSmallDomain] allocates as many rows as the small domain has
    points: the cardinality, read as an [int], is not negative. *)
Lemma evaluateLRO_cardinality spr pk solution ev :
  Plonk.evaluateLROSmallDomain spr pk solution = Some ev ->
  0 <= Plonk.Cardinality (Plonk.Domain0 pk) < 2 ^ 64 ->
  0 <= Plonk.Cardinality (Plonk.Domain0 pk) < 2 ^ 63.
Proof.
  unfold Plonk.evaluateLROSmallDomain, Go.make, Go.int_of_u64. intros Hrun Hu64.
  repeat case_bool_decide; simpl in Hrun; try done; lia.
Qed.

(** Three slices at the multiples of [n + 2], computed in [uint64], are three
    adjacent chunks of [n + 2] cells: a product that wrapped around would have
    made a slice whose end is before its start. *)
Lemma quotient_chunks {A} (hc h1 h2 h3 : list A) n :
  0 <= n < 2 ^ 63 ->
  Go.slice hc 0 (Go.u64_add n 2) = Some h1 ->
  Go.slice hc (Go.u64_add n 2) (Go.u64_mul 2 (Go.u64_add n 2)) = Some h2 ->
  Go.slice hc (Go.u64_mul 2 (Go.u64_add n 2)) (Go.u64_mul 3 (Go.u64_add n 2)) = Some h3 ->
  let m := n + 2 in
  Go.u64_add n 2 = m /\
  Go.slice hc 0 m = Some h1 /\
  Go.slice hc m (2 * m) = Some h2 /\
  Go.slice hc (2 * m) (3 * m) = Some h3 /\
  take (Z.to_nat (3 * m)) hc = h1 ++ h2 ++ h3 /\
  Go.len h1 = m /\ Go.len h2 = m /\ Go.len h3 = m.
Proof.
  intros Hn H1 H2 H3 m.
  assert (Go.u64_add n 2 = m) as Hm.
  { unfold Go.u64_add, m. apply Z.mod_small. lia. }
  rewrite Hm in *.
  assert (Go.u64_mul 2 m = 2 * m) as H2m.
  { pose proof (slice_inv _ _ _ _ H2) as (Hle & _ & _).
    unfold Go.u64_mul in *.
    destruct (decide (2 * m < 2 ^ 64)) as [?|Hge]; [apply Z.mod_small; lia|].
    exfalso. assert ((2 * m) mod 2 ^ 64 = 2 * m - 2 ^ 64) as Heq.
    { symmetry. apply Z.mod_unique with (q := 1); lia. }
    lia. }
  rewrite H2m in *.
  assert (Go.u64_mul 3 m = 3 * m) as H3m.
  { pose proof (slice_inv _ _ _ _ H3) as (Hle & _ & _).
    pose proof (slice_inv _ _ _ _ H2) as (Hle2 & Hlen2 & _).
    unfold Go.u64_mul in *.
    destruct (decide (3 * m < 2 ^ 64)) as [?|Hge]; [apply Z.mod_small; lia|].
    exfalso. assert ((3 * m) mod 2 ^ 64 = 3 * m - 2 ^ 64) as Heq.
    { symmetry. apply Z.mod_unique with (q := 1); lia. }
    lia. }
  rewrite H3m in *.
  repeat (split; [done|]).
  pose proof (len_slice _ _ _ _ H1). pose proof (len_slice _ _ _ _ H2).
  pose proof (len_slice _ _ _ _ H3).
  split; [|lia].
  apply slice_inv in H1 as (? & ? & ->). apply slice_inv in H2 as (? & ? & ->).
  apply slice_inv in H3 as (? & ? & ->).
  replace (Z.to_nat (m - 0)) with (Z.to_nat m) by lia.
  replace (Z.to_nat (2 * m - m)) with (Z.to_nat m) by lia.
  replace (Z.to_nat (3 * m - 2 * m)) with (Z.to_nat m) by lia.
  replace (Z.to_nat 0) with 0%nat by lia. rewrite drop_0.
  replace (Z.to_nat (3 * m)) with (Z.to_nat m + (Z.to_nat m + Z.to_nat m))%nat by lia.
  replace (Z.to_nat (2 * m)) with (Z.to_nat m + Z.to_nat m)%nat by lia.
  rewrite <- !take_take_drop. rewrite drop_drop. reflexivity.
Qed.

End Chunks.

(** ** What a complete run establishes *)
Section Claims.

Import Plonk RunSpec Complete.
Context (env : Collaborators).

(** Horner's rule on the digests is the combination of the specification. *)
Lemma horner_folded (hd : arr3 Digest) zeta m :
  G1Module env -> 0 <= m ->
  horner_digest env hd (Fr.exp zeta m) = folded_digest env hd zeta m.
Proof.
  intros [Hcomm Hdistr Hsmul] Hm. unfold horner_digest, folded_digest.
  rewrite Hdistr, Hsmul. rewrite (Hcomm _ (at0 hd)).
  rewrite (Hcomm (ScalarMultiplication env (at2 hd) _)).
  do 3 f_equal. rewrite exp_double by done.
  unfold Fr.big_int, Fr.mul.
  rewrite Z.mod_mod by (unfold Fr.q; lia).
  rewrite <- Z.mul_mod by (unfold Fr.q; lia). reflexivity.
Qed.

(** C1. In every run of [Prove] that returns a proof, the transcript is asked,
    in this order and nothing else: to absorb the fixed data of the verifying
    key, the public inputs and the three wire commitments, to derive gamma, to
    derive beta (nothing absorbed in between), to absorb the commitment to Z,
    to derive alpha, to absorb the three commitments to the chunks of the
    quotient, to derive zeta. Every commitment absorbed is the digest of a
    polynomial committed to earlier in the run. *)
Theorem Prove_challenge_order spr pk w opt log proof :
  Prove env spr pk w opt = (log, Returned (Some proof) None) ->
  exists pub,
    Go.slice w 0 (Go.len (Public spr)) = Some pub /\
    transcript log = challenge_schedule pk pub proof /\
    absorbed_committed env (KZGSRS (Vk pk)) [] log.
Proof.
  intros (r & -> & C)%Prove_complete.
  exists (pub r). split; [apply C|]. split; [reflexivity|].
  cbn [absorbed_committed log_of].
  rewrite (run_commit_l _ _ _ _ _ _ C), (run_commit_r _ _ _ _ _ _ C),
    (run_commit_o _ _ _ _ _ _ C), (run_commit_z _ _ _ _ _ _ C),
    (run_commit_h1 _ _ _ _ _ _ C), (run_commit_h2 _ _ _ _ _ _ C),
    (run_commit_h3 _ _ _ _ _ _ C).
  cbn [fst In]. tauto.
Qed.

(** C2. In every run of [Prove] that returns a proof, over a small domain
    whose cardinality is a [uint64], the quotient is cut into the three
    adjacent chunks h1, h2, h3 of [m = Cardinality + 2] coefficients each,
    whose commitments are the three digests [H] of the proof, and the first
    polynomial and the first digest of the batched opening are
    [h1 + zeta^m * h2 + zeta^(2m) * h3], on the coefficients and, G1 being a
    module over the scalars, on the commitments. *)
Theorem Prove_quotient_chunks spr pk w opt log proof :
  G1Module env ->
  0 <= Cardinality (Domain0 pk) < 2 ^ 64 ->
  Prove env spr pk w opt = (log, Returned (Some proof) None) ->
  exists r,
    log = log_of env pk w proof r /\
    ComputeQuotient env (operands r) (plonkCapture r) (Domain0 pk) (Domain1 pk)
    = (h r, None) /\
    let m := Cardinality (Domain0 pk) + 2 in
    Go.slice (Coefficients (h r)) 0 m = Some (h1 r) /\
    Go.slice (Coefficients (h r)) m (2 * m) = Some (h2 r) /\
    Go.slice (Coefficients (h r)) (2 * m) (3 * m) = Some (h3 r) /\
    take (Z.to_nat (3 * m)) (Coefficients (h r)) = h1 r ++ h2 r ++ h3 r /\
    Go.len (h1 r) = m /\ Go.len (h2 r) = m /\ Go.len (h3 r) = m /\
    Commit env (h1 r) (KZGSRS (Vk pk)) = (at0 (H proof), None) /\
    Commit env (h2 r) (KZGSRS (Vk pk)) = (at1 (H proof), None) /\
    Commit env (h3 r) (KZGSRS (Vk pk)) = (at2 (H proof), None) /\
    batch_polys pk r !! 0%nat = Some (foldedH r) /\
    folded_coefficients (h1 r) (h2 r) (h3 r) (zeta r) m (foldedH r) /\
    batch_digests env pk proof r !! 0%nat
    = Some (folded_digest env (H proof) (zeta r) m).
Proof.
  intros Hmod Hu64 (r & -> & C)%Prove_complete.
  exists r. split; [done|]. split; [apply C|].
  destruct (run_lro _ _ _ _ _ _ C) as (solution & ev & Hev).
  pose proof (evaluateLRO_cardinality _ _ _ _ Hev Hu64) as Hn.
  destruct (quotient_chunks _ _ _ _ _ Hn (run_h1 _ _ _ _ _ _ C)
              (run_h2 _ _ _ _ _ _ C) (run_h3 _ _ _ _ _ _ C))
    as (Hm & Hs1 & Hs2 & Hs3 & Htake & Hl1 & Hl2 & Hl3).
  pose proof (run_fold _ _ _ _ _ _ C) as Hfold. rewrite Hm in Hfold.
  apply foldH_spec in Hfold as [Hlen Hcells].
  cbv zeta. split_and!; try done; try apply C.
  - split; [lia|].
    intros i Hi. destruct (Hcells i) as (a & b & c & Ha & Hb & Hc & Hf); [lia|].
    exists a, b, c. repeat (split; [done|]).
    rewrite Hf. f_equal. rewrite fold_horner, exp_double by lia. reflexivity.
  - unfold batch_digests. cbn [lookup list_lookup]. rewrite Hm.
    f_equal. apply horner_folded; [done|lia].
Qed.

(** C5. In every run of [Prove] that returns a proof there is exactly one
    batched opening, at the point zeta, of the seven polynomials folded H,
    linearization, l, r, o, S1, S2 against the seven digests folded H digest,
    commitment to the linearization, the three wire commitments of the proof
    and the first two permutation digests of the verifying key; its answer is
    the [BatchedProof] of the proof. *)
Theorem Prove_batch_opening spr pk w opt log proof :
  Prove env spr pk w opt = (log, Returned (Some proof) None) ->
  exists r,
    log = log_of env pk w proof r /\
    List.filter is_batch_open log
    = [EvBatchOpen
         [foldedH r; linearizedPolynomialCanonical r; pl r; pr r; po r;
          S1Canonical pk; S2Canonical pk]
         [horner_digest env (H proof)
            (Fr.exp (zeta r) (Go.u64_add (Cardinality (Domain0 pk)) 2));
          linearizedPolynomialDigest r;
          at0 (LRO proof); at1 (LRO proof); at2 (LRO proof);
          at0 (VkS (Vk pk)); at1 (VkS (Vk pk))]
         (zeta r)] /\
    derived env log "zeta" = Some (zeta r) /\
    BatchOpenSinglePoint env (batch_polys pk r) (batch_digests env pk proof r) (zeta r)
      (challenge_schedule pk (pub r) proof) (KZGSRS (Vk pk))
    = (BatchedProof proof, None) /\
    foldH (h1 r) (h2 r) (h3 r)
      (Fr.exp (zeta r) (Go.u64_add (Cardinality (Domain0 pk)) 2)) = Some (foldedH r) /\
    Commit env (linearizedPolynomialCanonical r) (KZGSRS (Vk pk))
    = (linearizedPolynomialDigest r, None) /\
    Commit env (Coefficients (P (wliop r))) (KZGSRS (Vk pk)) = (at0 (LRO proof), None) /\
    Commit env (Coefficients (P (wriop r))) (KZGSRS (Vk pk)) = (at1 (LRO proof), None) /\
    Commit env (Coefficients (P (woiop r))) (KZGSRS (Vk pk)) = (at2 (LRO proof), None) /\
    Go.slice (Coefficients (P (held_wire env pk (wliop r)))) 0
      (Size (held_wire env pk (wliop r))) = Some (pl r) /\
    Go.slice (Coefficients (P (held_wire env pk (wriop r)))) 0
      (Size (held_wire env pk (wriop r))) = Some (pr r) /\
    Go.slice (Coefficients (P (held_wire env pk (woiop r)))) 0
      (Size (held_wire env pk (woiop r))) = Some (po r).
Proof.
  intros (r & -> & C)%Prove_complete.
  exists r. split; [done|]. split; [reflexivity|].
  repeat (split; [apply C|]). apply C.
Qed.

End Claims.

(** ** Error paths of [Prove] *)
Section Errors.

Import Plonk RunSpec.
Context (env : Collaborators).

Lemma first_error_cons_None spr pk opt pre ev rest r :
  stopping_error env spr pk opt pre ev = None ->
  first_error env spr pk opt (pre ++ [ev]) rest = r ->
  first_error env spr pk opt pre (ev :: rest) = r.
Proof. intros H1 H2. simpl. by rewrite H1. Qed.

Lemma first_error_cons_Some spr pk opt pre ev rest e :
  stopping_error env spr pk opt pre ev = Some e ->
  first_error env spr pk opt pre (ev :: rest) = Some e.
Proof. intros H1. simpl. by rewrite H1. Qed.

(** [first_error] finds nothing exactly when no call failed, an overridden
    call apart. *)
Lemma first_error_None spr pk opt log : forall pre,
  first_error env spr pk opt pre log = None <-> no_failure env spr pk opt pre log.
Proof.
  induction log as [|ev rest IH]; intros pre; cbn [first_error].
  - split; [|done]. intros _ l1 ev l2 Heq. by destruct l1.
  - unfold stopping_error. split.
    + intros Hf l1 ev' l2 Heq. destruct l1 as [|x l1]; simplify_eq/=.
      * rewrite app_nil_r. destruct (overridden opt ev'); [by right|].
        left. by destruct (event_error env spr pk opt pre ev').
      * assert (Hrest : first_error env spr pk opt (pre ++ [x]) (l1 ++ ev' :: l2) = None).
        { destruct (overridden opt x); [done|].
          by destruct (event_error env spr pk opt pre x). }
        apply IH in Hrest. specialize (Hrest l1 ev' l2 eq_refl).
        by rewrite <- app_assoc in Hrest.
    + intros Hn.
      assert (Hhead : (if overridden opt ev then None
                       else event_error env spr pk opt pre ev) = None).
      { destruct (Hn [] ev rest eq_refl) as [H0|H0]; rewrite ?app_nil_r in H0.
        - rewrite H0. by destruct (overridden opt ev).
        - by rewrite H0. }
      rewrite Hhead. apply IH. intros l1 ev' l2 ->.
      specialize (Hn (ev :: l1) ev' l2 eq_refl). by rewrite <- app_assoc.
Qed.


(** The answer of the call at the head of the log is among the hypotheses. *)
Ltac answer :=
  unfold stopping_error; cbn [overridden event_error];
  lazymatch goal with
  | |- snd ?t = _ =>
      lazymatch goal with
      | H : t = (_, _) |- _ => rewrite H; reflexivity
      end
  | |- ?t = _ =>
      lazymatch goal with
      | H : None = t |- _ => symmetry; exact H
      | H : Some _ = t |- _ => symmetry; exact H
      end
  end.

Ltac walk :=
  repeat (apply first_error_cons_None; [answer|]; cbn [app]);
  first [ reflexivity | apply first_error_cons_Some; answer ].

Ltac proof_so_far :=
  repeat match goal with
  | H : ?p = withZ _ _ |- _ => subst p
  | H : ?p = withLRO _ _ |- _ => subst p
  | H : ?p = emptyProof |- _ => subst p
  end.

Ltac leaf :=
  unfold run_ok;
  repeat match goal with
  | H : ?x = KZGSRS _ |- _ => subst x
  | H : ?x = {| FBasis := _; FLayout := _ |} |- _ => subst x
  end;
  cbn [app] in *;
  split;
  [ cbn [map tag_of]; eexists; reflexivity
  | first
      [ exact I
      | split; [walk|];
        cbn [keeps_pointer rev app String.eqb Ascii.eqb Bool.eqb];
        first [ reflexivity
              | split; [discriminate|reflexivity]
              | eexists; split; [reflexivity|];
                proof_so_far; repeat split; reflexivity ] ] ].

(** Every way through the body of [Prove] after the solver. *)
Lemma proveWithSolution_errors spr pk w opt solution log out :
  to_outcome (proveWithSolution env spr pk w solution ([] ++ [EvSolve w])) = (log, out) ->
  exists rest, log = EvSolve w :: rest /\ run_ok env spr pk opt [EvSolve w] rest out.
Proof.
  match goal with
  | |- to_outcome ?run = ?rhs -> ?G =>
      pose (Q := fun x => to_outcome x = rhs -> G); change (holds Q run)
  end.
  run_prover.
  all: unfold holds; subst Q; cbv beta; cbn [to_outcome]; intros [= <- <-].
  all: cbn [app]; eexists; (split; [reflexivity|]).
  all: leaf.
Qed.

(** Every run of [Prove]. *)
Lemma Prove_run_ok spr pk w opt log out :
  Prove env spr pk w opt = (log, out) -> run_ok env spr pk opt [] log out.
Proof.
  unfold Prove, ProveBody.
  match goal with
  | |- to_outcome ?run = ?rhs -> ?G =>
      pose (Q := fun x => to_outcome x = rhs -> G); change (holds Q run)
  end.
  step.
  assert (Hrest : forall solution,
    stopping_error env spr pk opt [] (EvSolve w) = None ->
    holds Q (proveWithSolution env spr pk w solution ([] ++ [EvSolve w]))).
  { intros solution Hev. unfold holds; subst Q; cbv beta. intros Hrun.
    apply (proveWithSolution_errors _ _ _ opt) in Hrun as (rest & -> & Hok).
    revert Hok. unfold run_ok. cbn [app first_error]. by rewrite Hev. }
  destruct (Force opt) eqn:HF; cbn [negb]; cleanup.
  - (* forced *)
    assert (Hev : stopping_error env spr pk opt [] (EvSolve w) = None).
    { unfold stopping_error. cbn [overridden]. by rewrite HF. }
    destruct o as [err|]; repeat step; try by apply Hrest.
    unfold holds; subst Q; cbv beta; cbn [to_outcome app]. intros [= <- <-].
    split; [eexists; reflexivity|exact I].
  - destruct o as [err|]; repeat step.
    + unfold holds; subst Q; cbv beta; cbn [to_outcome app]. intros [= <- <-].
      split; [eexists; reflexivity|].
      cbn [app first_error keeps_pointer rev]. unfold stopping_error.
      cbn [overridden event_error]. rewrite HF, Heqp. done.
    + apply Hrest. unfold stopping_error. cbn [overridden event_error].
      rewrite HF, Heqp. done.
Qed.

End Errors.

(** ** The order of an element modulo n *)
Section Order.

Context (n : Z) (Hn : 1 < n) (a : Z).

(** The exponents that take [a] to 1. *)
Let T (d : Z) : Prop := a ^ d mod n = 1.

Lemma T_add x y : 0 <= x -> 0 <= y -> T x -> T y -> T (x + y).
Proof.
  unfold T. intros Hx Hy Tx Ty.
  rewrite Z.pow_add_r, Z.mul_mod, Tx, Ty by lia.
  rewrite Z.mul_1_l. apply Z.mod_small. lia.
Qed.

Lemma T_mul x k : 0 <= x -> 0 <= k -> T x -> T (x * k).
Proof.
  unfold T. intros Hx Hk Tx.
  rewrite Z.pow_mul_r, Zpower_mod, Tx, Z.pow_1_l by lia.
  apply Z.mod_small. lia.
Qed.

Lemma T_sub x y : 0 <= y <= x -> T x -> T y -> T (x - y).
Proof.
  unfold T. intros Hxy Tx Ty.
  replace x with ((x - y) + y) in Tx by lia.
  rewrite Z.pow_add_r, Z.mul_mod, Ty, Z.mul_1_r, Z.mod_mod in Tx by lia.
  exact Tx.
Qed.

Lemma T_mod x y : 0 <= x -> 0 < y -> T x -> T y -> T (x mod y).
Proof.
  intros Hx Hy Tx Ty. rewrite Z.mod_eq by lia.
  apply T_sub; [|done|].
  - split; [|apply Z.mul_div_le; lia].
    apply Z.mul_nonneg_nonneg; [lia|]. apply Z.div_pos; lia.
  - apply T_mul; [lia| |done]. apply Z.div_pos; lia.
Qed.

Lemma T_gcd y : 0 <= y -> forall x, 0 <= x -> T x -> T y -> T (Z.gcd x y).
Proof.
  intros Hy. pattern y. apply Z_lt_induction; [|done]. clear y Hy.
  intros y IH x Hx Tx Ty.
  destruct (decide (y = 0)) as [->|Hy0].
  - by rewrite Z.gcd_0_r_nonneg.
  - destruct (decide (0 <= y)) as [Hy|Hy].
    + rewrite Z.gcd_comm, <- Z.gcd_mod by done. rewrite Z.gcd_comm.
      pose proof (Z.mod_pos_bound x y ltac:(lia)).
      apply IH; [lia|lia|done|]. apply T_mod; [done|lia|done..].
    + unfold T in Ty. rewrite Z.pow_neg_r in Ty by lia.
      rewrite Z.mod_0_l in Ty by lia. done.
Qed.

(** A prime factor [r] of [N] divides every positive exponent that takes [a]
    to 1, when [a ^ N] is 1 and [a ^ (N / r)] is not. *)
Lemma prime_factor_of_order r m d :
  Z.prime r -> 0 <= m -> T (r * m) -> ~ T m -> 0 < d -> T d -> (r | d).
Proof.
  intros Hr Hm TN Tm Hd Td.
  pose proof (Z.prime_ge_2 _ Hr) as Hr2.
  assert (Tg : T (Z.gcd d (r * m))) by (apply T_gcd; [nia|lia|done..]).
  assert (Hg : 0 < Z.gcd d (r * m)).
  { pose proof (Z.gcd_nonneg d (r * m)).
    destruct (decide (Z.gcd d (r * m) = 0)) as [H0|]; [|lia].
    apply Z.gcd_eq_0_l in H0. lia. }
  destruct (decide (Z.gcd d (r * m) mod r = 0)) as [Hdiv|Hndiv];
    rewrite Z.mod_divide in * by lia.
  - etrans; [exact Hdiv|apply Z.gcd_divide_l].
  - exfalso. apply Tm.
    assert (Hgm : (Z.gcd d (r * m) | m)).
    { apply (Z.gauss _ r); [apply Z.gcd_divide_r|].
      apply Z.Symmetric_coprime. by apply Z.coprime_prime_l. }
    destruct Hgm as [c Hc]. rewrite Hc, Z.mul_comm.
    apply T_mul; [lia|nia|done].
Qed.

End Order.

Lemma no_divisor_spec n k d x :
  no_divisor n k d = true -> 0 < d -> d <= x < d + Z.of_nat k -> ~ (x | n).
Proof.
  revert d. induction k as [|k IH]; intros d Hnd Hd Hx; [lia|].
  simpl in Hnd. apply andb_prop in Hnd as [H1 H2].
  destruct (decide (x = d)) as [->|Hne].
  - intros Hdiv. apply Z.mod_divide in Hdiv; [|lia].
    rewrite Hdiv in H1. done.
  - apply (IH (d + 1)); [done|lia|lia].
Qed.

Lemma is_prime_spec n : is_prime n = true -> Z.prime n.
Proof.
  unfold is_prime. intros H. apply andb_prop in H as [H1 H2].
  apply Z.ltb_lt in H1. split; [done|].
  intros x Hx [c Hc].
  assert (Hc1 : 1 < c) by nia.
  pose proof (Z.sqrt_nonneg n) as Hs.
  destruct (decide (x <= c)) as [Hle|Hle].
  - apply (no_divisor_spec _ _ _ x H2); [lia| |by exists c].
    assert (x <= Z.sqrt n) by (apply Z.sqrt_le_square; nia). lia.
  - apply (no_divisor_spec _ _ _ c H2); [lia| |exists x; lia].
    assert (c <= Z.sqrt n) by (apply Z.sqrt_le_square; nia). lia.
Qed.

Lemma divide_mul_coprime a b c : (a | c) -> (b | c) -> Z.coprime a b -> (a * b | c).
Proof.
  intros [k ->] Hb Hab. rewrite Z.mul_comm in Hb.
  apply Z.gauss in Hb; [|by apply Z.Symmetric_coprime].
  destruct Hb as [k' ->]. exists k'. lia.
Qed.

(** ** Powers of two in the scalar field *)

Lemma order_factors_prime : Forall Z.prime order_factors.
Proof. repeat constructor; apply is_prime_spec; vm_compute; reflexivity. Qed.

(** No power of two below 2^64 is 1 in the field, the power 0 apart. *)
Lemma pow2_order d : 0 < d < 2 ^ 64 -> 2 ^ d mod Fr.q <> 1.
Proof.
  intros Hd Td.
  assert (Hq : 1 < Fr.q) by reflexivity.
  assert (Hdiv : forall r, r ∈ order_factors -> (r | d)).
  { intros r Hr.
    assert (Hp : Z.prime r).
    { pose proof order_factors_prime as HF. rewrite Forall_forall in HF. auto. }
    apply (prime_factor_of_order Fr.q Hq 2 r ((Fr.q - 1) / r)); [done| | | |lia|done].
    - apply Z.div_pos; [done|]. pose proof (Z.prime_ge_2 _ Hp). lia.
    - replace (r * ((Fr.q - 1) / r)) with (Fr.q - 1).
      + rewrite <- exp_spec by done. vm_compute. reflexivity.
      + unfold order_factors in Hr. set_solver by (vm_compute; reflexivity).
    - rewrite <- exp_spec.
      + unfold order_factors in Hr.
        repeat (apply elem_of_cons in Hr as [->|Hr]); [..|by apply elem_of_nil in Hr];
          vm_compute; discriminate.
      + apply Z.div_pos; [done|]. pose proof (Z.prime_ge_2 _ Hp). lia. }
  assert (H1 : (983 | d)) by (apply Hdiv; set_solver).
  assert (H2 : (11003 | d)) by (apply Hdiv; set_solver).
  assert (H3 : (237073 | d)) by (apply Hdiv; set_solver).
  assert (H4 : (405928799 | d)) by (apply Hdiv; set_solver).
  assert (H12 : (983 * 11003 | d)) by (apply divide_mul_coprime; [done..|reflexivity]).
  assert (H34 : (237073 * 405928799 | d)) by (apply divide_mul_coprime; [done..|reflexivity]).
  assert (HP : (983 * 11003 * (237073 * 405928799) | d))
    by (apply divide_mul_coprime; [done..|reflexivity]).
  apply Z.divide_pos_le in HP; [|lia]. lia.
Qed.

(** Doubling an invertible element never comes back within 2^64 steps. *)
Lemma doubling_distinct r j k :
  PlonkSpec.invertible r -> 0 <= j < k -> k - j < 2 ^ 64 ->
  (r * 2 ^ j) mod Fr.q <> (r * 2 ^ k) mod Fr.q.
Proof.
  intros [r' Hr] Hjk Hlt Heq.
  assert (Hq : 1 < Fr.q) by reflexivity.
  apply (pow2_order (k - j)); [lia|].
  set (u := ((Fr.q + 1) / 2) ^ j).
  assert (Hu : (2 ^ j * u) mod Fr.q = 1).
  { unfold u. rewrite <- Z.pow_mul_l, Zpower_mod by lia.
    replace ((2 * ((Fr.q + 1) / 2)) mod Fr.q) with 1 by (vm_compute; reflexivity).
    rewrite Z.pow_1_l by lia. apply Z.mod_small. lia. }
  assert (H1 : (r' * u * (r * 2 ^ j)) mod Fr.q = 1).
  { replace (r' * u * (r * 2 ^ j)) with ((r * r') * (2 ^ j * u)) by lia.
    rewrite Z.mul_mod, Hr, Hu by lia. reflexivity. }
  assert (H2 : (r' * u * (r * 2 ^ k)) mod Fr.q = 2 ^ (k - j) mod Fr.q).
  { replace k with (j + (k - j)) at 1 by lia. rewrite Z.pow_add_r by lia.
    replace (r' * u * (r * (2 ^ j * 2 ^ (k - j))))
      with ((r * r') * (2 ^ j * u) * 2 ^ (k - j)) by lia.
    rewrite Z.mul_mod, (Z.mul_mod (r * r')), Hr, Hu by lia.
    replace ((1 * 1) mod Fr.q) with 1 by reflexivity.
    rewrite Z.mul_1_l, Z.mod_mod by lia. reflexivity. }
  rewrite <- H2, <- H1.
  rewrite (Z.mul_mod _ (r * 2 ^ k)), (Z.mul_mod _ (r * 2 ^ j)) by lia.
  by rewrite Heq.
Qed.

Section Forced.

Import Plonk PlonkSpec.

(** The loop of the forced mode never panics, and fills the tail with the
    doubles of the seed. *)
Lemma fillSolution_spec spr sol seed :
  exists sol' r',
    fillSolution spr sol seed = Some (sol', r') /\
    placeholder_tail spr sol seed sol'.
Proof.
  unfold fillSolution, placeholder_tail. cbv zeta.
  set (start := Go.len (Public spr) + Go.len (Secret spr)).
  assert (Hstart : 0 <= start).
  { unfold start. pose proof (len_nonneg (Public spr)).
    pose proof (len_nonneg (Secret spr)). lia. }
  set (n := Z.to_nat (Go.len sol - start)).
  pose (Inv := fun (i : Z) (st : list fr * fr) =>
    Go.len (fst st) = Go.len sol /\
    (forall j, 0 <= j < start -> Go.index (fst st) j = Go.index sol j) /\
    (forall k, 0 <= k < i - start ->
       exists v, Go.index (fst st) (start + k) = Some v /\
                 v mod Fr.q = (seed * 2 ^ k) mod Fr.q) /\
    snd st mod Fr.q = (seed * 2 ^ (i - start)) mod Fr.q).
  destruct (for_range_total Inv
    (fun i '(solution, r) => solution ← Go.store solution i r; Some (solution, Fr.double r))
    n start (sol, seed)) as ([sol' r'] & Hrun & Hlen & Hpre & Htail & _).
  - repeat split; simpl; [lia|].
    by rewrite Z.sub_diag, Z.pow_0_r, Z.mul_1_r.
  - intros j [s r] Hj (Hlen & Hpre & Htail & Hr). simpl in *.
    destruct (store_is_Some s j r) as [s' Hs']; [unfold n in Hj; lia|].
    rewrite Hs'. simpl. eexists. split; [reflexivity|].
    repeat split; simpl.
    + by rewrite (len_store _ _ _ _ Hs').
    + intros i Hi. rewrite (index_store_ne _ _ _ _ _ Hs') by lia. by apply Hpre.
    + intros k Hk. destruct (decide (start + k = j)) as [Hkj|Hkj].
      * exists r. rewrite Hkj. split; [by eapply index_store_eq|].
        rewrite Hr. by replace (j - start) with k by lia.
      * rewrite (index_store_ne _ _ _ _ _ Hs') by lia. apply Htail. lia.
    + unfold Fr.double. rewrite Z.mod_mod by done.
      replace (r + r) with (2 * r) by lia.
      replace (j + 1 - start) with (1 + (j - start)) by lia.
      rewrite Z.pow_add_r, Z.pow_1_r by lia.
      replace (seed * (2 * 2 ^ (j - start))) with (2 * (seed * 2 ^ (j - start))) by lia.
      rewrite Z.mul_mod, Hr, <- Z.mul_mod by done. reflexivity.
  - exists sol', r'. split; [exact Hrun|]. simpl in *.
    split; [done|]. split; [done|].
    intros k Hk Hlt. apply Htail. unfold n. lia.
Qed.

(** Over an invertible seed the placeholders are distinct. *)
Lemma placeholder_tail_distinct spr sol seed sol' :
  placeholder_tail spr sol seed sol' ->
  invertible seed -> Go.len sol < 2 ^ 64 -> distinct_tail spr sol'.
Proof.
  intros (Hlen & _ & Htail) Hinv Hsize j k Hjk Hk.
  pose proof (len_nonneg (Public spr)). pose proof (len_nonneg (Secret spr)).
  destruct (Htail j) as (vj & Hj & Hvj); [lia|lia|].
  destruct (Htail k) as (vk & Hk' & Hvk); [lia|lia|].
  rewrite Hj, Hk'. intros [= ->].
  apply (doubling_distinct seed j k); [done|lia|lia|]. by rewrite <- Hvj, <- Hvk.
Qed.

End Forced.

(** ** The small instance *)
Section DemoFacts.

Import Plonk RunSpec Complete.

(** The toy group is a module over the scalars. *)
Lemma toy_G1Module seed a b : G1Module (Demo.toy seed a b).
Proof.
  split; cbn [G1Add ScalarMultiplication Demo.toy]; unfold Demo.g1_add, Demo.g1_smul;
    cbn [X Y].
  - intros x y. f_equal; f_equal; lia.
  - intros x y k. f_equal.
    + rewrite Zmult_mod_idemp_l, <- Zplus_mod. f_equal. lia.
    + rewrite Zmult_mod_idemp_l, <- Zplus_mod. f_equal. lia.
  - intros x j k. f_equal.
    + rewrite Zmult_mod_idemp_l, Zmult_mod_idemp_r. f_equal. lia.
    + rewrite Zmult_mod_idemp_l, Zmult_mod_idemp_r. f_equal. lia.
Qed.

(** The run on the small instance returns a proof. *)
Lemma demo_run :
  Prove Demo.env Demo.spr Demo.pk Demo.w Demo.opt
  = (Demo.log, Returned (Some Demo.proof) None).
Proof. vm_compute. reflexivity. Qed.

End DemoFacts.

(** ** Failures *)
Section Failures.

Import Plonk PlonkSpec RunSpec.




(** C7 (as amended). When the solver fails and the force flag is not set,
    [Prove] returns the error of the solver, with nil, after that one call.
    When the flag is set, [Prove] goes on with the solution of the solver in
    which every position from [publicCount + secretCount] on is overwritten:
    the tail holds the random element and its successive doubles, the inputs
    are kept, the loop does not panic. The placeholders differ from one
    position to the other when the random element is invertible and the
    solution has less than 2^64 entries. *)
Theorem Prove_solve_failure (env : Collaborators) spr pk w opt sol err :
  Solve env spr w opt = (sol, Some err) ->
  if Force opt then
    exists sol' r',
      fillSolution spr sol (SetRandom env) = Some (sol', r') /\
      Prove env spr pk w opt
      = to_outcome (proveWithSolution env spr pk w sol' [EvSolve w]) /\
      placeholder_tail spr sol (SetRandom env) sol' /\
      (invertible (SetRandom env) -> Go.len sol < 2 ^ 64 -> distinct_tail spr sol')
  else Prove env spr pk w opt = ([EvSolve w], Returned None (Some err)).
Proof.
  intros Hsolve. unfold Prove, ProveBody.
  destruct (Force opt) eqn:HF.
  - destruct (fillSolution_spec spr sol (SetRandom env)) as (sol' & r' & Hfill & Htail).
    exists sol', r'. split; [done|]. split; [|split; [done|]].
    + unfold bind at 1. unfold bind at 1. unfold call. rewrite Hsolve. cbn [negb].
      unfold bind at 1. unfold try. rewrite Hfill. reflexivity.
    + by apply placeholder_tail_distinct.
  - unfold bind at 1. unfold bind at 1. unfold call. rewrite Hsolve. reflexivity.
Qed.

Lemma Prove_solve_failure_witness :
  Prove Demo.unsolved Demo.spr Demo.pk Demo.w {| Force := false |}
  = ([EvSolve Demo.w], Returned None (Some "unsolved")) /\
  exists sol',
    Prove Demo.unsolved Demo.spr Demo.pk Demo.w {| Force := true |}
    = to_outcome (proveWithSolution Demo.unsolved Demo.spr Demo.pk Demo.w sol'
                    [EvSolve Demo.w]) /\
    distinct_tail Demo.spr sol'.
Proof.
  split.
  - exact (Prove_solve_failure Demo.unsolved Demo.spr Demo.pk Demo.w {| Force := false |}
             _ _ eq_refl).
  - destruct (Prove_solve_failure Demo.unsolved Demo.spr Demo.pk Demo.w {| Force := true |}
                _ _ eq_refl) as (sol' & r' & _ & Hrun & _ & Hd).
    exists sol'. split; [exact Hrun|].
    apply Hd; [exists 1; reflexivity|vm_compute; reflexivity].
Defined.

(** Over the seed 0 every placeholder is 0. *)
Lemma forced_placeholders_equal :
  ~ (forall env spr sol sol' r',
       fillSolution spr sol (SetRandom env) = Some (sol', r') -> distinct_tail spr sol').
Proof.
  intros Hd.
  specialize (Hd (Demo.toy 0 true false) Demo.spr [3; 5; 9; 9] [3; 5; 0; 0] 0 eq_refl).
  apply (Hd 0 1); [lia|vm_compute; reflexivity|reflexivity].
Qed.

(** The calling path returns the error of its own commitment while the two
    goroutines have not started. *)
Lemma fork_returns_early :
  ~ (forall c0 c1 c2 slots s e,
       Fork.reachable c0 c1 c2 slots s -> Fork.main s = Fork.MReturned e ->
       Fork.joined s).
Proof.
  intros Hjoin.
  pose (c := (zeroDigest, Some "commit") : Digest * option error).
  pose (slots := Arr3 zeroDigest zeroDigest zeroDigest).
  destruct (Hjoin c c c slots
    {| Fork.g0 := Fork.GStart; Fork.g1 := Fork.GStart;
       Fork.main := Fork.MReturned (Some "commit");
       Fork.slot0 := zeroDigest; Fork.slot1 := zeroDigest; Fork.slot2 := zeroDigest;
       Fork.err0 := None; Fork.err1 := None; Fork.err2 := Some "commit" |}
    (Some "commit")) as [H0 _]; [|reflexivity|discriminate].
  apply rtc_once. exact (Fork.main_commit c c c (Fork.init slots) eq_refl).
Qed.

End Failures.

(** ** The claims on the small instance *)
Section Instances.

Import Plonk PlonkSpec RunSpec Complete.

Lemma evaluateLROSmallDomain_rows_witness :
  exists l r o,
    evaluateLROSmallDomain Demo.spr Demo.pk [3; 5; 9; 9] = Some (l, r, o) /\
    lro_rows Demo.spr Demo.pk [3; 5; 9; 9] l r o.
Proof.
  apply (evaluateLROSmallDomain_rows Demo.spr Demo.pk [3; 5; 9; 9]).
  unfold lro_inputs. cbn.
  split_and!; try lia; try (unfold Go.len; simpl; lia).
  repeat (apply Forall_cons; split; [unfold Go.len; simpl; lia|]). by apply Forall_nil.
Defined.

Lemma Prove_challenge_order_witness :
  exists pub,
    Go.slice Demo.w 0 (Go.len (Public Demo.spr)) = Some pub /\
    transcript Demo.log = challenge_schedule Demo.pk pub Demo.proof /\
    absorbed_committed Demo.env (KZGSRS (Vk Demo.pk)) [] Demo.log.
Proof.
  exact (Prove_challenge_order Demo.env Demo.spr Demo.pk Demo.w Demo.opt
           Demo.log Demo.proof demo_run).
Defined.

Lemma Prove_quotient_chunks_witness :
  G1Module Demo.env /\
  0 <= Cardinality (Domain0 Demo.pk) < 2 ^ 64 /\
  exists r,
    Demo.log = log_of Demo.env Demo.pk Demo.w Demo.proof r /\
    Go.len (h1 r) = 6 /\ Go.len (h2 r) = 6 /\ Go.len (h3 r) = 6 /\
    batch_polys Demo.pk r !! 0%nat = Some (foldedH r).
Proof.
  assert (Hc : 0 <= Cardinality (Domain0 Demo.pk) < 2 ^ 64)
    by (split; [discriminate|reflexivity]).
  split; [apply toy_G1Module|]. split; [exact Hc|].
  destruct (Prove_quotient_chunks Demo.env Demo.spr Demo.pk Demo.w Demo.opt
              Demo.log Demo.proof (toy_G1Module 1 false false) Hc demo_run)
    as (r & Hlog & _ & _ & _ & _ & _ & Hl1 & Hl2 & Hl3 & _ & _ & _ & Hb & _).
  exists r. repeat split; assumption.
Defined.

Lemma Prove_batch_opening_witness :
  exists r,
    Demo.log = log_of Demo.env Demo.pk Demo.w Demo.proof r /\
    derived Demo.env Demo.log "zeta" = Some (zeta r).
Proof.
  destruct (Prove_batch_opening Demo.env Demo.spr Demo.pk Demo.w Demo.opt
              Demo.log Demo.proof demo_run) as (r & Hlog & _ & Hz & _).
  exists r. split; assumption.
Defined.

(** A run of the fork in which the three commitments succeed: the two
    goroutines first, then the calling path. *)
Lemma fork_join_waits_witness :
  None = Fork.returned_error (zeroDigest, None) (zeroDigest, None) (zeroDigest, None).
Proof.
  pose (c := (zeroDigest, None) : Digest * option error).
  pose (slots := Arr3 zeroDigest zeroDigest zeroDigest).
  pose (s := {| Fork.g0 := Fork.GClosed; Fork.g1 := Fork.GClosed;
                Fork.main := Fork.MReturned None;
                Fork.slot0 := zeroDigest; Fork.slot1 := zeroDigest;
                Fork.slot2 := zeroDigest;
                Fork.err0 := None; Fork.err1 := None; Fork.err2 := None |}).
  refine (proj1 (fork_join_waits c c c slots s None _ eq_refl)).
  unfold Fork.reachable.
  eapply rtc_l; [apply Fork.go0_commit; reflexivity|]; simpl.
  eapply rtc_l; [apply Fork.go0_close; reflexivity|]; simpl.
  eapply rtc_l; [apply Fork.go1_commit; reflexivity|]; simpl.
  eapply rtc_l; [apply Fork.go1_close; reflexivity|]; simpl.
  eapply rtc_l; [apply Fork.main_commit; reflexivity|]; simpl.
  eapply rtc_l; [apply Fork.main_recv0; reflexivity|]; simpl.
  eapply rtc_l; [apply Fork.main_recv1; reflexivity|]; simpl.
  apply rtc_refl.
Defined.

End Instances.

(** ** The compressor on small inputs *)
Section LzInstances.

Import Lzss.

Lemma Compress_input_size_witness :
  Compress DemoLz.ext 8 DemoLz.c DemoLz.large = (DemoLz.c, Fail (ErrInputSize 4)) /\
  inputIndex (fst (Compress DemoLz.ext 8 DemoLz.c DemoLz.small)) = Some DemoLz.small.
Proof.
  split.
  - apply (proj1 (Compress_input_size DemoLz.ext 8 DemoLz.c DemoLz.large)).
    vm_compute. reflexivity.
  - apply (proj2 (Compress_input_size DemoLz.ext 8 DemoLz.c DemoLz.small)).
    vm_compute. discriminate.
Defined.


End LzInstances.

(** ** More on the prover *)
Section ProverMore.

Import Plonk PlonkSpec RunSpec Complete.

(** X1. [evaluateLROSmallDomain] panics exactly outside the inputs of
    [lro_inputs]: when the cardinality does not fit an [int], when the rows of
    the public inputs and of the gates exceed the small domain, when the
    solution is empty or shorter than the public inputs, or when a wire of a
    gate is no index of the solution. *)
Theorem evaluateLROSmallDomain_defined spr pk solution :
  0 <= Cardinality (Domain0 pk) < 2 ^ 64 ->
  (is_Some (evaluateLROSmallDomain spr pk solution) <-> lro_inputs spr pk solution).
Proof.
  intros Hu64. split; [|apply evaluateLROSmallDomain_total].
  intros [[[l r] o] Hrun].
  pose proof (evaluateLRO_cardinality _ _ _ _ Hrun Hu64) as Hcard.
  pose proof (evaluateLROSmallDomain_inv _ _ _ _ _ _ Hrun) as Hrows.
  unfold lro_rows in Hrows. cbv zeta in Hrows.
  assert (Go.int_of_u64 (Cardinality (Domain0 pk)) = Cardinality (Domain0 pk)) as Hs.
  { unfold Go.int_of_u64. by rewrite bool_decide_true by lia. }
  rewrite Hs in Hrows.
  destruct Hrows as (Hl & Hr & Ho & s0 & Hs0 & Hpub & Hgate & Hpad).
  pose proof (len_nonneg (Public spr)) as Hp.
  pose proof (len_nonneg (Constraints spr)) as Hg.
  apply index_lt in Hs0 as Hsol.
  assert (Hwires : forall j c, Go.index (Constraints spr) j = Some c ->
            (0 <= WireID (L c) < Go.len solution /\
             0 <= WireID (R c) < Go.len solution /\
             0 <= WireID (O c) < Go.len solution) /\
            Go.len (Public spr) + j < Cardinality (Domain0 pk)).
  { intros j c Hc. destruct (Hgate j c Hc) as (vl & vr & vo & H1 & H2 & H3 & Hrow & _).
    apply index_lt in H1, H2, H3, Hrow. lia. }
  split; [done|]. split; [|split; [lia|split]].
  - destruct (decide (Go.len (Constraints spr) = 0)) as [H0|H0].
    + destruct (decide (Go.len (Public spr) = 0)) as [H1|H1]; [lia|].
      destruct (Hpub (Go.len (Public spr) - 1)) as (v & _ & Hrow & _); [lia|].
      apply index_lt in Hrow. lia.
    + destruct (index_is_Some (Constraints spr) (Go.len (Constraints spr) - 1))
        as [c Hc]; [lia|].
      apply Hwires in Hc. lia.
  - destruct (decide (Go.len (Public spr) = 0)) as [H1|H1]; [lia|].
    destruct (Hpub (Go.len (Public spr) - 1)) as (v & Hv & _); [lia|].
    apply index_lt in Hv. lia.
  - apply Forall_forall. intros c Hc.
    apply list_elem_of_lookup in Hc as [j Hj].
    apply (Hwires (Z.of_nat j) c). apply index_Some. split; [lia|].
    by rewrite Nat2Z.id.
Qed.

Lemma evaluateLROSmallDomain_defined_witness :
  is_Some (evaluateLROSmallDomain Demo.spr Demo.pk [3; 5; 9; 9]) <->
  lro_inputs Demo.spr Demo.pk [3; 5; 9; 9].
Proof.
  apply (evaluateLROSmallDomain_defined Demo.spr Demo.pk [3; 5; 9; 9]).
  split; [discriminate|reflexivity].
Defined.

(** X2. A run of [Prove] that returns without an error made the 35 calls of
    the schedule, in that order and each once, and the pointer it returns is
    not nil. None of the calls came back with an error, with one exception
    that the code makes: the solver may have failed when [opt.Force] is
    set. *)
Theorem Prove_no_error_run (env : Collaborators) spr pk w opt log p :
  Prove env spr pk w opt = (log, Returned p None) ->
  map tag_of log = schedule /\
  (forall l1 ev l2, log = l1 ++ ev :: l2 ->
     event_error env spr pk opt l1 ev = None \/
     (Force opt = true /\ l1 = [] /\ ev = EvSolve w)) /\
  exists proof, p = Some proof.
Proof.
  intros Hrun.
  destruct (Prove_run_ok env _ _ _ _ _ _ Hrun) as (_ & Herr & Hp & Htags).
  destruct p as [proof|]; [|done].
  split; [done|]. split; [|eauto].
  apply first_error_None in Herr.
  intros l1 ev l2 Hlog. destruct (Herr l1 ev l2 Hlog) as [Hev|Ho]; [by left|].
  right. destruct ev as [w0| | | | | | | |]; try discriminate Ho.
  split; [exact Ho|].
  assert (Hsolve : forall k, schedule !! k = Some TSolve -> k = 0%nat).
  { intros k. do 35 (destruct k as [|k]; [by intros [=]|]). cbn. by intros [=]. }
  assert (Hl1 : schedule !! length l1 = Some TSolve).
  { rewrite <- Htags, Hlog. cbn [app]. rewrite map_app. cbn [map tag_of].
    apply list_lookup_middle. by rewrite length_map. }
  apply Hsolve in Hl1. destruct l1; [|done].
  split; [done|].
  destruct (Prove_complete env _ _ _ _ _ _ Hrun) as (r & Hlogof & _).
  rewrite Hlogof in Hlog. unfold log_of in Hlog. cbn [app] in Hlog.
  injection Hlog; intros; congruence.
Qed.

Lemma Prove_no_error_run_witness :
  map tag_of Demo.log = schedule /\
  (forall l1 ev l2, Demo.log = l1 ++ ev :: l2 ->
     event_error Demo.env Demo.spr Demo.pk Demo.opt l1 ev = None \/
     (Force Demo.opt = true /\ l1 = [] /\ ev = EvSolve Demo.w)) /\
  exists proof, Some Demo.proof = Some proof.
Proof.
  exact (Prove_no_error_run Demo.env Demo.spr Demo.pk Demo.w Demo.opt Demo.log
           (Some Demo.proof) demo_run).
Defined.

(** X3. Whatever the outcome of [Prove], a proof, an error or a panic, the
    calls it made are an initial part of the schedule: the solver is called
    first and once, and no call is made twice. *)
Theorem Prove_calls_follow_schedule (env : Collaborators) spr pk w opt :
  map tag_of (fst (Prove env spr pk w opt)) `prefix_of` schedule /\
  exists rest, fst (Prove env spr pk w opt) = EvSolve w :: rest.
Proof.
  destruct (Prove env spr pk w opt) as [log out] eqn:Hrun. simpl.
  split; [apply (Prove_run_ok env _ _ _ _ _ _ Hrun)|].
  revert Hrun. unfold Prove, ProveBody.
  match goal with
  | |- to_outcome ?run = ?rhs -> ?G =>
      pose (Q := fun x => to_outcome x = rhs -> G); change (holds Q run)
  end.
  assert (Hrest : forall solution,
    holds Q (proveWithSolution env spr pk w solution ([] ++ [EvSolve w]))).
  { intros solution. unfold holds; subst Q; cbv beta. intros Hrun.
    apply (proveWithSolution_errors _ _ _ _ opt) in Hrun as (rest & -> & _). eauto. }
  step. destruct o as [err|]; [destruct (negb (Force opt))|]; repeat step;
    try apply Hrest;
    unfold holds; subst Q; cbv beta; cbn [to_outcome app]; intros [= <- _]; eauto.
Qed.

End ProverMore.

Section ProverSizes.

Import Plonk PlonkSpec RunSpec Complete.



End ProverSizes.

(** ** The commitments in one order *)
Section CommitOrder.

Import Plonk Fork.

Context (env : Collaborators).

(** X5. [commitToLRO] as [Prove] runs it and its interleavings agree:
    whenever an interleaving has returned, the run in one order returns the
    same error, writes no field of the proof but [LRO], and, when there is no
    error, leaves in [LRO] the three digests that the interleaving left in its
    slots. *)
Theorem commitToLRO_any_order bcl bcr bco proof srs log s e :
  reachable (Commit env bcl srs) (Commit env bcr srs) (Commit env bco srs)
    (LRO proof) s ->
  main s = MReturned e ->
  exists log' proof',
    commitToLRO env bcl bcr bco proof srs log = (log', Val (proof', e)) /\
    PZ proof' = PZ proof /\ H proof' = H proof /\
    BatchedProof proof' = BatchedProof proof /\
    ZShiftedOpening proof' = ZShiftedOpening proof /\
    (e = None ->
       LRO proof' = Arr3 (slot0 s) (slot1 s) (slot2 s) /\
       log' = log ++ [EvCommit bco; EvCommit bcl; EvCommit bcr]).
Proof.
  intros Hr Hm. apply fork_inv_reachable in Hr.
  destruct Hr as (_ & Hb & _ & Hd & He & _ & _ & Hh).
  unfold commitToLRO, kzgCommit, bind, call, ret.
  destruct (Hh e Hm) as [(e2 & Hc2 & ->)|(Hc2 & [H0 H1] & ->)]; rewrite Hc2.
  - do 2 eexists. split; [reflexivity|]. repeat split; done.
  - destruct (Hb ltac:(congruence)) as [Hs0 _].
    destruct (Hd ltac:(congruence)) as [Hs1 _].
    destruct (He ltac:(congruence)) as [Hs2 _].
    rewrite Hs0, Hs1, Hs2.
    destruct (snd (Commit env bcl srs)) as [e0|] eqn:Hc0.
    + do 2 eexists. split; [reflexivity|]. repeat split; done.
    + do 2 eexists. split; [reflexivity|]. repeat split; try done.
      by rewrite <- !app_assoc.
Qed.

(** X6. The same for [commitToQuotient] and the field [H]. *)
Theorem commitToQuotient_any_order h1 h2 h3 proof srs log s e :
  reachable (Commit env h1 srs) (Commit env h2 srs) (Commit env h3 srs)
    (H proof) s ->
  main s = MReturned e ->
  exists log' proof',
    commitToQuotient env h1 h2 h3 proof srs log = (log', Val (proof', e)) /\
    LRO proof' = LRO proof /\ PZ proof' = PZ proof /\
    BatchedProof proof' = BatchedProof proof /\
    ZShiftedOpening proof' = ZShiftedOpening proof /\
    (e = None ->
       H proof' = Arr3 (slot0 s) (slot1 s) (slot2 s) /\
       log' = log ++ [EvCommit h3; EvCommit h1; EvCommit h2]).
Proof.
  intros Hr Hm. apply fork_inv_reachable in Hr.
  destruct Hr as (_ & Hb & _ & Hd & He & _ & _ & Hh).
  unfold commitToQuotient, kzgCommit, bind, call, ret.
  destruct (Hh e Hm) as [(e2 & Hc2 & ->)|(Hc2 & [H0 H1] & ->)]; rewrite Hc2.
  - do 2 eexists. split; [reflexivity|]. repeat split; done.
  - destruct (Hb ltac:(congruence)) as [Hs0 _].
    destruct (Hd ltac:(congruence)) as [Hs1 _].
    destruct (He ltac:(congruence)) as [Hs2 _].
    rewrite Hs0, Hs1, Hs2.
    destruct (snd (Commit env h1 srs)) as [e0|] eqn:Hc0.
    + do 2 eexists. split; [reflexivity|]. repeat split; done.
    + do 2 eexists. split; [reflexivity|]. repeat split; try done.
      by rewrite <- !app_assoc.
Qed.

End CommitOrder.

(** ** The linearized polynomial *)
Section Linearized.

Import Plonk PlonkSpec.

#[local] Instance eqm_q_equiv' : Equivalence (eqm Fr.q) := eqm_setoid Fr.q.
#[local] Instance add_eqm_q' : Proper (eqm Fr.q ==> eqm Fr.q ==> eqm Fr.q) Z.add :=
  Zplus_eqm Fr.q.
#[local] Instance mul_eqm_q' : Proper (eqm Fr.q ==> eqm Fr.q ==> eqm Fr.q) Z.mul :=
  Zmult_eqm Fr.q.
#[local] Instance sub_eqm_q' : Proper (eqm Fr.q ==> eqm Fr.q ==> eqm Fr.q) Z.sub :=
  Zminus_eqm Fr.q.
#[local] Instance opp_eqm_q' : Proper (eqm Fr.q ==> eqm Fr.q) Z.opp :=
  Zopp_eqm Fr.q.

Context (env : Collaborators).

Lemma mod_q_eqm a : eqm Fr.q (a mod Fr.q) a.
Proof. apply Zmod_eqm. Qed.

Lemma cell_index (l : list fr) i v : Go.index l i = Some v -> cell l i = v.
Proof. unfold cell. by intros ->. Qed.

Lemma cell_beyond (l : list fr) i : Go.len l <= i -> cell l i = 0.
Proof.
  intros Hi. unfold cell. destruct (Go.index l i) as [v|] eqn:Hv; [|done].
  apply index_lt in Hv. lia.
Qed.

(** What the loop of [computeLinearizedPolynomial] leaves behind: as many
    coefficients as Z has, each of them the combination of
    [linearized_coefficient] modulo q; wherever the loop read [Qm], the other
    selectors had a coefficient too. *)
Lemma computeLinearizedPolynomial_cells
    l r o alpha beta gamma zeta zu blindedZ pk lin :
  0 <= Cardinality (Domain0 pk) < 2 ^ 63 ->
  computeLinearizedPolynomial env l r o alpha beta gamma zeta zu blindedZ pk = Some lin ->
  Go.len lin = Go.len blindedZ /\
  (forall i z, Go.index blindedZ i = Some z ->
     exists v, Go.index lin i = Some v /\
       v mod Fr.q
       = linearized_coefficient env l r o alpha beta gamma zeta zu pk i z mod Fr.q) /\
  (forall j, 0 <= j < Go.len blindedZ -> j < Go.len (Qm pk) ->
     j < Go.len (Ql pk) /\ j < Go.len (Qr pk) /\ j < Go.len (Qo pk) /\
     j < Go.len (CQk pk)).
Proof.
  intros Hcard.
  unfold computeLinearizedPolynomial, Go.parallelize, Go.for_upto. cbv zeta.
  assert (Go.int_of_u64 (Cardinality (Domain0 pk)) = Cardinality (Domain0 pk)) as ->.
  { unfold Go.int_of_u64. by rewrite bool_decide_true by lia. }
  assert (Hcopy : Go.copy (replicate (length blindedZ) Fr.zero) blindedZ = blindedZ).
  { unfold Go.copy. rewrite length_replicate, firstn_all, drop_ge, app_nil_r;
      [done|by rewrite length_replicate]. }
  rewrite Hcopy. clear Hcopy.
  match goal with
  | |- context [Go.for_range _ 0 ?f blindedZ] => set (body := f)
  end.
  pose (Inv := fun (i : Z) (cur : list fr) =>
    Go.len cur = Go.len blindedZ /\
    (forall j, i <= j -> Go.index cur j = Go.index blindedZ j) /\
    (forall j z, 0 <= j < i -> Go.index blindedZ j = Some z ->
       exists v, Go.index cur j = Some v /\
         v mod Fr.q
         = linearized_coefficient env l r o alpha beta gamma zeta zu pk j z mod Fr.q) /\
    (forall j, 0 <= j < i -> j < Go.len (Qm pk) ->
       j < Go.len (Ql pk) /\ j < Go.len (Qr pk) /\ j < Go.len (Qo pk) /\
       j < Go.len (CQk pk))).
  assert (Hstep : forall j cur cur',
    0 <= j < Go.len blindedZ -> Inv j cur -> body j cur = Some cur' -> Inv (j + 1) cur').
  { intros j cur cur' Hj (Hlen & Hrest & Hdone & Hsizes) Hb.
    destruct (index_is_Some blindedZ j Hj) as [z Hz].
    unfold body in Hb. rewrite (Hrest j), Hz in Hb by lia. simpl in Hb.
    assert (exists v, Go.store cur j v = Some cur' /\
              v mod Fr.q
              = linearized_coefficient env l r o alpha beta gamma zeta zu pk j z
                mod Fr.q /\
              (j < Go.len (Qm pk) ->
               j < Go.len (Ql pk) /\ j < Go.len (Qr pk) /\ j < Go.len (Qo pk) /\
               j < Go.len (CQk pk))) as (v & Hst & Hv & Hsz).
    { unfold linearized_coefficient. cbv zeta.
      revert Hb. repeat case_bool_decide; simpl;
        repeat (match goal with
                | |- context [Go.index ?s j] => destruct (Go.index s j) eqn:?
                end; simpl; try done);
        intros Hb; eexists; (split; [exact Hb|]);
        (split;
         [|intros;
           repeat match goal with
           | H : Go.index _ _ = Some _ |- _ => apply index_lt in H
           end; lia]);
        (rewrite ?(cell_beyond (S3Canonical pk)) by lia);
        repeat (erewrite cell_index by eassumption);
        set (den := Fr.inverse (Fr.sub zeta Fr.one));
        unfold Fr.add, Fr.mul, Fr.neg, Fr.sub, Fr.one;
        match goal with |- ?x mod _ = ?y mod _ => change (eqm Fr.q x y) end;
        (rewrite_strat topdown mod_q_eqm); unfold eqm; f_equal; ring. }
    split; [by rewrite (len_store _ _ _ _ Hst)|]. split; [|split].
    - intros k Hk. rewrite (index_store_ne _ _ _ _ _ Hst) by lia. apply Hrest. lia.
    - intros k z' Hk Hz'. destruct (decide (k = j)) as [->|Hne].
      + exists v. split; [by eapply index_store_eq|]. congruence.
      + rewrite (index_store_ne _ _ _ _ _ Hst) by lia. apply Hdone; [lia|done].
    - intros k Hk Hqm. destruct (decide (k = j)) as [->|Hne]; [by apply Hsz|].
      apply Hsizes; [lia|done]. }
  assert (Hinit : Inv 0 blindedZ).
  { split; [done|]. split; [done|]. split; intros; lia. }
  assert (Hn : Z.of_nat (Z.to_nat (Go.len blindedZ)) = Go.len blindedZ).
  { unfold Go.len. lia. }
  intros Hrun.
  pose proof (for_range_inv Inv body (Z.to_nat (Go.len blindedZ)) 0 blindedZ lin Hinit)
    as Hend.
  destruct Hend as (Hlen & _ & Hcells & Hsizes); [|done|].
  { intros j s0 s' Hj. apply Hstep. lia. }
  split; [done|]. split.
  - intros i z Hz. apply Hcells; [|done]. apply index_lt in Hz. lia.
  - intros j Hj. apply Hsizes. lia.
Qed.

(** X7. [computeLinearizedPolynomial] panics exactly when one of [Ql], [Qr],
    [Qo], [CQk] is shorter than both [Qm] and Z. Otherwise it returns as many
    coefficients as Z has, and coefficient [i] is, modulo q,
    [alpha * (S3[i] * s1 - Z[i] * s2) + gate(i) + Z[i] * L], with
    [s1 = (l + beta * S1(zeta) + gamma) * (r + beta * S2(zeta) + gamma) * zu * beta],
    [s2 = (l + beta * zeta + gamma) * (r + beta * u * zeta + gamma)
          * (o + beta * u^2 * zeta + gamma)],
    [L = (zeta^n - 1) / (zeta - 1) * alpha^2 / n] and
    [gate(i) = Qm[i] * l * r + Ql[i] * l + Qr[i] * r + Qo[i] * o + CQk[i]]
    where [Qm] has a coefficient [i], 0 elsewhere. *)
Theorem computeLinearizedPolynomial_coefficients
    l r o alpha beta gamma zeta zu blindedZ pk :
  0 <= Cardinality (Domain0 pk) < 2 ^ 63 ->
  (is_Some (computeLinearizedPolynomial env l r o alpha beta gamma zeta zu blindedZ pk)
   <-> gate_sizes pk blindedZ) /\
  forall lin,
    computeLinearizedPolynomial env l r o alpha beta gamma zeta zu blindedZ pk = Some lin ->
    Go.len lin = Go.len blindedZ /\
    forall i z, Go.index blindedZ i = Some z ->
      exists v, Go.index lin i = Some v /\
        v mod Fr.q
        = linearized_coefficient env l r o alpha beta gamma zeta zu pk i z mod Fr.q.
Proof.
  intros Hcard. split.
  - split.
    + intros [lin Hrun].
      destruct (computeLinearizedPolynomial_cells _ _ _ _ _ _ _ _ _ _ _ Hcard Hrun)
        as (_ & _ & Hsizes).
      unfold gate_sizes. cbv zeta.
      pose proof (len_nonneg (Ql pk)). pose proof (len_nonneg (Qr pk)).
      pose proof (len_nonneg (Qo pk)). pose proof (len_nonneg (CQk pk)).
      destruct (decide (Z.min (Go.len blindedZ) (Go.len (Qm pk)) <= 0)) as [?|Hk];
        [lia|].
      destruct (Hsizes (Z.min (Go.len blindedZ) (Go.len (Qm pk)) - 1)); lia.
    + intros (H1 & H2 & H3 & H4).
      unfold computeLinearizedPolynomial, Go.parallelize, Go.for_upto. cbv zeta.
      assert (Hcopy : Go.copy (replicate (length blindedZ) Fr.zero) blindedZ = blindedZ).
      { unfold Go.copy. rewrite length_replicate, firstn_all, drop_ge, app_nil_r;
          [done|by rewrite length_replicate]. }
      rewrite Hcopy. clear Hcopy.
      match goal with
      | |- context [Go.for_range _ 0 ?f blindedZ] => set (body := f)
      end.
      pose (Inv := fun (i : Z) (cur : list fr) =>
        Go.len cur = Go.len blindedZ /\
        forall j, i <= j -> Go.index cur j = Go.index blindedZ j).
      assert (Hn : Z.of_nat (Z.to_nat (Go.len blindedZ)) = Go.len blindedZ).
      { unfold Go.len. lia. }
      destruct (for_range_total Inv body (Z.to_nat (Go.len blindedZ)) 0 blindedZ)
        as (lin & Hrun & _); [done| |by exists lin].
      intros j cur Hj (Hlen & Hrest).
      assert (exists v, body j cur = Go.store cur j v) as [v Hb].
      { destruct (index_is_Some blindedZ j) as [z Hz]; [lia|].
        unfold body. rewrite (Hrest j), Hz by lia. simpl.
        repeat case_bool_decide; simpl;
          repeat (match goal with
                  | |- context [Go.index ?s j] =>
                      let H := fresh in
                      destruct (index_is_Some s j) as [? H]; [lia|rewrite H]
                  end; simpl);
          eexists; reflexivity. }
      destruct (store_is_Some cur j v) as [cur' Hst]; [lia|].
      exists cur'. rewrite Hb. split; [done|].
      split; [by rewrite (len_store _ _ _ _ Hst)|].
      intros k Hk. rewrite (index_store_ne _ _ _ _ _ Hst) by lia. apply Hrest. lia.
  - intros lin Hrun.
    destruct (computeLinearizedPolynomial_cells _ _ _ _ _ _ _ _ _ _ _ Hcard Hrun)
      as (Hlen & Hcells & _).
    done.
Qed.

End Linearized.

(** ** The opening of Z *)
Section Opening.

Import Plonk PlonkSpec RunSpec Complete.
Context (env : Collaborators).

(** C4. In every run of [Prove] that returns a proof, over a small domain
    whose cardinality [n] is a [uint64], there is exactly one call of
    [kzg.Open]: it opens Z, as the prover holds it, cut to [n] coefficients,
    at [zeta * Generator], and its answer is the [ZShiftedOpening] of the
    proof. The claimed value [zu] of that opening is the value that stands
    for Z at the shifted point in the linearized polynomial, the polynomial
    that is committed to and opened in the batch: that polynomial is
    [computeLinearizedPolynomial] on the evaluations at zeta of the wires of
    the solution, the challenges alpha, beta, gamma, zeta of the run, [zu],
    and the first [n + 2] coefficients of the same Z; [zu] enters each of its
    [n + 2] coefficients through the factor
    [(l + beta S1(zeta) + gamma) (r + beta S2(zeta) + gamma) zu beta] of
    [S3]. *)
Theorem Prove_opens_Z spr pk w opt log proof :
  0 <= Cardinality (Domain0 pk) < 2 ^ 64 ->
  Prove env spr pk w opt = (log, Returned (Some proof) None) ->
  exists r,
    log = log_of env pk w proof r /\
    (* the opening *)
    List.filter is_open log
    = [EvOpen (zc r) (Fr.mul (zeta r) (Generator (Vk pk)))] /\
    derived env log "zeta" = Some (zeta r) /\
    Commit env (Coefficients (ziop r)) (KZGSRS (Vk pk)) = (PZ proof, None) /\
    Go.slice (held_Z env pk (ziop r)) 0 (Cardinality (Domain0 pk)) = Some (zc r) /\
    Open env (zc r) (Fr.mul (zeta r) (Generator (Vk pk))) (KZGSRS (Vk pk))
    = (ZShiftedOpening proof, None) /\
    (* the linearized polynomial *)
    let zu := ClaimedValue (ZShiftedOpening proof) in
    computeLinearizedPolynomial env (blzeta r) (brzeta r) (bozeta r)
      (alpha r) (beta r) (gamma r) (zeta r) zu (blindedZ r) pk
    = Some (linearizedPolynomialCanonical r) /\
    (* what it is computed from *)
    derived env log "gamma" = Some (gamma r) /\
    derived env log "beta" = Some (beta r) /\
    derived env log "alpha" = Some (alpha r) /\
    (exists solution,
       settled env spr w opt = Some solution /\ wires env spr pk solution r) /\
    blzeta r = WEvaluate env (held_wire env pk (wliop r)) (zeta r) /\
    brzeta r = WEvaluate env (held_wire env pk (wriop r)) (zeta r) /\
    bozeta r = WEvaluate env (held_wire env pk (woiop r)) (zeta r) /\
    BuildRatioCopyConstraint env (copies r) (Permutation pk) (beta r) (gamma r)
      {| FBasis := Canonical; FLayout := Regular |} (Domain0 pk) = (ziop r, None) /\
    Go.slice (held_Z env pk (ziop r)) 0 (Cardinality (Domain0 pk) + 2)
    = Some (blindedZ r) /\
    (* the claimed value in its coefficients *)
    Go.len (linearizedPolynomialCanonical r) = Cardinality (Domain0 pk) + 2 /\
    forall i z, Go.index (blindedZ r) i = Some z ->
      exists v,
        Go.index (linearizedPolynomialCanonical r) i = Some v /\
        v mod Fr.q
        = linearized_coefficient env (blzeta r) (brzeta r) (bozeta r)
            (alpha r) (beta r) (gamma r) (zeta r) zu pk i z mod Fr.q.
Proof.
  intros Hu64 (r & -> & C & Hwires)%Prove_complete_wires.
  exists r. split; [done|]. split; [reflexivity|].
  do 4 (split; [apply C|]). cbv zeta.
  split; [apply C|]. do 3 (split; [apply C|]).
  split; [exact Hwires|]. do 4 (split; [apply C|]).
  destruct (run_lro _ _ _ _ _ _ C) as (solution & ev & Hev).
  pose proof (evaluateLRO_cardinality _ _ _ _ Hev Hu64) as Hn.
  pose proof (run_blindedZ _ _ _ _ _ _ C) as Hz.
  assert (Hm : Go.u64_add (Cardinality (Domain0 pk)) 2 = Cardinality (Domain0 pk) + 2).
  { unfold Go.u64_add. apply Z.mod_small. lia. }
  rewrite Hm in Hz. split; [exact Hz|].
  destruct (computeLinearizedPolynomial_cells env _ _ _ _ _ _ _ _ _ _ _ Hn
              (run_linearized _ _ _ _ _ _ C)) as (Hlen & Hcells & _).
  split; [|exact Hcells].
  rewrite Hlen. apply len_slice in Hz. lia.
Qed.

End Opening.

Section OpeningInstance.

Import Plonk PlonkSpec RunSpec Complete.

Lemma Prove_opens_Z_witness :
  exists r,
    Demo.log = log_of Demo.env Demo.pk Demo.w Demo.proof r /\
    List.filter is_open Demo.log
    = [EvOpen (zc r) (Fr.mul (zeta r) (Generator (Vk Demo.pk)))] /\
    computeLinearizedPolynomial Demo.env (blzeta r) (brzeta r) (bozeta r)
      (alpha r) (beta r) (gamma r) (zeta r)
      (ClaimedValue (ZShiftedOpening Demo.proof)) (blindedZ r) Demo.pk
    = Some (linearizedPolynomialCanonical r).
Proof.
  assert (Hc : 0 <= Cardinality (Domain0 Demo.pk) < 2 ^ 64)
    by (split; [discriminate|reflexivity]).
  destruct (Prove_opens_Z Demo.env Demo.spr Demo.pk Demo.w Demo.opt
              Demo.log Demo.proof Hc demo_run)
    as (r & Hlog & Hopen & _ & _ & _ & _ & Hlin & _).
  exists r. split; [assumption|]. split; assumption.
Defined.

End OpeningInstance.

(** ** The folding pass, again *)
Section FoldMore.

Import Plonk.

(** X8. The folding pass of [Prove] over the last chunk of the quotient
    panics exactly when one of the two other chunks is shorter than it;
    otherwise it returns as many coefficients as the last chunk has. *)
Theorem foldH_defined h1 h2 foldedH zp :
  (is_Some (foldH h1 h2 foldedH zp)
   <-> Go.len foldedH <= Go.len h1 /\ Go.len foldedH <= Go.len h2) /\
  forall folded, foldH h1 h2 foldedH zp = Some folded -> Go.len folded = Go.len foldedH.
Proof.
  split; [split|].
  - intros [folded Hrun]. apply foldH_spec in Hrun as [_ Hcells].
    pose proof (len_nonneg h1). pose proof (len_nonneg h2).
    destruct (decide (Go.len foldedH = 0)) as [?|Hne]; [lia|].
    pose proof (len_nonneg foldedH).
    destruct (Hcells (Go.len foldedH - 1)) as (a & b & c & Ha & Hb & _); [lia|].
    apply index_lt in Ha, Hb. lia.
  - intros [H1 H2]. unfold foldH, Go.parallelize, Go.for_upto.
    destruct (for_range_total (fun _ cur => Go.len cur = Go.len foldedH)
      (fun i foldedH =>
         x ← Go.index foldedH i;
         let x := Fr.mul x zp in
         y ← Go.index h2 i;
         let x := Fr.add x y in
         let x := Fr.mul x zp in
         y ← Go.index h1 i;
         let x := Fr.add x y in
         Go.store foldedH i x)
      (Z.to_nat (Go.len foldedH)) 0 foldedH) as (folded & Hrun & _); [done| |by exists folded].
    intros j cur Hj Hlen.
    assert (Hj' : 0 <= j < Go.len foldedH) by (unfold Go.len in *; lia).
    destruct (index_is_Some cur j) as [x Hx]; [lia|].
    destruct (index_is_Some h2 j) as [y Hy]; [lia|].
    destruct (index_is_Some h1 j) as [y' Hy']; [lia|].
    rewrite Hx. simpl. rewrite Hy. simpl. rewrite Hy'. simpl.
    match goal with
    | |- context [Go.store cur j ?v] =>
        destruct (store_is_Some cur j v) as [cur' Hst]; [lia|]
    end.
    exists cur'. split; [done|]. by rewrite (len_store _ _ _ _ Hst).
  - intros folded Hrun. by apply foldH_spec in Hrun as [-> _].
Qed.

End FoldMore.

(** ** What the quotient is computed from *)
Section Identities.

Import Plonk PlonkSpec RunSpec Complete.
Context (env : Collaborators).

Ltac start_success :=
  let Q := fresh "Q" in
  match goal with
  | |- to_outcome ?run = ?rhs -> ?G =>
      pose (Q := fun x => to_outcome x = rhs -> G); change (holds Q run)
  end;
  run_prover;
  try (lazymatch goal with
       | |- holds _ (_, Plonk.Panic) => idtac
       | |- holds _ (_, Plonk.Return None _) => idtac
       | |- holds _ (_, Plonk.Return _ (Some _)) => idtac
       end; unfold holds; subst Q; cbv beta; cbn [to_outcome]; intros [=]);
  unfold holds; subst Q; cbv beta; cbn [to_outcome]; intros [= <- <-].

Ltac run_fields :=
  cbn [pub wliop wriop woiop gamma beta alpha zeta copies ziop operands
       plonkCapture h h1 h2 h3 zc blindedZ blzeta brzeta bozeta
       linearizedPolynomialCanonical linearizedPolynomialDigest foldedH pl pr po
       constraintsCapture ps_constraints capture_a ps_a capture_b ps_b capture_c ps_c
       capture_u ps_u capture_v ps_v capture_w ps_w orderingCapture ps_ordering
       startsAtOneCapture ps_startsAtOne].

Ltac proof_fields :=
  cbn [at0 at1 at2 LRO PZ H withLRO withZ withH withBatchedProof
       withZShiftedOpening set0 set1 set2 emptyProof].

(** [copy(dst, src)], cell by cell. *)
Lemma index_copy (dst src : list fr) i :
  0 <= i < Go.len dst ->
  Go.index (Go.copy dst src) i
  = if bool_decide (i < Go.len src) then Go.index src i else Go.index dst i.
Proof.
  intros Hi. unfold Go.copy, Go.index, Go.len in *.
  rewrite !bool_decide_true by lia.
  case_bool_decide.
  - rewrite lookup_app_l by (rewrite length_take; lia).
    rewrite lookup_take_lt by lia. done.
  - rewrite lookup_app_r by (rewrite length_take; lia).
    rewrite length_take, lookup_drop. f_equal. lia.
Qed.

Lemma len_copy (dst src : list fr) : Go.len (Go.copy dst src) = Go.len dst.
Proof.
  unfold Go.copy, Go.len. rewrite length_app, length_take, length_drop. lia.
Qed.

Lemma index_app (a b : list fr) i :
  0 <= i ->
  Go.index (a ++ b) i
  = if bool_decide (i < Go.len a) then Go.index a i else Go.index b (i - Go.len a).
Proof.
  intros Hi. unfold Go.index, Go.len. rewrite bool_decide_true by lia.
  case_bool_decide.
  - by rewrite lookup_app_l by lia.
  - rewrite bool_decide_true by lia. rewrite lookup_app_r by lia. f_equal. lia.
Qed.

Lemma index_take (l : list fr) k i :
  0 <= i < Z.of_nat k -> Go.index (take k l) i = Go.index l i.
Proof.
  intros Hi. unfold Go.index. rewrite bool_decide_true by lia.
  by rewrite lookup_take_lt by lia.
Qed.

Lemma index_make (z : fr) n l i :
  Go.make z n = Some l -> 0 <= i < n -> Go.index l i = Some z.
Proof.
  unfold Go.make. case_bool_decide; [|done]. intros [= <-] Hi.
  unfold Go.index. rewrite bool_decide_true by lia.
  apply lookup_replicate_2. lia.
Qed.

(** The completion of qK with the public inputs, as [Prove] computes it. *)
Lemma completed_qk_copy spr pk w zeros pub tail lqk :
  Go.make Fr.zero (Cardinality (Domain0 pk)) = Some zeros ->
  Go.slice w 0 (Go.len (Public spr)) = Some pub ->
  Go.slice (Go.copy zeros pub) (Go.len (Public spr)) (Go.len (Go.copy zeros pub))
  = Some tail ->
  Go.slice (LQk pk) (Go.len (Public spr)) (Go.len (LQk pk)) = Some lqk ->
  completed_qk spr pk w
    (take (Z.to_nat (Go.len (Public spr))) (Go.copy zeros pub) ++ Go.copy tail lqk).
Proof.
  intros Hz Hpub Htail Hlqk.
  pose proof (len_make _ _ _ Hz) as Hlz.
  pose proof (len_slice _ _ _ _ Hpub) as Hlp. rewrite Z.sub_0_r in Hlp.
  pose proof (len_copy zeros pub) as Hlc.
  pose proof (len_slice _ _ _ _ Htail) as Hlt. rewrite Hlc in Hlt.
  pose proof (len_slice _ _ _ _ Hlqk) as Hll.
  pose proof (slice_inv _ _ _ _ Htail) as (Hp & _ & _). rewrite Hlc in Hp.
  pose proof (slice_inv _ _ _ _ Hlqk) as (Hq & _ & _).
  pose proof (len_copy tail lqk) as Hlc'.
  assert (Hlen_take :
    Go.len (take (Z.to_nat (Go.len (Public spr))) (Go.copy zeros pub))
    = Go.len (Public spr)).
  { clear -Hlc Hp. unfold Go.len in *. rewrite length_take. lia. }
  split; [|split].
  - clear -Hlc' Hlen_take Hlt Hlz. unfold Go.len in *. rewrite length_app. lia.
  - intros i Hi. rewrite index_app by lia. rewrite Hlen_take.
    rewrite bool_decide_true by lia. rewrite index_take by (unfold Go.len in *; lia).
    rewrite index_copy by lia. rewrite bool_decide_true by lia.
    rewrite (index_slice _ _ _ _ _ Hpub) by lia. f_equal; lia.
  - intros i Hi. rewrite index_app by lia. rewrite Hlen_take.
    rewrite bool_decide_false by lia. rewrite index_copy by lia.
    case_bool_decide as Hin.
    + rewrite (index_slice _ _ _ _ _ Hlqk) by lia.
      replace (Go.len (Public spr) + (i - Go.len (Public spr))) with i by lia.
      destruct (index_is_Some (LQk pk) i) as [x Hx]; [lia|].
      by rewrite Hx, (cell_index _ _ _ Hx).
    + rewrite (index_slice _ _ _ _ _ Htail) by lia.
      replace (Go.len (Public spr) + (i - Go.len (Public spr))) with i by lia.
      rewrite index_copy by lia. rewrite bool_decide_false by lia.
      rewrite (index_make _ _ _ _ Hz) by lia.
      by rewrite cell_beyond by lia.
Qed.

(** [make] followed by the store of a 1. *)
Lemma unit_vector_make n i v0 v :
  Go.make Fr.zero n = Some v0 -> Go.store v0 i Fr.one = Some v -> unit_vector n i v.
Proof.
  intros Hm Hs. pose proof (len_make _ _ _ Hm) as Hl.
  split; [by rewrite (len_store _ _ _ _ Hs)|].
  intros j Hj. case_bool_decide as Hji.
  - subst j. by eapply index_store_eq.
  - rewrite (index_store_ne _ _ _ _ _ Hs) by done. by eapply index_make.
Qed.

Lemma proveWithSolution_quotient_inputs spr pk w solution log proof :
  to_outcome (proveWithSolution env spr pk w solution ([] ++ [EvSolve w]))
    = (log, Returned (Some proof) None) ->
  exists r,
    log = log_of env pk w proof r /\
    quotient_inputs env spr pk w log r /\
    wires env spr pk solution r /\
    BuildRatioCopyConstraint env (copies r) (Permutation pk) (beta r) (gamma r)
      {| FBasis := Canonical; FLayout := Regular |} (Domain0 pk) = (ziop r, None).
Proof.
  start_success.
  subst.
  match goal with
  | H3 : Go.slice (Go.copy ?z ?pb) _ _ = Some ?t,
    H4 : Go.slice (LQk pk) _ _ = Some ?lq |- _ =>
      assert (Hqk : completed_qk spr pk w
                (take (Z.to_nat (Go.len (Public spr))) (Go.copy z pb) ++ Go.copy t lq))
        by (eapply completed_qk_copy; eassumption)
  end.
  match goal with
  | H1 : Go.make Fr.zero (Cardinality (Domain1 pk)) = Some ?v0,
    H2 : Go.store ?v0 1 Fr.one = Some ?v |- _ =>
      pose proof (unit_vector_make _ _ _ _ H1 H2) as Hid
  end.
  match goal with
  | H1 : Go.make Fr.zero (Cardinality (Domain0 pk)) = Some ?v0,
    H2 : Go.store ?v0 0 Fr.one = Some ?v |- _ =>
      pose proof (unit_vector_make _ _ _ _ H1 H2) as Hlone
  end.
  match goal with
  | H : evaluateLROSmallDomain spr pk solution = Some ?ev |- _ =>
      destruct ev as [[? ?] ?]
  end.
  unshelve eexists; [econstructor; shelve|].
  cbn [app transcript List.filter is_transcript at0 at1 at2 LRO PZ H BatchedProof
       ZShiftedOpening withLRO withZ withH withBatchedProof withZShiftedOpening
       set0 set1 set2 emptyProof fst snd] in *.
  split; [reflexivity|].
  split;
    [|split;
      [unfold wires; run_fields; do 3 eexists; split; [eassumption|];
       unfold wire; repeat split; reflexivity
      |run_fields; eassumption]].
  unfold quotient_inputs. cbv zeta. run_fields.
  do 22 eexists.
  split_and!.
  1-3: (unfold derived;
    cbn [derived_from log_of app String.eqb Ascii.eqb Bool.eqb transcript List.filter
         is_transcript];
    match goal with
    | H : ComputeChallenge _ ?t ?l = _ |- context [ComputeChallenge _ ?t ?l] =>
        rewrite H
    end; reflexivity).
  all: try eassumption.
  all: try reflexivity.
  Unshelve.
  all: first [ exact Fr.zero | exact []
             | exact (NewPolynomial [] {| FBasis := Canonical; FLayout := Regular |}) ].
Qed.

(** X17. In a run of [Prove] that returns a proof, the quotient is what
    [ComputeQuotient] answers on three evaluations bundled as
    [x + alpha y + alpha^2 z]: the identity of the gates
    [qL L + qR R + qM L R + qO O + qK] on the selectors of the key and the
    wires of the solution, qK being completed with the public inputs of the
    witness; the identity [z' u v w - z a b c] of the permutation on Z (the
    answer of [BuildRatioCopyConstraint] on the wires), its shift and the six
    answers of [x + c y + gamma] for the wires against the polynomial X of the
    large domain, with [c] the challenge beta times 1, g, g^2, and against
    S1, S2, S3 of the key with [c] beta; and [z l - l] on Z and the first
    Lagrange polynomial of the small domain. gamma, beta and alpha are the
    challenges derived in that run. *)
Theorem Prove_quotient_inputs spr pk w opt log proof :
  Prove env spr pk w opt = (log, Returned (Some proof) None) ->
  exists r,
    log = log_of env pk w proof r /\
    quotient_inputs env spr pk w log r /\
    (exists solution,
       settled env spr w opt = Some solution /\ wires env spr pk solution r) /\
    BuildRatioCopyConstraint env (copies r) (Permutation pk) (beta r) (gamma r)
      {| FBasis := Canonical; FLayout := Regular |} (Domain0 pk) = (ziop r, None).
Proof.
  intros (solution & Hs & Hrun)%(Prove_success_settled env).
  apply proveWithSolution_quotient_inputs in Hrun as (r & Hlog & Hq & Hw & Hz).
  exists r. eauto 8.
Qed.

End Identities.

(** ** Progress of the compressor *)
Section Progress.

Import Lzss LzssSpec.

Context (ext : Externals).
Hypothesis Hlookup : lookup_ok ext.
Hypothesis Hsavings : savings_ok ext.

Lemma covers_snoc d out j o j' :
  covers d 0 out = Some j -> advance d j o = Some j' -> covers d 0 (out ++ [o]) = Some j'.
Proof. unfold covers. intros H1 H2. rewrite foldl_app. simpl. by rewrite H1. Qed.

Lemma covers_byte d out j b :
  covers d 0 out = Some j -> Go.index d j = Some b ->
  covers d 0 (out ++ [WByte b]) = Some (j + 1).
Proof.
  intros H1 H2. apply (covers_snoc _ _ j); [done|]. simpl. rewrite H2.
  by rewrite (Byte.byte_dec_lb (eq_refl b)).
Qed.

Lemma covers_backref d out j br :
  covers d 0 out = Some j -> 1 <= length br -> j + length br <= Go.len d ->
  covers d 0 (writeTo br out j) = Some (j + length br).
Proof.
  intros H1 H2 H3. apply (covers_snoc _ _ j); [done|]. simpl.
  by rewrite bool_decide_true.
Qed.

(** A search never panics on a position of the input; what it finds lies
    within the input and is at least as long as was asked. *)
Lemma findBackRef_found c d i t m :
  0 <= i -> inputIndex c <> None ->
  (m = -1 -> 1 <= nbBytesBackRef t) -> (m <> -1 -> 1 <= m) ->
  exists a l,
    findBackRef ext c d i t m = Val (a, l) /\
    (l = -1 \/ (1 <= l /\ i + l <= Go.len d /\ (m <> -1 -> m <= l))).
Proof.
  intros Hi Hidx Hm1 Hm2. unfold findBackRef. cbv zeta.
  set (m' := if bool_decide (m = -1) then nbBytesBackRef t else m).
  assert (Hm' : 1 <= m' /\ (m <> -1 -> m' = m)).
  { unfold m'. case_bool_decide; split; auto; done. }
  case_bool_decide; [by eauto|].
  set (maxRefLen := if bool_decide (i + maxLength t > Go.len d)
                    then Go.len d - i else maxLength t).
  assert (HmaxRef : i + maxRefLen <= Go.len d).
  { unfold maxRefLen. case_bool_decide; lia. }
  case_bool_decide; [by eauto|].
  unfold Go.slice. rewrite bool_decide_true by lia. simpl.
  destruct (inputIndex c) as [input|] eqn:Hinput; [|done].
  destruct (dictOnly t).
  - destruct (Hlookup (dictIndex c)
      (take (Z.to_nat (i + maxRefLen - i)) (drop (Z.to_nat i) d)) m' maxRefLen 0
      (Go.len (dictData c))) as [Heq|Hb].
    + rewrite Heq. eauto.
    + destruct (LookupLongest _ _ _ _ _ _ _) as [a l]. simpl in Hb.
      exists a, l. split; [done|]. right. destruct Hm' as [? Hm'].
      split; [lia|]. split; [lia|]. intros Hne. rewrite <- (Hm' Hne). lia.
  - destruct (Hlookup input
      (take (Z.to_nat (i + maxRefLen - i)) (drop (Z.to_nat i) d)) m' maxRefLen
      (max 0 (i - maxAddress t)) i) as [Heq|Hb].
    + rewrite Heq. eauto.
    + destruct (LookupLongest _ _ _ _ _ _ _) as [a l]. simpl in Hb.
      exists a, l. split; [done|]. right. destruct Hm' as [? Hm'].
      split; [lia|]. split; [lia|]. intros Hne. rewrite <- (Hm' Hne). lia.
Qed.

(** The three searches of [fillBackrefs] and the choice of [bestBackref]:
    when something was found, the best candidate was found. *)
Lemma fill_best c d bs i m :
  0 <= i -> inputIndex c <> None -> typed bs -> (m <> -1 -> 1 <= m) ->
  exists found bs',
    fillBackrefs ext c d bs i m = Val (found, bs') /\
    typed bs' /\
    (found = true ->
     1 <= length (fst (bestBackref ext bs')) /\
     i + length (fst (bestBackref ext bs')) <= Go.len d /\
     (m <> -1 -> m <= length (fst (bestBackref ext bs')))).
Proof.
  intros Hi Hidx (Ht1 & Ht2 & Ht3) Hm. unfold fillBackrefs.
  destruct (findBackRef_found c d i (bType (bDict bs)) m) as (a1 & l1 & -> & H1); auto.
  destruct (findBackRef_found c d i (bType (bShort bs)) m) as (a2 & l2 & -> & H2); auto.
  destruct (findBackRef_found c d i (bType (bLong bs)) m) as (a3 & l3 & -> & H3); auto.
  simpl. do 2 eexists. split; [reflexivity|]. split; [done|].
  intros Hfound. apply negb_true_iff in Hfound.
  set (bd := {| address := a1; length := l1; bType := bType (bDict bs) |}) in *.
  set (bsh := {| address := a2; length := l2; bType := bType (bShort bs) |}) in *.
  set (bl := {| address := a3; length := l3; bType := bType (bLong bs) |}) in *.
  assert (Hpick : forall b l,
    length b = l ->
    l = -1 \/ 1 <= l /\ i + l <= Go.len d /\ (m <> -1 -> m <= l) ->
    l <> -1 ->
    1 <= length b /\ i + length b <= Go.len d /\ (m <> -1 -> m <= length b)).
  { intros b l -> [?|?] ?; [done|done]. }
  unfold bestBackref. cbn [bDict bShort bLong].
  destruct (bool_decide (length bd <> -1) && bool_decide (savings ext bd > savings ext bsh)
            && bool_decide (savings ext bd > savings ext bl)) eqn:Hc1.
  { apply andb_prop in Hc1 as [Hc1 _]. apply andb_prop in Hc1 as [Hc1 _].
    apply bool_decide_eq_true in Hc1. cbn [fst]. by apply (Hpick bd l1). }
  destruct (bool_decide (length bsh <> -1)
            && bool_decide (savings ext bsh > savings ext bl)) eqn:Hc2.
  { apply andb_prop in Hc2 as [Hc2 _].
    apply bool_decide_eq_true in Hc2. cbn [fst]. by apply (Hpick bsh l2). }
  cbn [fst]. apply (Hpick bl l3); [done|done|]. intros Hl3.
  assert (Hl2 : l2 = -1).
  { destruct (decide (l2 = -1)) as [|Hne]; [done|]. exfalso.
    destruct H2 as [?|(Hl2 & _)]; [done|].
    pose proof (Hsavings bl bsh Hl3 Hl2) as Hlt.
    rewrite bool_decide_true in Hc2 by done.
    rewrite bool_decide_true in Hc2 by lia. done. }
  assert (Hl1 : l1 <> -1).
  { intros Hl1. cbn [length bd bsh bl] in Hfound.
    rewrite !bool_decide_true in Hfound by done. done. }
  destruct H1 as [?|(Hl1' & _)]; [done|].
  pose proof (Hsavings bsh bd Hl2 Hl1') as Hlt1.
  pose proof (Hsavings bl bd Hl3 Hl1') as Hlt2.
  rewrite bool_decide_true in Hc1 by done.
  rewrite !bool_decide_true in Hc1 by lia. done.
Qed.

Ltac fill Hidx :=
  match goal with
  | |- context [fillBackrefs ext ?c ?d ?bs ?i ?m] =>
      let found := fresh "found" in
      let bs' := fresh "bs" in
      let Hf := fresh "Hfill" in
      let Ht := fresh "Htyped" in
      let Hb := fresh "Hbest" in
      destruct (fill_best c d bs i m) as (found & bs' & Hf & Ht & Hb);
      [lia|exact Hidx|assumption|lia|];
      rewrite Hf; cbn [rbind fst snd];
      destruct found; cbn [negb];
      [specialize (Hb eq_refl); destruct Hb as (? & ? & ?)|clear Hb]
  end.

Ltac tiled :=
  cbn [rbind inrange]; unfold loop_inv; cbn [pos out cands];
  (split; [split; [lia|split; [|assumption]]|lia]);
  repeat first
    [ assumption
    | apply covers_backref; [|lia|lia]
    | apply covers_byte; [|assumption] ].

Lemma round_progress c d st :
  inputIndex c <> None -> loop_inv d st -> pos st < Go.len d ->
  round_outcome ext d st (round ext c d st).
Proof.
  intros Hidx (Hpos & Hcov & Hty) Hlt.
  destruct st as [o bs i]. cbn [pos out cands] in *.
  destruct (index_is_Some d i) as [b Hb]; [lia|].
  unfold round, round_outcome. cbn [pos out cands]. cbv zeta.
  rewrite Hb. cbn [inrange rbind].
  destruct (canEncodeSymbol ext b) eqn:Hsym; cbn [negb].
  - fill Hidx.
    + case_bool_decide; cbn [rbind].
      * fill Hidx.
        -- case_bool_decide; cbn [rbind].
           ++ unfold writeByte at 1. rewrite Hsym. cbn [negb rbind].
              destruct (index_is_Some d (i + 1)) as [b1 Hb1]; [lia|].
              rewrite Hb1. cbn [inrange rbind].
              destruct (canEncodeSymbol ext b1) eqn:Hsym1; cbn [andb].
              ** case_bool_decide; cbn [rbind]; [|tiled].
                 fill Hidx; [|tiled].
                 case_bool_decide; cbn [rbind]; [|tiled].
                 unfold writeByte at 1. rewrite Hsym1. cbn [negb rbind]. tiled.
              ** tiled.
           ++ tiled.
        -- case_bool_decide; cbn [rbind].
           ++ destruct (index_is_Some d (i + 1)) as [b1 Hb1]; [lia|].
              rewrite Hb1. cbn [inrange rbind].
              destruct (canEncodeSymbol ext b1) eqn:Hsym1; [|tiled].
              fill Hidx; [|tiled].
              case_bool_decide; cbn [rbind]; [|tiled].
              unfold writeByte at 1. rewrite Hsym. cbn [negb rbind].
              unfold writeByte at 1. rewrite Hsym1. cbn [negb rbind]. tiled.
           ++ tiled.
      * tiled.
    + unfold writeByte. rewrite Hsym. cbn [negb rbind]. tiled.
  - fill Hidx.
    + tiled.
    + split; [done|]. eauto.
Qed.

(** The loop of [Compress], from a state between two rounds. *)
Lemma loop_outcome fuel c d : forall st,
  inputIndex c <> None -> loop_inv d st ->
  match loop ext fuel c d st with
  | (o, Val st') => loop_inv d st' /\ pos st' = Go.len d /\ o = out st'
  | (o, Fail e) =>
      exists i, e = ErrNoBackref i /\ covers d 0 o = Some i /\
        exists b, Go.index d i = Some b /\ canEncodeSymbol ext b = false
  | (o, Panic _) => False
  | (o, OutOfFuel) => Z.of_nat fuel < Go.len d - pos st
  end.
Proof.
  induction fuel as [|fuel IH]; intros st Hidx Hinv; simpl.
  - case_bool_decide; simpl; [lia|]. pose proof Hinv as (Hpos & _ & _).
    split; [done|]. split; [lia|done].
  - case_bool_decide as Hlt; simpl.
    + pose proof (round_progress c d st Hidx Hinv Hlt) as Hround.
      destruct (round ext c d st) as [st'|e|p|]; simpl in Hround; [| |done..].
      * destruct Hround as [Hinv' Hadv]. specialize (IH st' Hidx Hinv').
        destruct (loop ext fuel c d st') as [o [st''|e|p|]]; [done..|lia].
      * destruct Hround as (-> & b & Hb & Hsym). destruct Hinv as (_ & Hcov & _).
        eauto 6.
    + pose proof Hinv as (Hpos & _ & _). split; [done|]. split; [lia|done].
Qed.

Lemma wordAlign_defined mode a :
  uint8 mode <> 0 -> exists r, wordAlign mode a = Val r.
Proof. intros Hm. unfold wordAlign. rewrite bool_decide_false by done. eauto. Qed.

(** In the mode 0 the word alignment divides by zero. *)
Lemma mode_zero_result fuel (c : Compressor) (d : list byte) :
  Go.len d <= maxInputSize ext -> uint8 (compressionMode c) = 0 ->
  snd (Compress ext fuel c d) = Panic DivideByZero.
Proof.
  intros Hlen Hmode. unfold Compress. rewrite bool_decide_false by lia.
  cbv zeta. unfold initBackRefTypes, wordAlign. cbv zeta.
  cbn [compressionMode withInputIndex withBuf].
  by rewrite bool_decide_true.
Qed.

(** What [Compress] leaves behind on an input that passes the size check,
    in a mode other than 0. *)
Lemma Compress_outcome fuel c d :
  types_ok ext -> Go.len d <= maxInputSize ext -> uint8 (compressionMode c) <> 0 ->
  match snd (Compress ext fuel c d) with
  | Val bytes =>
      covers d 0 (buf (fst (Compress ext fuel c d))) = Some (Go.len d) /\
      bytes = Bytes ext (buf (fst (Compress ext fuel c d)))
  | Fail (ErrNoBackref i) =>
      covers d 0 (buf (fst (Compress ext fuel c d))) = Some i /\
      exists b, Go.index d i = Some b /\ canEncodeSymbol ext b = false
  | Fail (ErrWriter _) =>
      covers d 0 (buf (fst (Compress ext fuel c d))) = Some (Go.len d)
  | Fail (ErrInputSize _) => False
  | Panic _ => False
  | OutOfFuel => Z.of_nat fuel < Go.len d
  end.
Proof.
  intros Htypes Hlen Hmode. unfold Compress. rewrite bool_decide_false by lia.
  cbv zeta. unfold initBackRefTypes.
  cbn [compressionMode withInputIndex withBuf dictData].
  destruct (wordAlign_defined (compressionMode c) 14 Hmode) as [a1 ->].
  destruct (wordAlign_defined (compressionMode c) 19 Hmode) as [a2 ->].
  destruct (wordAlign_defined (compressionMode c) (bitsLen (Go.len (dictData c))) Hmode)
    as [a3 ->].
  cbn [rbind].
  match goal with
  | |- context [loop ext fuel ?c' d ?st] =>
      pose proof (loop_outcome fuel c' d st) as Hloop;
      destruct (loop ext fuel c' d st) as [o [st'|e|p|]]
  end; cbn [fst snd buf withBuf] in *.
  - destruct Hloop as ((_ & Hcov & _) & Hend & ->); [done| |].
    { split; [pose proof (len_nonneg d); simpl; lia|]. split; [done|].
      repeat split; apply Htypes. }
    rewrite Hend in Hcov.
    destruct (TryError ext (out st')); cbn [fst snd buf]; [done|].
    destruct (Close ext (out st')); cbn [fst snd buf]; done.
  - destruct Hloop as (i & -> & Hcov & Hb); [done| |done].
    split; [pose proof (len_nonneg d); simpl; lia|]. split; [done|].
    repeat split; apply Htypes.
  - apply Hloop; [done|].
    split; [pose proof (len_nonneg d); simpl; lia|]. split; [done|].
    repeat split; apply Htypes.
  - cbn [pos] in Hloop. rewrite Z.sub_0_r in Hloop. apply Hloop; [done|].
    split; [pose proof (len_nonneg d); simpl; lia|]. split; [done|].
    repeat split; apply Htypes.
Qed.

End Progress.

(** ** More on the compressor *)
Section CompressorMore.

Import Lzss LzssSpec.

Context (ext : Externals).

(** X9. [NewCompressor] refuses a dictionary of more than [maxDictSize - 3]
    bytes. Otherwise the compressor it makes starts with an empty buffer and
    keeps the dictionary followed by the three reserved symbols, so that every
    symbol that cannot be written directly occurs in the dictionary. *)
Theorem NewCompressor_dict (dict : list byte) (mode : Z) :
  (Go.len dict + 3 > maxDictSize ext ->
     NewCompressor ext dict mode = DictTooLarge (maxDictSize ext)) /\
  (Go.len dict + 3 <= maxDictSize ext ->
     exists c,
       NewCompressor ext dict mode = Made c /\
       buf c = [] /\ compressionMode c = mode /\ dictIndex c = dictData c /\
       dictData c = dict ++ [symbolDict ext; symbolShort ext; symbolLong ext] /\
       Go.len (dictData c) = Go.len dict + 3 /\
       forall b, canEncodeSymbol ext b = false -> In b (dictData c)).
Proof.
  assert (Hlen : Go.len (augmentDict ext dict) = Go.len dict + 3).
  { unfold augmentDict, Go.len. rewrite length_app. simpl. lia. }
  unfold NewCompressor. cbv zeta. rewrite Hlen. split; intros Hsize.
  - by rewrite bool_decide_true.
  - rewrite bool_decide_false by lia. eexists. split; [reflexivity|]. simpl.
    repeat split; [done|].
    intros b Hb. unfold canEncodeSymbol in Hb. apply in_or_app. right.
    destruct (Byte.eqb b (symbolDict ext)) eqn:H1;
      [apply Byte.byte_dec_bl in H1 as ->; simpl; auto|].
    destruct (Byte.eqb b (symbolShort ext)) eqn:H2;
      [apply Byte.byte_dec_bl in H2 as ->; simpl; auto|].
    destruct (Byte.eqb b (symbolLong ext)) eqn:H3;
      [apply Byte.byte_dec_bl in H3 as ->; simpl; auto|].
    done.
Qed.

(** X10. The rounding of [initBackRefTypes]: for a mode [m] other than 0
    and a width [a] with [a + m - 1] within a byte, [wordAlign] returns the
    least multiple of [m] that is at least [a]. *)
Theorem wordAlign_rounds_up (mode a : Z) :
  0 < uint8 mode -> 0 <= a -> a + uint8 mode <= 256 ->
  exists r,
    wordAlign mode a = Val r /\
    a <= r < a + uint8 mode /\ r mod uint8 mode = 0.
Proof.
  intros Hm Ha Hfit. unfold wordAlign. cbv zeta.
  rewrite bool_decide_false by lia.
  set (m := uint8 mode) in *.
  assert (Ht : uint8 (uint8 (uint8 a + m) - 1) = a + m - 1).
  { unfold uint8 at 1 2 3. rewrite (Z.mod_small a) by lia.
    rewrite Zminus_mod_idemp_l. apply Z.mod_small. lia. }
  rewrite Ht.
  pose proof (Z.mod_pos_bound (a + m - 1) m Hm) as Hmod.
  pose proof (Z.div_mod (a + m - 1) m ltac:(lia)) as Hdiv.
  assert (Hr : uint8 ((a + m - 1) / m * m) = (a + m - 1) / m * m).
  { unfold uint8. apply Z.mod_small. nia. }
  rewrite Hr. eexists. split; [reflexivity|]. split; [nia|].
  apply Z.mod_mul. lia.
Qed.

Lemma wordAlign_rounds_up_witness :
  exists r, wordAlign 8 19 = Val r /\ 19 <= r < 19 + uint8 8 /\ r mod uint8 8 = 0.
Proof. apply (wordAlign_rounds_up 8 19); [reflexivity|discriminate|discriminate]. Defined.

(** X11. In the mode 0, [Compress] panics on a division by zero for every
    input that passes the size check, after it has reset the buffer and built
    the index of the input. *)
Theorem Compress_mode_zero fuel (c : Compressor) (d : list byte) :
  Go.len d <= maxInputSize ext -> uint8 (compressionMode c) = 0 ->
  Compress ext fuel c d = (withInputIndex (withBuf c []) d, Panic DivideByZero).
Proof.
  intros Hlen Hmode. unfold Compress. rewrite bool_decide_false by lia.
  cbv zeta. unfold initBackRefTypes, wordAlign. cbv zeta.
  cbn [compressionMode withInputIndex withBuf].
  by rewrite bool_decide_true.
Qed.

Section Contracts.

Hypothesis Hlookup : lookup_ok ext.
Hypothesis Hsavings : savings_ok ext.
Hypothesis Htypes : types_ok ext.

(** X13. [Compress] returns: given as many rounds as the input has bytes,
    on an input that passes the size check and in a mode other than 0, it
    neither runs out of rounds nor panics, whatever the input: no index or
    slice goes out of range, no index is nil, [writeByte] does not panic. *)
Theorem Compress_returns fuel (c : Compressor) (d : list byte) :
  Go.len d <= maxInputSize ext -> uint8 (compressionMode c) <> 0 ->
  Go.len d <= Z.of_nat fuel ->
  snd (Compress ext fuel c d) <> OutOfFuel /\
  forall p, snd (Compress ext fuel c d) <> Panic p.
Proof.
  intros Hlen Hmode Hfuel.
  pose proof (Compress_outcome ext Hlookup Hsavings fuel c d Htypes Hlen Hmode) as Hout.
  destruct (snd (Compress ext fuel c d)) as [bytes|e|p|]; [done|done|done|lia].
Qed.

(** X14. When [Compress] returns its output, the operations it wrote account
    for the input from its first byte to its last, in order: a byte written
    directly is the byte of the input at the position reached, a
    back-reference is written for the position reached, stands for at least
    one byte and ends within the input. *)
Theorem Compress_tiles fuel (c c' : Compressor) (d bytes : list byte) :
  Compress ext fuel c d = (c', Val bytes) ->
  covers d 0 (buf c') = Some (Go.len d) /\ bytes = Bytes ext (buf c').
Proof.
  intros Hrun.
  destruct (decide (Go.len d <= maxInputSize ext)) as [Hlen|Hlen].
  - destruct (decide (uint8 (compressionMode c) = 0)) as [Hmode|Hmode].
    + pose proof (mode_zero_result ext fuel c d Hlen Hmode) as Hz.
      by rewrite Hrun in Hz.
    + pose proof (Compress_outcome ext Hlookup Hsavings fuel c d Htypes Hlen Hmode)
        as Hout.
      by rewrite Hrun in Hout.
  - unfold Compress in Hrun. by rewrite bool_decide_true in Hrun by lia.
Qed.

(** A run of operations that accounts for a stretch of the input is not
    longer than the stretch. *)
Lemma covers_length d out : forall i j,
  covers d i out = Some j -> i + Go.len out <= j.
Proof.
  unfold covers.
  induction out as [|o out IH] using rev_ind; intros i j.
  - simpl. intros [= <-]. unfold Go.len. simpl. lia.
  - rewrite foldl_app. simpl.
    destruct (foldl _ (Some i) out) as [k|] eqn:Hk; simpl; [|done].
    specialize (IH i k Hk). intros Hadv.
    assert (k + 1 <= j).
    { destruct o as [b|br p]; simpl in Hadv.
      - destruct (Go.index d k); [|done]. destruct (Byte.eqb _ _); [|done].
        injection Hadv as <-. lia.
      - case_bool_decide; [|done]. injection Hadv as <-. lia. }
    unfold Go.len in *. rewrite length_app. simpl. lia.
Qed.

(** X19. [Compress] does not write more operations than the input has
    bytes. *)
Theorem Compress_ops_bound fuel (c c' : Compressor) (d bytes : list byte) :
  Compress ext fuel c d = (c', Val bytes) -> Go.len (buf c') <= Go.len d.
Proof.
  intros Hrun.
  destruct (decide (Go.len d <= maxInputSize ext)) as [Hlen|Hlen].
  - destruct (decide (uint8 (compressionMode c) = 0)) as [Hmode|Hmode].
    + pose proof (mode_zero_result ext fuel c d Hlen Hmode) as Hz.
      by rewrite Hrun in Hz.
    + pose proof (Compress_outcome ext Hlookup Hsavings fuel c d Htypes Hlen Hmode)
        as Hout.
      rewrite Hrun in Hout. simpl in Hout. destruct Hout as [Hcov _].
      apply covers_length in Hcov. lia.
  - unfold Compress in Hrun. by rewrite bool_decide_true in Hrun by lia.
Qed.

(** X15. When [Compress] returns the error of a missing back-reference, the
    index of the error is the position it had reached: what it wrote accounts
    for the input before it, and the byte at it is a reserved symbol. *)
Theorem Compress_stops_at_reserved fuel (c c' : Compressor) (d : list byte) i :
  Compress ext fuel c d = (c', Fail (ErrNoBackref i)) ->
  covers d 0 (buf c') = Some i /\
  exists b, Go.index d i = Some b /\ canEncodeSymbol ext b = false.
Proof.
  intros Hrun.
  destruct (decide (Go.len d <= maxInputSize ext)) as [Hlen|Hlen].
  - destruct (decide (uint8 (compressionMode c) = 0)) as [Hmode|Hmode].
    + pose proof (mode_zero_result ext fuel c d Hlen Hmode) as Hz.
      by rewrite Hrun in Hz.
    + pose proof (Compress_outcome ext Hlookup Hsavings fuel c d Htypes Hlen Hmode)
        as Hout.
      by rewrite Hrun in Hout.
  - unfold Compress in Hrun. by rewrite bool_decide_true in Hrun by lia.
Qed.

End Contracts.

End CompressorMore.

(** ** The brute-force search *)
Section Naive.

Import Lzss LzssSpec.

Lemma naive_lookup_ok : lookup_ok DemoLz.naive.
Proof.
  intros idx pat minL maxL s e. cbn [LookupLongest DemoLz.naive].
  unfold DemoLz.lookup. cbv zeta.
  set (cand := map _ _).
  assert (Hc : Forall (fun c => snd c <= maxL) cand).
  { unfold cand. apply Forall_forall. intros x Hx.
    apply list_elem_of_fmap in Hx as (p & -> & _). simpl. lia. }
  assert (Hfold : forall acc,
    (acc = (-1, -1) \/ snd acc <= maxL) ->
    let best := fold_left (fun acc c => if snd c >? snd acc then c else acc) cand acc in
    best = (-1, -1) \/ snd best <= maxL).
  { induction Hc as [|x l Hx Hl IH]; intros acc Hacc; simpl; [done|].
    apply IH. destruct (snd x >? snd acc); auto. }
  specialize (Hfold (-1, -1) (or_introl eq_refl)). cbv zeta in Hfold.
  destruct (_ || _) eqn:Hb; [by left|]. right.
  apply orb_false_elim in Hb as [Hb1 Hb2]. apply Z.ltb_ge in Hb1, Hb2.
  destruct Hfold as [Heq|Hle]; [rewrite Heq in Hb2; simpl in Hb2; lia|lia].
Qed.

Lemma naive_savings_ok : savings_ok DemoLz.naive.
Proof.
  intros b b' Hb Hb'. cbn [savings DemoLz.naive].
  rewrite bool_decide_true by done. rewrite bool_decide_false by lia. lia.
Qed.

Lemma naive_types_ok : types_ok DemoLz.naive.
Proof.
  intros sym a l d. cbn [newBackRefType DemoLz.naive nbBytesBackRef].
  apply Z.div_le_lower_bound; lia.
Qed.

End Naive.

(** ** The search for a back-reference *)
Section SearchMore.

Import Lzss LzssSpec.

Context (ext : Externals).
Hypothesis Hlookup : lookup_ok ext.

(** X16. [findBackRef] on a position of the input, asked for at least
    [m >= 1] bytes: it does not panic; when fewer than [m] bytes are left, or
    when the type allows less than [m], it answers (-1, -1); a match it
    answers is at least [m] and at most [maxLength] bytes long and ends within
    the data. *)
Theorem findBackRef_within (c : Compressor) (d : list byte) i t m :
  0 <= i -> 1 <= m -> inputIndex c <> None ->
  exists a l,
    findBackRef ext c d i t m = Val (a, l) /\
    (l = -1 \/ (m <= l <= maxLength t /\ i + l <= Go.len d)) /\
    (Go.len d < i + m \/ maxLength t < m -> (a, l) = (-1, -1)).
Proof.
  intros Hi Hm Hidx. unfold findBackRef. cbv zeta.
  rewrite (bool_decide_false (m = -1)) by lia.
  case_bool_decide as H1; [by eauto 6|].
  set (maxRefLen := if bool_decide (i + maxLength t > Go.len d)
                    then Go.len d - i else maxLength t).
  assert (HmaxRef : i + maxRefLen <= Go.len d /\ maxRefLen <= maxLength t).
  { unfold maxRefLen. case_bool_decide; lia. }
  case_bool_decide as H2; [by eauto 6|].
  unfold Go.slice. rewrite bool_decide_true by lia. simpl.
  destruct (inputIndex c) as [input|] eqn:Hinput; [|done].
  assert (Hfar : ~ (Go.len d < i + m \/ maxLength t < m)) by lia.
  destruct (dictOnly t).
  - destruct (Hlookup (dictIndex c)
      (take (Z.to_nat (i + maxRefLen - i)) (drop (Z.to_nat i) d)) m maxRefLen 0
      (Go.len (dictData c))) as [Heq|Hb].
    + rewrite Heq. eauto 6.
    + destruct (LookupLongest _ _ _ _ _ _ _) as [a l]. simpl in Hb.
      exists a, l. split; [done|]. split; [right; lia|done].
  - destruct (Hlookup input
      (take (Z.to_nat (i + maxRefLen - i)) (drop (Z.to_nat i) d)) m maxRefLen
      (max 0 (i - maxAddress t)) i) as [Heq|Hb].
    + rewrite Heq. eauto 6.
    + destruct (LookupLongest _ _ _ _ _ _ _) as [a l]. simpl in Hb.
      exists a, l. split; [done|]. split; [right; lia|done].
Qed.

End SearchMore.

(** ** The extras on the small instances *)
Section MoreInstances.

Import Plonk PlonkSpec RunSpec Complete.

(** A run of the fork in which the calling path does not fail: the two
    goroutines first, then the calling path. *)
Lemma fork_full_run (c0 c1 c2 : Digest * option error) slots :
  snd c2 = None ->
  Fork.reachable c0 c1 c2 slots
    {| Fork.g0 := Fork.GClosed; Fork.g1 := Fork.GClosed;
       Fork.main := Fork.MReturned (match snd c0 with
                                    | Some e => Some e
                                    | None => snd c1
                                    end);
       Fork.slot0 := fst c0; Fork.slot1 := fst c1; Fork.slot2 := fst c2;
       Fork.err0 := snd c0; Fork.err1 := snd c1; Fork.err2 := None |}.
Proof.
  intros Hc2. unfold Fork.reachable.
  eapply rtc_l; [apply Fork.go0_commit; reflexivity|]; simpl.
  eapply rtc_l; [apply Fork.go0_close; reflexivity|]; simpl.
  eapply rtc_l; [apply Fork.go1_commit; reflexivity|]; simpl.
  eapply rtc_l; [apply Fork.go1_close; reflexivity|]; simpl.
  eapply rtc_l; [apply Fork.main_commit; reflexivity|]; simpl. rewrite Hc2.
  eapply rtc_l; [apply Fork.main_recv0; reflexivity|]; simpl.
  eapply rtc_l; [apply Fork.main_recv1; reflexivity|]; simpl.
  apply rtc_refl.
Qed.

Lemma commitToLRO_any_order_witness :
  exists log' proof',
    commitToLRO Demo.env [1] [2] [3] emptyProof Demo.srs [] = (log', Val (proof', None)) /\
    log' = [EvCommit [3]; EvCommit [1]; EvCommit [2]].
Proof.
  destruct (commitToLRO_any_order Demo.env [1] [2] [3] emptyProof Demo.srs [] _ None
              (fork_full_run (Commit Demo.env [1] Demo.srs) (Commit Demo.env [2] Demo.srs)
                 (Commit Demo.env [3] Demo.srs) (LRO emptyProof) eq_refl) eq_refl)
    as (log' & proof' & Hrun & _ & _ & _ & _ & Hlog).
  exists log', proof'. split; [exact Hrun|]. exact (proj2 (Hlog eq_refl)).
Defined.

Lemma commitToQuotient_any_order_witness :
  exists log' proof',
    commitToQuotient Demo.env [1] [2] [3] emptyProof Demo.srs []
    = (log', Val (proof', None)) /\
    log' = [EvCommit [3]; EvCommit [1]; EvCommit [2]].
Proof.
  destruct (commitToQuotient_any_order Demo.env [1] [2] [3] emptyProof Demo.srs [] _ None
              (fork_full_run (Commit Demo.env [1] Demo.srs) (Commit Demo.env [2] Demo.srs)
                 (Commit Demo.env [3] Demo.srs) (H emptyProof) eq_refl) eq_refl)
    as (log' & proof' & Hrun & _ & _ & _ & _ & Hlog).
  exists log', proof'. split; [exact Hrun|]. exact (proj2 (Hlog eq_refl)).
Defined.

Lemma fork_returns_witness :
  exists s' e,
    rtc (Fork.step (zeroDigest, None) (zeroDigest, None) (zeroDigest, None))
      (Fork.init (Arr3 zeroDigest zeroDigest zeroDigest)) s' /\
    Fork.main s' = Fork.MReturned e.
Proof.
  apply (fork_returns (zeroDigest, None) (zeroDigest, None) (zeroDigest, None)
           (Arr3 zeroDigest zeroDigest zeroDigest)).
  apply rtc_refl.
Defined.

Lemma computeLinearizedPolynomial_coefficients_witness :
  is_Some (computeLinearizedPolynomial Demo.env 1 2 3 4 5 6 7 8 [1; 2; 3; 4; 5; 6] Demo.pk)
  <-> gate_sizes Demo.pk [1; 2; 3; 4; 5; 6].
Proof.
  apply (computeLinearizedPolynomial_coefficients Demo.env 1 2 3 4 5 6 7 8
           [1; 2; 3; 4; 5; 6] Demo.pk).
  split; [discriminate|reflexivity].
Defined.

Lemma Prove_quotient_inputs_witness :
  exists r,
    Demo.log = log_of Demo.env Demo.pk Demo.w Demo.proof r /\
    quotient_inputs Demo.env Demo.spr Demo.pk Demo.w Demo.log r.
Proof.
  destruct (Prove_quotient_inputs Demo.env Demo.spr Demo.pk Demo.w Demo.opt Demo.log
              Demo.proof demo_run) as (r & Hlog & Hq & _).
  exists r. split; assumption.
Defined.

End MoreInstances.

Section MoreLzInstances.

Import Lzss LzssSpec.

Lemma Compress_mode_zero_witness :
  Compress DemoLz.ext 4 (withBuf {| buf := []; inputIndex := None; dictData := [];
                                   dictIndex := []; compressionMode := 256 |} [])
    DemoLz.small
  = (withInputIndex (withBuf {| buf := []; inputIndex := None; dictData := [];
                                dictIndex := []; compressionMode := 256 |} [])
       DemoLz.small,
     Panic DivideByZero).
Proof.
  apply (Compress_mode_zero DemoLz.ext 4
           {| buf := []; inputIndex := None; dictData := []; dictIndex := [];
              compressionMode := 256 |} DemoLz.small).
  - vm_compute. discriminate.
  - reflexivity.
Defined.

Lemma Compress_returns_witness :
  snd (Compress DemoLz.naive 16 DemoLz.with_dict DemoLz.text) <> OutOfFuel /\
  forall p, snd (Compress DemoLz.naive 16 DemoLz.with_dict DemoLz.text) <> Panic p.
Proof.
  apply (Compress_returns DemoLz.naive naive_lookup_ok naive_savings_ok naive_types_ok
           16 DemoLz.with_dict DemoLz.text).
  - vm_compute. discriminate.
  - vm_compute. discriminate.
  - vm_compute. discriminate.
Defined.

Lemma Compress_tiles_witness :
  covers DemoLz.text 0 (buf (fst (Compress DemoLz.naive 16 DemoLz.with_dict DemoLz.text)))
  = Some 16.
Proof.
  refine (proj1 (Compress_tiles DemoLz.naive naive_lookup_ok naive_savings_ok
                   naive_types_ok 16 DemoLz.with_dict _ DemoLz.text _ _)).
  vm_compute. reflexivity.
Defined.

Lemma Compress_ops_bound_witness :
  Go.len (buf (fst (Compress DemoLz.naive 16 DemoLz.with_dict DemoLz.text))) <= 16.
Proof.
  refine (Compress_ops_bound DemoLz.naive naive_lookup_ok naive_savings_ok
            naive_types_ok 16 DemoLz.with_dict _ DemoLz.text _ _).
  vm_compute. reflexivity.
Defined.

Lemma Compress_stops_at_reserved_witness :
  exists b, Go.index [Byte.x61; Byte.xfe] 1 = Some b /\
            canEncodeSymbol DemoLz.naive b = false.
Proof.
  refine (proj2 (Compress_stops_at_reserved DemoLz.naive naive_lookup_ok naive_savings_ok
                   naive_types_ok 4 DemoLz.c _ [Byte.x61; Byte.xfe] 1 _)).
  vm_compute. reflexivity.
Defined.

Lemma findBackRef_within_witness :
  exists a l,
    findBackRef DemoLz.naive (withInputIndex DemoLz.with_dict DemoLz.text) DemoLz.text 4
      (newBackRefType DemoLz.naive Byte.xfe 16 8 false) 2 = Val (a, l) /\
    (l = -1 \/ (2 <= l <= 256 /\ 4 + l <= 16)).
Proof.
  destruct (findBackRef_within DemoLz.naive naive_lookup_ok
              (withInputIndex DemoLz.with_dict DemoLz.text) DemoLz.text 4
              (newBackRefType DemoLz.naive Byte.xfe 16 8 false) 2)
    as (a & l & Hrun & Hl & _); [discriminate|discriminate|discriminate|].
  exists a, l. split; [exact Hrun|exact Hl].
Defined.

End MoreLzInstances.
